(** * MagiTerm: streaming field decoder and stream pipelines

  A shallow embedding of

  - [src/lib/ai-streaming.ts]  (class [JsonFieldStreamDecoder]),
  - [src/app/api/terminal/stream/route.ts]  ([createExecuteStream]),
  - [src/app/api/ai/generate/stream/route.ts]  ([POST], [finalPayload],
    [sanitizeConfigValue], [encodeEvent]),
  - [lib/agents]  ([runExecute], [ensureApiKey]),
  - the [Shell] component  ([executeCommand], [eventSource.onmessage],
    [handleKeyDown]),
  - the [Sidebar] component  ([readEventStream], [handleGenerate]),
  - [ensureCommandRecord] and the guard of the terminal stream route, and
    the [runCommand] mutation of [src/lib/graphql/schema.ts],

  followed by the properties proved about them.

  JavaScript strings are sequences of UTF-16 code units; [chunk[i]],
  [.length], [.slice] and [JSON.parse] all work on code units, so a
  string is a [list N] here.  Listener callbacks become a list of
  notifications returned next to the new decoder state. *)

From Stdlib Require Import String Ascii.
From Stdlib Require Import List NArith ZArith Bool Arith Lia.
Import ListNotations.

(* ================================================================== *)
(** * Part I.  The embedding                                           *)
(* ================================================================== *)

(** ** JavaScript strings *)

Module JsString.

Definition char := N.
Definition jsstring := list char.

(** ASCII literals, for readable statements. *)
Definition js (s : String.string) : jsstring :=
  List.map Ascii.N_of_ascii (String.list_ascii_of_string s).

(** The same, with the apostrophe standing for the double quote, so
    that JSON texts can be written down as literals. *)
Definition jsq (s : String.string) : jsstring :=
  List.map (fun c => if (c =? 39)%N then 34%N else c) (js s).

Arguments js s%_string.
Arguments jsq s%_string.

Definition quote : char := 34%N.       (* the double quote *)
Definition backslash : char := 92%N.
Definition colon : char := 58%N.
Definition letter_u : char := 117%N.

Definition char_eqb (a b : char) : bool := N.eqb a b.

(** [s[i] === c] where [s[i]] is [undefined] out of range. *)
Definition index_is (s : jsstring) (i : nat) (c : char) : bool :=
  match nth_error s i with
  | Some e => char_eqb c e
  | None => false
  end.

(** The code units matched by the regular expression [\s] (and removed
    by [String.prototype.trim]): WhiteSpace and LineTerminator. *)
Definition is_js_whitespace (c : char) : bool :=
  ((9 <=? c) && (c <=? 13))%N
  || (c =? 32)%N || (c =? 160)%N || (c =? 5760)%N
  || ((8192 <=? c) && (c <=? 8202))%N
  || (c =? 8232)%N || (c =? 8233)%N || (c =? 8239)%N
  || (c =? 8287)%N || (c =? 12288)%N || (c =? 65279)%N.

(** [s.trim()] *)
Fixpoint trimStart (s : jsstring) : jsstring :=
  match s with
  | c :: s' => if is_js_whitespace c then trimStart s' else s
  | [] => []
  end.

Definition trimEnd (s : jsstring) : jsstring := rev (trimStart (rev s)).

Definition trim (s : jsstring) : jsstring := trimEnd (trimStart s).

(** Truthiness of a string: the empty string is the only falsy one. *)
Definition truthy (s : jsstring) : bool :=
  match s with [] => false | _ :: _ => true end.

(** [a || b] on strings. *)
Definition or_else (a b : jsstring) : jsstring := if truthy a then a else b.

(** Substring search, used to state where a key token first occurs. *)
Fixpoint prefixb (p l : jsstring) : bool :=
  match p, l with
  | [], _ => true
  | x :: p', y :: l' => char_eqb x y && prefixb p' l'
  | _ :: _, [] => false
  end.

Fixpoint occursb (p l : jsstring) : bool :=
  prefixb p l || match l with [] => false | _ :: l' => occursb p l' end.

End JsString.

Import JsString.

(** ** [JSON.parse] on a string literal *)

Module Json.

(** The four JSON whitespace characters. *)
Definition is_json_ws (c : char) : bool :=
  ((c =? 9) || (c =? 10) || (c =? 13) || (c =? 32))%N.

Definition is_hex (c : char) : bool :=
  (((48 <=? c) && (c <=? 57)) || ((65 <=? c) && (c <=? 70))
   || ((97 <=? c) && (c <=? 102)))%N.

Definition hex_val (c : char) : N :=
  (if c <=? 57 then c - 48 else if c <=? 70 then c - 55 else c - 87)%N.

(** The code unit denoted by [\uh1h2h3h4]. *)
Definition unicode_unit (h1 h2 h3 h4 : char) : char :=
  (hex_val h1 * 4096 + hex_val h2 * 256 + hex_val h3 * 16 + hex_val h4)%N.

(** The single-character escapes: quote, backslash, slash, b f n r t. *)
Definition simple_escape (e : char) : option char :=
  if (e =? 34)%N then Some 34%N
  else if (e =? 92)%N then Some 92%N
  else if (e =? 47)%N then Some 47%N
  else if (e =? 98)%N then Some 8%N
  else if (e =? 102)%N then Some 12%N
  else if (e =? 110)%N then Some 10%N
  else if (e =? 114)%N then Some 13%N
  else if (e =? 116)%N then Some 9%N
  else None.

(** Scan a JSON string after its opening quote: the decoded code units
    and the text left after the closing quote, or [None] for a
    SyntaxError (unterminated string, raw control character, bad
    escape). *)
Fixpoint scan_string (text : jsstring) : option (jsstring * jsstring) :=
  match text with
  | [] => None
  | c :: rest =>
      if (c =? quote)%N then Some ([], rest)
      else if (c =? backslash)%N then
        match rest with
        | [] => None
        | e :: rest1 =>
            if (e =? letter_u)%N then
              match rest1 with
              | h1 :: h2 :: h3 :: h4 :: rest2 =>
                  if is_hex h1 && is_hex h2 && is_hex h3 && is_hex h4 then
                    match scan_string rest2 with
                    | Some (v, r) => Some (unicode_unit h1 h2 h3 h4 :: v, r)
                    | None => None
                    end
                  else None
              | _ => None
              end
            else
              match simple_escape e with
              | Some x =>
                  match scan_string rest1 with
                  | Some (v, r) => Some (x :: v, r)
                  | None => None
                  end
              | None => None
              end
        end
      else if (c <? 32)%N then None
      else
        match scan_string rest with
        | Some (v, r) => Some (c :: v, r)
        | None => None
        end
  end.

(** [JSON.parse] of a text whose first character is the double quote:
    the only value such a text can hold is one string, optionally
    followed by JSON whitespace.  [None] is a thrown SyntaxError. *)
Definition JSON_parse_string (text : jsstring) : option jsstring :=
  match text with
  | c :: rest =>
      if (c =? quote)%N then
        match scan_string rest with
        | Some (v, r) => if forallb is_json_ws r then Some v else None
        | None => None
        end
      else None
  | [] => None
  end.

(** [JSON.parse(`"${buffer}"`)] *)
Definition JSON_parse_quoted (buffer : jsstring) : option jsstring :=
  JSON_parse_string (quote :: buffer ++ [quote]).

End Json.

Import Json.

(** ** [JsonFieldStreamDecoder] *)

Module FieldDecoder.

Inductive FieldStage :=
| SearchingKey | AfterKey | WaitingForStringStart | Collecting | Complete.

Definition stage_eqb (a b : FieldStage) : bool :=
  match a, b with
  | SearchingKey, SearchingKey | AfterKey, AfterKey
  | WaitingForStringStart, WaitingForStringStart
  | Collecting, Collecting | Complete, Complete => true
  | _, _ => false
  end.

(** What the listeners receive. *)
Inductive Notification :=
| OnDelta (field delta fullValue : jsstring)
| OnComplete (field value : jsstring).

Record Decoder := mkDecoder {
  field : jsstring;
  stage : FieldStage;
  keyIndex : nat;
  collectingBuffer : jsstring;
  escapeActive : bool;
  unicodeDigitsRemaining : nat;
  lastEmittedLength : nat;
  currentValue : jsstring
}.

(** [this.keyPattern = `"${field}"`] *)
Definition keyPatternOf (f : jsstring) : jsstring := quote :: f ++ [quote].
Definition keyPattern (d : Decoder) : jsstring := keyPatternOf (field d).

(** [new JsonFieldStreamDecoder(field, listeners)] *)
Definition newDecoder (f : jsstring) : Decoder :=
  mkDecoder f SearchingKey 0 [] false 0 0 [].

Definition set_search (d : Decoder) (s : FieldStage) (k : nat) : Decoder :=
  mkDecoder (field d) s k (collectingBuffer d) (escapeActive d)
            (unicodeDigitsRemaining d) (lastEmittedLength d) (currentValue d).

Definition set_scratch (d : Decoder) (s : FieldStage) (buf : jsstring)
           (esc : bool) (digits : nat) : Decoder :=
  mkDecoder (field d) s (keyIndex d) buf esc digits
            (lastEmittedLength d) (currentValue d).

Definition set_emitted (d : Decoder) (len : nat) (v : jsstring) : Decoder :=
  mkDecoder (field d) (stage d) (keyIndex d) (collectingBuffer d)
            (escapeActive d) (unicodeDigitsRemaining d) len v.

Definition processKeyChar (d : Decoder) (c : char) : Decoder :=
  if index_is (keyPattern d) (keyIndex d) c then
    if S (keyIndex d) =? length (keyPattern d)
    then set_search d AfterKey 0
    else set_search d (stage d) (S (keyIndex d))
  else
    set_search d (stage d) (if index_is (keyPattern d) 0 c then 1 else 0).

Definition resetSearchAndReprocess (d : Decoder) (c : char) : Decoder :=
  processKeyChar (set_search d SearchingKey 0) c.

Definition processPostKeyChar (d : Decoder) (c : char) : Decoder :=
  if (c =? colon)%N then set_search d WaitingForStringStart (keyIndex d)
  else if is_js_whitespace c then d
  else resetSearchAndReprocess d c.

Definition processStringStartChar (d : Decoder) (c : char) : Decoder :=
  if is_js_whitespace c then d
  else if (c =? quote)%N then
    mkDecoder (field d) Collecting (keyIndex d) [] false 0 0 (currentValue d)
  else resetSearchAndReprocess d c.

Definition emitDelta (d : Decoder) : Decoder * list Notification :=
  match collectingBuffer d with
  | [] => (d, [])
  | _ :: _ =>
      match JSON_parse_quoted (collectingBuffer d) with
      | Some decoded =>
          if lastEmittedLength d <? length decoded then
            (set_emitted d (length decoded) decoded,
             [OnDelta (field d) (skipn (lastEmittedLength d) decoded) decoded])
          else (d, [])
      | None => (d, [])
      end
  end.

Definition finalizeValue (d : Decoder) : Decoder * list Notification :=
  let '(d1, ns) :=
    match JSON_parse_quoted (collectingBuffer d) with
    | Some decoded =>
        let '(d1, ns1) :=
          if lastEmittedLength d <? length decoded then
            let delta := skipn (lastEmittedLength d) decoded in
            (set_emitted d (length decoded) decoded,
             if 0 <? length delta
             then [OnDelta (field d) delta decoded] else [])
          else (d, []) in
        (d1, ns1 ++ [OnComplete (field d) decoded])
    | None => (d, [])
    end in
  (set_scratch d1 Complete [] false 0, ns).

Definition processValueChar (d : Decoder) (c : char)
  : Decoder * list Notification :=
  if 0 <? unicodeDigitsRemaining d then
    let n := unicodeDigitsRemaining d - 1 in
    let d1 := set_scratch d (stage d) (collectingBuffer d ++ [c])
                          (escapeActive d) n in
    if n =? 0 then
      emitDelta (set_scratch d1 (stage d1) (collectingBuffer d1) false n)
    else (d1, [])
  else if escapeActive d then
    let d1 := set_scratch d (stage d) (collectingBuffer d ++ [c])
                          (escapeActive d) (unicodeDigitsRemaining d) in
    if (c =? letter_u)%N then
      (set_scratch d1 (stage d1) (collectingBuffer d1) (escapeActive d1) 4, [])
    else
      emitDelta (set_scratch d1 (stage d1) (collectingBuffer d1) false
                             (unicodeDigitsRemaining d1))
  else if (c =? backslash)%N then
    (set_scratch d (stage d) (collectingBuffer d ++ [c]) true
                 (unicodeDigitsRemaining d), [])
  else if (c =? quote)%N then finalizeValue d
  else
    emitDelta (set_scratch d (stage d) (collectingBuffer d ++ [c])
                           (escapeActive d) (unicodeDigitsRemaining d)).

(** The body of the [switch] in [processChunk]. *)
Definition processChar (d : Decoder) (c : char)
  : Decoder * list Notification :=
  match stage d with
  | SearchingKey => (processKeyChar d c, [])
  | AfterKey => (processPostKeyChar d c, [])
  | WaitingForStringStart => (processStringStartChar d c, [])
  | Collecting => processValueChar d c
  | Complete => (d, [])
  end.

(** The [for] loop of [processChunk]: it stops as soon as the stage is
    [Complete]. *)
Fixpoint processLoop (d : Decoder) (chunk : jsstring)
  : Decoder * list Notification :=
  match chunk with
  | [] => (d, [])
  | c :: rest =>
      if stage_eqb (stage d) Complete then (d, [])
      else
        let '(d1, ns1) := processChar d c in
        let '(d2, ns2) := processLoop d1 rest in
        (d2, ns1 ++ ns2)
  end.

Definition processChunk (d : Decoder) (chunk : jsstring)
  : Decoder * list Notification :=
  if stage_eqb (stage d) Complete then (d, []) else processLoop d chunk.

(** A sequence of [processChunk] calls on one decoder. *)
Fixpoint feed (d : Decoder) (chunks : list jsstring)
  : Decoder * list Notification :=
  match chunks with
  | [] => (d, [])
  | chunk :: more =>
      let '(d1, ns1) := processChunk d chunk in
      let '(d2, ns2) := feed d1 more in
      (d2, ns1 ++ ns2)
  end.

(** [get value()] *)
Definition value (d : Decoder) : jsstring := currentValue d.

(** Projections of a notification list. *)
Definition deltaOf (n : Notification) : jsstring :=
  match n with OnDelta _ delta _ => delta | OnComplete _ _ => [] end.

Definition deltas (ns : list Notification) : jsstring :=
  concat (List.map deltaOf ns).

Fixpoint completions (ns : list Notification) : list jsstring :=
  match ns with
  | [] => []
  | OnComplete _ v :: ns' => v :: completions ns'
  | OnDelta _ _ _ :: ns' => completions ns'
  end.

End FieldDecoder.

Import FieldDecoder.

(** ** The terminal execute stream, [createExecuteStream]

  The [start] callback is sequential code over a handful of mutable
  locals, the clock, the upstream generator and the persistence layer.
  The locals are a record threaded through a state monad that also
  collects, in order, every effect the callback performs.  What the
  callback cannot decide itself (clock readings, what the generator
  yields and how it ends, whether a database call rejects) is a
  [World]. *)

Module ExecuteStream.

(** [ExecuteEvent] of [lib/agents]. *)
Inductive ExecuteEvent :=
| TokenEvent (text : jsstring)
| StderrEvent (message : jsstring)
| StatusEvent (message : jsstring) (exitCode tokensIn tokensOut : option Z).

Record PersistedEvent := mkPersisted {
  pe_sessionId : jsstring;
  pe_event : ExecuteEvent          (* the [kind] and [data] columns *)
}.

(** A value caught by [catch (error)]. *)
Inductive Thrown :=
| ErrorObject (message : jsstring)      (* [error instanceof Error] *)
| OtherValue.

(** The [payload: unknown] argument of [appendErrorText]. *)
Inductive Payload :=
| ObjectPayload (message text : option jsstring)
| StringPayload (s : jsstring)
| OtherPayload.

Definition appendErrorText (buffer : jsstring) (payload : Payload)
  : jsstring :=
  let text :=
    match payload with
    | ObjectPayload (Some m) _ => m
    | ObjectPayload None (Some t) => t
    | ObjectPayload None None => []
    | StringPayload s => s
    | OtherPayload => []
    end in
  if negb (truthy text) then buffer
  else if truthy buffer then buffer ++ [10%N] ++ text else text.

(** What is written to the client channel. *)
Inductive ClientPayload :=
| EventPayload (event : ExecuteEvent)
| DonePayload
| ErrorPayload (message : jsstring).

Inductive LogLine :=
| FailedToPersistEvents
| FailedToFinalizeOutput.

(** The effects of one request, in program order.  [Invoke_flushEvents]
    and [Invoke_finalize] mark the entry of the two local closures. *)
Inductive Effect :=
| Enqueue (payload : ClientPayload)
| Invoke_flushEvents
| CreateMany (data : list PersistedEvent)
| Invoke_finalize
| CommandUpdate (commandId : jsstring) (output : option jsstring)
                (latencyMs tokensIn tokensOut : Z)
| ConsoleError (line : LogLine)
| ControllerClose.

Record World := mkWorld {
  clock : nat -> Z;                 (* successive [Date.now()] readings *)
  historyRejects : option Thrown;   (* [getCommandHistory] rejects *)
  produced : list ExecuteEvent;     (* what the generator yields *)
  producerRaises : option Thrown;   (* and whether it then raises *)
  createManyRejects : nat -> bool;  (* the n-th bulk write rejects *)
  updateRejects : bool              (* the summary write rejects *)
}.

Record Session := mkSession {
  startTime : Z;
  outputBuffer : jsstring;
  errorBuffer : jsstring;
  tokensIn : Z;
  tokensOut : Z;
  encounteredError : bool;
  eventBatch : list PersistedEvent;
  lastFlush : Z;
  clockReads : nat;                 (* [Date.now()] calls so far *)
  bulkWrites : nat                  (* [createMany] calls so far *)
}.

(** State and effect log. *)
Definition M (A : Type) : Type := Session -> A * Session * list Effect.

Definition ret {A} (a : A) : M A := fun s => (a, s, []).

Definition bind {A B} (m : M A) (k : A -> M B) : M B :=
  fun s =>
    let '(a, s1, t1) := m s in
    let '(b, s2, t2) := k a s1 in
    (b, s2, t1 ++ t2).

Definition get : M Session := fun s => (s, s, []).
Definition modify (f : Session -> Session) : M unit := fun s => (tt, f s, []).
Definition tell (e : Effect) : M unit := fun s => (tt, s, [e]).

Notation "x <- m ;; k" := (bind m (fun x => k))
  (at level 61, m at next level, right associativity).
Notation "m ;;; k" := (bind m (fun _ => k))
  (at level 61, right associativity).

Definition set_outputBuffer (v : jsstring) (s : Session) : Session :=
  mkSession (startTime s) v (errorBuffer s) (tokensIn s) (tokensOut s)
            (encounteredError s) (eventBatch s) (lastFlush s)
            (clockReads s) (bulkWrites s).
Definition set_errorBuffer (v : jsstring) (s : Session) : Session :=
  mkSession (startTime s) (outputBuffer s) v (tokensIn s) (tokensOut s)
            (encounteredError s) (eventBatch s) (lastFlush s)
            (clockReads s) (bulkWrites s).
Definition set_tokensIn (v : Z) (s : Session) : Session :=
  mkSession (startTime s) (outputBuffer s) (errorBuffer s) v (tokensOut s)
            (encounteredError s) (eventBatch s) (lastFlush s)
            (clockReads s) (bulkWrites s).
Definition set_tokensOut (v : Z) (s : Session) : Session :=
  mkSession (startTime s) (outputBuffer s) (errorBuffer s) (tokensIn s) v
            (encounteredError s) (eventBatch s) (lastFlush s)
            (clockReads s) (bulkWrites s).
Definition set_encounteredError (v : bool) (s : Session) : Session :=
  mkSession (startTime s) (outputBuffer s) (errorBuffer s) (tokensIn s)
            (tokensOut s) v (eventBatch s) (lastFlush s)
            (clockReads s) (bulkWrites s).
Definition set_eventBatch (v : list PersistedEvent) (s : Session) : Session :=
  mkSession (startTime s) (outputBuffer s) (errorBuffer s) (tokensIn s)
            (tokensOut s) (encounteredError s) v (lastFlush s)
            (clockReads s) (bulkWrites s).
Definition set_lastFlush (v : Z) (s : Session) : Session :=
  mkSession (startTime s) (outputBuffer s) (errorBuffer s) (tokensIn s)
            (tokensOut s) (encounteredError s) (eventBatch s) v
            (clockReads s) (bulkWrites s).
Definition set_clockReads (v : nat) (s : Session) : Session :=
  mkSession (startTime s) (outputBuffer s) (errorBuffer s) (tokensIn s)
            (tokensOut s) (encounteredError s) (eventBatch s) (lastFlush s)
            v (bulkWrites s).
Definition set_bulkWrites (v : nat) (s : Session) : Session :=
  mkSession (startTime s) (outputBuffer s) (errorBuffer s) (tokensIn s)
            (tokensOut s) (encounteredError s) (eventBatch s) (lastFlush s)
            (clockReads s) v.

Section Request.

Variable w : World.
Variables sessionId commandId : jsstring.

(** [Date.now()] *)
Definition dateNow : M Z :=
  fun s => (clock w (clockReads s), set_clockReads (S (clockReads s)) s, []).

(** [eventBatch.splice(0)] empties the batch and yields its former
    content, which is then handed to [createMany]. *)
Definition flushEvents : M unit :=
  tell Invoke_flushEvents ;;;
  s <- get ;;
  match eventBatch s with
  | [] => ret tt
  | _ :: _ =>
      modify (set_eventBatch []) ;;;
      modify (set_bulkWrites (S (bulkWrites s))) ;;;
      tell (CreateMany (eventBatch s)) ;;;
      if createManyRejects w (bulkWrites s)
      then tell (ConsoleError FailedToPersistEvents)
      else ret tt
  end.

Definition finalizeCommandRecord (id : jsstring) (output : option jsstring)
           (latencyMs tIn tOut : Z) : M unit :=
  tell (CommandUpdate id output latencyMs tIn tOut) ;;;
  if updateRejects w
  then tell (ConsoleError FailedToFinalizeOutput)
  else ret tt.

(** The summary text chosen by [finalize]. *)
Definition finalOutputOf (s : Session) : option jsstring :=
  if 0 <? length (outputBuffer s) then Some (outputBuffer s)
  else if encounteredError s && (0 <? length (errorBuffer s))
  then Some (trim (js "Error: " ++ errorBuffer s))
  else None.

Definition finalize : M unit :=
  tell Invoke_finalize ;;;
  now <- dateNow ;;
  s <- get ;;
  finalizeCommandRecord commandId (finalOutputOf s) (now - startTime s)
                        (tokensIn s) (tokensOut s).

(** The [if]/[else if] chain on [event.kind]. *)
Definition accumulate (event : ExecuteEvent) (s : Session) : Session :=
  match event with
  | TokenEvent text =>
      set_outputBuffer (outputBuffer s ++ or_else text []) s
  | StderrEvent message =>
      let s1 := set_encounteredError true s in
      set_errorBuffer
        (appendErrorText (errorBuffer s1)
                         (ObjectPayload (Some message) None)) s1
  | StatusEvent _ exitCode tIn tOut =>
      let s1 := match tIn with Some n => set_tokensIn n s | None => s end in
      let s2 := match tOut with Some n => set_tokensOut n s1 | None => s1 end in
      match exitCode with
      | Some code =>
          if negb (code =? 0)%Z then set_encounteredError true s2 else s2
      | None => s2
      end
  end.

(** One iteration of the [for await] loop. *)
Definition onEvent (event : ExecuteEvent) : M unit :=
  tell (Enqueue (EventPayload event)) ;;;
  modify (fun s => set_eventBatch
                     (eventBatch s ++ [mkPersisted sessionId event]) s) ;;;
  modify (accumulate event) ;;;
  now <- dateNow ;;
  s <- get ;;
  if (200 <? now - lastFlush s)%Z
  then flushEvents ;;; modify (set_lastFlush now)
  else ret tt.

Fixpoint forAwait (events : list ExecuteEvent) : M unit :=
  match events with
  | [] => ret tt
  | event :: more => onEvent event ;;; forAwait more
  end.

Definition errorMessageOf (error : Thrown) : jsstring :=
  match error with
  | ErrorObject message => message
  | OtherValue => js "Unknown error"
  end.

Definition catchBlock (error : Thrown) : M unit :=
  modify (set_encounteredError true) ;;;
  let errorMsg := errorMessageOf error in
  modify (fun s => set_errorBuffer
                     (appendErrorText (errorBuffer s)
                                      (StringPayload errorMsg)) s) ;;;
  tell (Enqueue (ErrorPayload errorMsg)) ;;;
  flushEvents ;;;
  finalize.

Definition tryBlock : M unit :=
  match historyRejects w with
  | Some error => catchBlock error
  | None =>
      forAwait (produced w) ;;;
      match producerRaises w with
      | Some error => catchBlock error
      | None =>
          flushEvents ;;;
          finalize ;;;
          tell (Enqueue DonePayload)
      end
  end.

(** The locals as initialised at the top of [start]: two clock readings
    are taken, for [startTime] and for [lastFlush]. *)
Definition initialSession : Session :=
  mkSession (clock w 0) [] [] 0 0 false [] (clock w 1) 2 0.

(** [start(controller)]: the [try]/[catch] and the [finally]. *)
Definition start : Session * list Effect :=
  let '(_, s, t) := (tryBlock ;;; tell ControllerClose) initialSession in
  (s, t).

End Request.



Fixpoint written (t : list Effect) : list PersistedEvent :=
  match t with
  | [] => []
  | CreateMany data :: t' => data ++ written t'
  | _ :: t' => written t'
  end.

End ExecuteStream.

(** ** The suggestion stream, [POST /api/ai/generate/stream] *)

Module GenerateStream.

Record SuggestOutput := mkOutput {
  command : jsstring;
  explanation : jsstring
}.

(** [AgentRunResult] of [lib/agents]. *)
Record AgentRunResult := mkResult {
  output : SuggestOutput;
  usageInputTokens : Z;
  usageOutputTokens : Z;
  latencyMs : Z
}.

Record FinalPayload := mkPayload {
  fp_command : jsstring;
  fp_explanation : jsstring;
  fp_tokensIn : Z;
  fp_tokensOut : Z;
  fp_latencyMs : Z
}.

Inductive ClientEvent :=
| DeltaEvent (field text : jsstring)
| ResultEvent (data : FinalPayload)
| DoneEvent
| ErrorEvent (message : jsstring)
| CloseStream.

(** The locals of [start]. *)
Record Locals := mkLocals {
  latestCommand : jsstring;
  latestExplanation : jsstring;
  commandParser : Decoder;
  explanationParser : Decoder
}.

Definition initialLocals : Locals :=
  mkLocals [] [] (newDecoder (js "command")) (newDecoder (js "explanation")).

(** The [onDelta] listeners: remember [fullValue], enqueue [delta].
    No [onComplete] listener is registered, so completions are dropped. *)
Fixpoint listen (name latest : jsstring) (ns : list Notification)
  : jsstring * list ClientEvent :=
  match ns with
  | [] => (latest, [])
  | OnDelta _ delta fullValue :: ns' =>
      let '(l, es) := listen name fullValue ns' in
      (l, DeltaEvent name delta :: es)
  | OnComplete _ _ :: ns' => listen name latest ns'
  end.

(** [onStreamChunk] *)
Definition onStreamChunk (st : Locals) (chunk : jsstring)
  : Locals * list ClientEvent :=
  let '(cp, ns1) := processChunk (commandParser st) chunk in
  let '(lc, es1) := listen (js "command") (latestCommand st) ns1 in
  let '(ep, ns2) := processChunk (explanationParser st) chunk in
  let '(le, es2) := listen (js "explanation") (latestExplanation st) ns2 in
  (mkLocals lc le cp ep, es1 ++ es2).

Fixpoint onStreamChunks (st : Locals) (chunks : list jsstring)
  : Locals * list ClientEvent :=
  match chunks with
  | [] => (st, [])
  | chunk :: more =>
      let '(st1, es1) := onStreamChunk st chunk in
      let '(st2, es2) := onStreamChunks st1 more in
      (st2, es1 ++ es2)
  end.

Definition finalPayload (st : Locals) (result : AgentRunResult)
  : FinalPayload :=
  mkPayload (or_else (latestCommand st) (command (output result)))
            (or_else (latestExplanation st) (explanation (output result)))
            (usageInputTokens result)
            (usageOutputTokens result)
            (latencyMs result).

(** What the route cannot decide itself: whether reading the command
    history rejects, the chunks the producer hands to [onStreamChunk]
    while it runs, and its structured result or the message of what it
    threw. *)
Record Run := mkRun {
  historyRejects : option jsstring;
  chunks : list jsstring;
  outcome : AgentRunResult + jsstring
}.

(** [start(controller)] *)
Definition start (r : Run) : list ClientEvent :=
  match historyRejects r with
  | Some message => [ErrorEvent message]
  | None =>
      let '(st, es) := onStreamChunks initialLocals (chunks r) in
      es ++
      match outcome r with
      | inl result => [ResultEvent (finalPayload st result); DoneEvent]
      | inr message => [ErrorEvent message]
      end
  end ++ [CloseStream].

Fixpoint resultOf (es : list ClientEvent) : option FinalPayload :=
  match es with
  | [] => None
  | ResultEvent data :: _ => Some data
  | _ :: es' => resultOf es'
  end.

End GenerateStream.

(** ** Vocabulary for the statements about the decoder *)

Module DecoderSpec.

(** Field names that can be written as a JSON key without escaping the
    quote. *)
Definition quote_free (f : jsstring) : bool :=
  forallb (fun c => negb (char_eqb c quote)) f.

(** A decoder for [F] that is searching, [k] characters into the key. *)
Definition searching (F : jsstring) (k : nat) : Decoder :=
  set_search (newDecoder F) SearchingKey k.

Definition is_prefix (s l : jsstring) : Prop := exists r, l = s ++ r.

(** What the key index means while no occurrence has been read: the
    index is a matched prefix of the pattern, and it accounts for the
    text read since the last quote whenever that text can still grow
    into the field name. *)
Definition search_inv (F t : jsstring) (k : nat) : Prop :=
  k < length (keyPatternOf F)
  /\ (exists a, t = a ++ firstn k (keyPatternOf F))
  /\ (forall a s, t = a ++ quote :: s -> is_prefix s F -> k = S (length s)).

Definition all_hex (h1 h2 h3 h4 : char) : bool :=
  is_hex h1 && is_hex h2 && is_hex h3 && is_hex h4.

(** [body raw v]: [raw] is a run of ordinary characters and well-formed
    escapes, and [v] is what it denotes. *)
Inductive body : jsstring -> jsstring -> Prop :=
| body_nil : body [] []
| body_char c r v :
    c <> quote -> c <> backslash -> (c <? 32)%N = false ->
    body r v -> body (c :: r) (c :: v)
| body_escape e x r v :
    simple_escape e = Some x ->
    body r v -> body (backslash :: e :: r) (x :: v)
| body_unicode h1 h2 h3 h4 r v :
    all_hex h1 h2 h3 h4 = true ->
    body r v ->
    body (backslash :: letter_u :: h1 :: h2 :: h3 :: h4 :: r)
         (unicode_unit h1 h2 h3 h4 :: v).

(** A decoder that is collecting, between two escapes. *)
Definition collecting (F : jsstring) (k : nat) (buf : jsstring)
           (esc : bool) (digits last : nat) (cur : jsstring) : Decoder :=
  mkDecoder F Collecting k buf esc digits last cur.

(** A text holds a well-formed pair for [F]: the key token, a colon and a
    string literal denoting [value], separated by JSON whitespace only. *)
Definition contains_pair (F text value : jsstring) : Prop :=
  exists pre ws1 ws2 raw post,
    forallb is_json_ws ws1 = true /\ forallb is_json_ws ws2 = true
    /\ JSON_parse_quoted raw = Some value
    /\ text = pre ++ keyPatternOf F ++ ws1 ++ [colon] ++ ws2
                  ++ [quote] ++ raw ++ [quote] ++ post.

Definition every_pair_is_decoded : Prop :=
  forall F text value chunks,
    contains_pair F text value ->
    concat chunks = text ->
    let '(_, ns) := feed (newDecoder F) chunks in
    deltas ns = value /\ completions ns = [value].

(** The text the decoder has buffered at a point where no escape is
    pending: ordinary characters, two-character escapes and six-character
    unicode escapes, none of them validated. *)
Inductive units : jsstring -> Prop :=
| units_nil : units []
| units_plain B c :
    c <> quote -> c <> backslash -> units B -> units (B ++ [c])
| units_escape B e :
    e <> letter_u -> units B -> units (B ++ [backslash; e])
| units_unicode B h1 h2 h3 h4 :
    units B -> units (B ++ [backslash; letter_u; h1; h2; h3; h4]).

(** The buffer of a collecting decoder, by escape state. *)
Definition buffer_shape (d : Decoder) : Prop :=
  stage d = Collecting ->
  exists B, units B /\
    match unicodeDigitsRemaining d with
    | 0 => collectingBuffer d = if escapeActive d then B ++ [backslash] else B
    | S n => exists ds, collectingBuffer d = B ++ backslash :: letter_u :: ds
                        /\ length ds + S n = 4
    end.

(** A decoder that will never notify again. *)
Definition silent (d : Decoder) : Prop :=
  stage d = Complete
  \/ (stage d = Collecting
      /\ forall more, JSON_parse_quoted (collectingBuffer d ++ more) = None).

End DecoderSpec.

(** ** Vocabulary for the statements about the execute stream *)

Module PipelineSpec.

Import ExecuteStream.

(** Effects that can occur while the generator is being drained. *)
Definition loop_effect (e : Effect) : Prop :=
  match e with
  | Enqueue _ | Invoke_flushEvents | CreateMany _
  | ConsoleError FailedToPersistEvents => True
  | _ => False
  end.

(** The events the [for await] loop receives. *)
Definition consumed (w : World) : list ExecuteEvent :=
  match historyRejects w with Some _ => [] | None => produced w end.

(** The summary text, in the words of the specification. *)
Definition summaryText_spec (outputBuffer errorBuffer : jsstring)
           (encounteredError : bool) : option jsstring :=
  match outputBuffer with
  | _ :: _ => Some outputBuffer
  | [] =>
      if encounteredError then
        match errorBuffer with
        | _ :: _ => Some (trim (js "Error: " ++ errorBuffer))
        | [] => None
        end
      else None
  end.

(** The bulk write issued by a flush of a non-empty batch. *)
Definition flush_log (w : World) (s : Session) : list Effect :=
  match eventBatch s with
  | [] => [Invoke_flushEvents]
  | _ :: _ =>
      Invoke_flushEvents :: CreateMany (eventBatch s) ::
      (if createManyRejects w (bulkWrites s)
       then [ConsoleError FailedToPersistEvents] else [])
  end.

Definition after_flush (s : Session) : Session :=
  match eventBatch s with
  | [] => s
  | _ :: _ => set_bulkWrites (S (bulkWrites s)) (set_eventBatch [] s)
  end.

Definition finalize_log (w : World) (commandId : jsstring) (s : Session)
  : list Effect :=
  Invoke_finalize ::
  CommandUpdate commandId (finalOutputOf s)
                (clock w (clockReads s) - startTime s)
                (tokensIn s) (tokensOut s) ::
  (if updateRejects w then [ConsoleError FailedToFinalizeOutput] else []).

(** What may follow the summary write. *)
Definition closing_effect (e : Effect) : Prop :=
  match e with
  | ConsoleError FailedToFinalizeOutput | Enqueue DonePayload => True
  | _ => False
  end.

(** What a flush leaves untouched. *)
Definition same_buffers (s s' : Session) : Prop :=
  startTime s' = startTime s /\ outputBuffer s' = outputBuffer s
  /\ errorBuffer s' = errorBuffer s /\ tokensIn s' = tokensIn s
  /\ tokensOut s' = tokensOut s /\ encounteredError s' = encounteredError s.

End PipelineSpec.

(** ** Vocabulary for the statements about the suggestion stream *)

Module GenerateSpec.

Import GenerateStream.

(** The [fullValue] of the last delta, or [latest] when there is none. *)
Fixpoint lastFull (latest : jsstring) (ns : list Notification) : jsstring :=
  match ns with
  | [] => latest
  | OnDelta _ _ fullValue :: ns' => lastFull fullValue ns'
  | OnComplete _ _ :: ns' => lastFull latest ns'
  end.




(** The two locals always hold the decoders' current values. *)
Definition in_step (st : Locals) : Prop :=
  latestCommand st = value (commandParser st)
  /\ latestExplanation st = value (explanationParser st).

Definition is_delta (e : ClientEvent) : Prop :=
  match e with DeltaEvent _ _ => True | _ => False end.

End GenerateSpec.

(** ** Invariants of the decoder on arbitrary input *)

Module DecoderInvariants.

Import DecoderSpec.

(** The current value is what a prefix of the buffer denotes, and the
    emitted length is its length. *)
Definition value_tracked (d : Decoder) : Prop :=
  lastEmittedLength d = length (currentValue d)
  /\ match stage d with
     | Collecting =>
         exists b0 more,
           collectingBuffer d = b0 ++ more /\ body b0 (currentValue d)
     | Complete => True
     | _ => currentValue d = []
     end.

(** What a listener that accumulates deltas observes: every delta is
    non-empty and comes with the accumulated value as [fullValue]; a
    completion carries the accumulated value and nothing follows it. *)
Fixpoint coherent (F acc : jsstring) (ns : list Notification) : Prop :=
  match ns with
  | [] => True
  | OnDelta f delta fullValue :: ns' =>
      f = F /\ delta <> [] /\ fullValue = acc ++ delta
      /\ coherent F fullValue ns'
  | OnComplete f v :: ns' => f = F /\ v = acc /\ ns' = []
  end.

(** The four things one character can make the decoder notify. *)
Inductive step_out (F cur : jsstring)
  : list Notification -> jsstring -> bool -> Prop :=
| out_nothing : step_out F cur [] cur false
| out_delta v : v <> [] -> step_out F cur [OnDelta F v (cur ++ v)] (cur ++ v) false
| out_complete : step_out F cur [OnComplete F cur] cur true
| out_delta_complete v :
    v <> [] ->
    step_out F cur [OnDelta F v (cur ++ v); OnComplete F (cur ++ v)] (cur ++ v) true.

(** An escape that is still waiting for characters. *)
Definition pending_escape (p : jsstring) : Prop :=
  p = [] \/ p = [backslash]
  \/ exists ds, p = backslash :: letter_u :: ds /\ length ds < 4.

End DecoderInvariants.

(** ** What a run of the execute stream sends and writes *)

Module StreamSummary.

Import ExecuteStream PipelineSpec.

(** The payloads written to the client, in order. *)
Fixpoint enqueued (t : list Effect) : list ClientPayload :=
  match t with
  | [] => []
  | Enqueue p :: t' => p :: enqueued t'
  | _ :: t' => enqueued t'
  end.

(** The batches handed to [createMany], in order. *)
Fixpoint bulkWritten (t : list Effect) : list (list PersistedEvent) :=
  match t with
  | [] => []
  | CreateMany data :: t' => data :: bulkWritten t'
  | _ :: t' => bulkWritten t'
  end.

(** The summary writes, in order. *)
Fixpoint summaries (t : list Effect)
  : list (jsstring * option jsstring * Z * Z * Z) :=
  match t with
  | [] => []
  | CommandUpdate id output latency tIn tOut :: t' =>
      (id, output, latency, tIn, tOut) :: summaries t'
  | _ :: t' => summaries t'
  end.

(** What ended the run early, if anything. *)
Definition failure (w : World) : option Thrown :=
  match historyRejects w with
  | Some error => Some error
  | None => producerRaises w
  end.

(** The text of all token events. *)
Fixpoint tokenText (events : list ExecuteEvent) : jsstring :=
  match events with
  | [] => []
  | TokenEvent text :: more => text ++ tokenText more
  | _ :: more => tokenText more
  end.

(** The messages of all stderr events. *)
Fixpoint stderrMessages (events : list ExecuteEvent) : list jsstring :=
  match events with
  | [] => []
  | StderrEvent message :: more => message :: stderrMessages more
  | _ :: more => stderrMessages more
  end.







(** The last payload of a run. *)
Definition terminalPayload (w : World) : ClientPayload :=
  match failure w with
  | Some error => ErrorPayload (errorMessageOf error)
  | None => DonePayload
  end.

(** The loop body on the buffers, for a whole list of events. *)
Definition accumulateAll (events : list ExecuteEvent) (s : Session) : Session :=
  fold_left (fun s event => accumulate event s) events s.

(** The buffers when [finalize] runs, as the code computes them. *)
Definition endState (w : World) : Session :=
  let s := accumulateAll (consumed w) (initialSession w) in
  match failure w with
  | Some error =>
      set_errorBuffer
        (appendErrorText (errorBuffer s) (StringPayload (errorMessageOf error)))
        (set_encounteredError true s)
  | None => s
  end.

(** None of the readings taken in the loop (the third reading onward, one
    for each event) is more than 200 ms past the reading taken for
    [lastFlush]. *)
Definition fast_clock (w : World) : Prop :=
  forall n, 2 <= n < 2 + length (consumed w) ->
            (clock w n - clock w 1 <= 200)%Z.

End StreamSummary.

(** ** The execute agent, [runExecute] of [lib/agents] *)

Module Agents.

Import ExecuteStream PipelineSpec StreamSummary.






(** [s.endsWith('\n')] *)
Definition endsWithNewline (s : jsstring) : bool :=
  match rev s with
  | c :: _ => (c =? 10)%N
  | [] => false
  end.

(** [normalizedOutput] *)
Definition normalizeOutput (rawOutput : jsstring) : jsstring :=
  if length rawOutput =? 0 then [10%N]
  else if endsWithNewline rawOutput then rawOutput
  else rawOutput ++ [10%N].






End Agents.

(** ** The suggestion route: configuration values and the client's view *)

Module GenerateDetails.

Import GenerateStream GenerateSpec.

(** [sanitizeConfigValue]; a missing value is [undefined]. *)
Definition sanitizeConfigValue (value : option jsstring) (fallback : jsstring)
  : jsstring :=
  match value with
  | None => fallback
  | Some v =>
      if negb (truthy v) then fallback
      else
        let trimmed := trim v in
        if 0 <? length trimmed then trimmed else fallback
  end.

(** A string of whitespace only. *)
Definition blank (s : jsstring) : bool := forallb is_js_whitespace s.

Fixpoint jsstring_eqb (a b : jsstring) : bool :=
  match a, b with
  | [], [] => true
  | x :: a', y :: b' => char_eqb x y && jsstring_eqb a' b'
  | _, _ => false
  end.

(** The text a client assembles for a field by appending the deltas it
    receives for that field. *)
Fixpoint textOf (name : jsstring) (es : list ClientEvent) : jsstring :=
  match es with
  | [] => []
  | DeltaEvent field text :: es' =>
      if jsstring_eqb field name then text ++ textOf name es'
      else textOf name es'
  | _ :: es' => textOf name es'
  end.

End GenerateDetails.

(** ** The terminal component, [Shell]
    The component state is the tuple of its [useState] cells; every
    [setX] call is applied in program order.  The [timestamp] of a line
    ([new Date()]) is left out. *)

Module Shell.

Import ExecuteStream PipelineSpec StreamSummary.

Inductive LineType := InputLine | OutputLine | ErrorLine.

Record TerminalLine := mkLine {
  lineType : LineType;
  content : jsstring
}.

Record InitialCommand := mkInitial {
  ic_input : jsstring;
  ic_output : option jsstring          (* [string | null] *)
}.

Record ShellState := mkShell {
  lines : list TerminalLine;
  currentInput : option jsstring;      (* [None]: [undefined] *)
  history : list jsstring;
  historyIndex : Z;
  isExecuting : bool;
  streamOpen : bool                    (* the [EventSource] is open *)
}.

Definition set_lines (v : list TerminalLine) (st : ShellState) : ShellState :=
  mkShell v (currentInput st) (history st) (historyIndex st)
          (isExecuting st) (streamOpen st).
Definition set_currentInput (v : option jsstring) (st : ShellState)
  : ShellState :=
  mkShell (lines st) v (history st) (historyIndex st)
          (isExecuting st) (streamOpen st).
Definition set_history (v : list jsstring) (st : ShellState) : ShellState :=
  mkShell (lines st) (currentInput st) v (historyIndex st)
          (isExecuting st) (streamOpen st).
Definition set_historyIndex (v : Z) (st : ShellState) : ShellState :=
  mkShell (lines st) (currentInput st) (history st) v
          (isExecuting st) (streamOpen st).
Definition set_isExecuting (v : bool) (st : ShellState) : ShellState :=
  mkShell (lines st) (currentInput st) (history st) (historyIndex st)
          v (streamOpen st).
Definition set_streamOpen (v : bool) (st : ShellState) : ShellState :=
  mkShell (lines st) (currentInput st) (history st) (historyIndex st)
          (isExecuting st) v.

(** [buildPrompt] *)
Definition prompt : jsstring := js "$ ".

(** The initialiser of [lines]. *)
Fixpoint initialLines (initialCommands : list InitialCommand)
  : list TerminalLine :=
  match initialCommands with
  | [] => []
  | cmd :: more =>
      mkLine InputLine (prompt ++ ic_input cmd)
      :: match ic_output cmd with
         | Some output =>
             if truthy output then [mkLine OutputLine output] else []
         | None => []
         end
      ++ initialLines more
  end.

Definition initialShell (initialCommands : list InitialCommand) : ShellState :=
  mkShell (initialLines initialCommands) (Some [])
          (map ic_input initialCommands) (-1) false false.

(** [array[i]]: [undefined] out of range. *)
Definition at_index (l : list jsstring) (i : Z) : option jsstring :=
  if (i <? 0)%Z then None else nth_error l (Z.to_nat i).

(** What [onmessage] inspects of [JSON.parse(event.data)]: the [kind]
    and the fields of [data] it reads, where they are strings. *)
Inductive Message :=
| TokenMessage (text : option jsstring)
| StderrMessage (text message : option jsstring)
| DoneMessage
| ErrorMessage (message : jsstring)
| OtherMessage.

(** The updater of the [token] branch. *)
Definition appendToken (prev : list TerminalLine) (text : jsstring)
  : list TerminalLine :=
  match rev prev with
  | last :: _ =>
      match lineType last with
      | OutputLine =>
          removelast prev ++ [mkLine OutputLine (content last ++ text)]
      | _ => prev ++ [mkLine OutputLine text]
      end
  | [] => prev ++ [mkLine OutputLine text]
  end.

(** [eventSource.onmessage] *)
Definition onmessage (st : ShellState) (data : Message) : ShellState :=
  match data with
  | TokenMessage text =>
      set_lines
        (appendToken (lines st)
           (match text with Some t => or_else t [] | None => [] end)) st
  | StderrMessage text message =>
      let errorText :=
        match text, message with
        | Some t, _ => t
        | None, Some m => m
        | None, None => js "An error occurred while running the command."
        end in
      set_lines (lines st ++ [mkLine ErrorLine errorText]) st
  | DoneMessage => set_isExecuting false (set_streamOpen false st)
  | ErrorMessage message =>
      set_isExecuting false
        (set_streamOpen false
           (set_lines (lines st ++ [mkLine ErrorLine (js "Error: " ++ message)])
                      st))
  | OtherMessage => st
  end.

(** Messages are dispatched while the [EventSource] is open; one stream
    at a time is considered. *)
Definition deliver (st : ShellState) (messages : list Message) : ShellState :=
  fold_left (fun st data => if streamOpen st then onmessage st data else st)
            messages st.

(** What the client parses from what the server stringified. *)
Definition received (p : ClientPayload) : Message :=
  match p with
  | EventPayload (TokenEvent text) => TokenMessage (Some text)
  | EventPayload (StderrEvent message) => StderrMessage None (Some message)
  | EventPayload (StatusEvent _ _ _ _) => OtherMessage
  | DonePayload => DoneMessage
  | ErrorPayload message => ErrorMessage message
  end.

(** What [onCommandSubmit] does, when the parent passed one. *)
Inductive Submission :=
| NoCallback
| Submitted (commandId : option jsstring)
| SubmitThrows (error : Thrown).

(** [executeCommand] up to the point where the stream is opened.
    [command.trim()] on [undefined] throws before any state changes. *)
Definition executeCommand (st : ShellState) (command : option jsstring)
           (submission : Submission) : ShellState :=
  match command with
  | None => st
  | Some command =>
      if negb (truthy (trim command)) then st
      else
        let st1 :=
          mkShell (lines st ++ [mkLine InputLine (prompt ++ command)])
                  (Some []) (history st ++ [command]) (-1) true
                  (streamOpen st) in
        match submission with
        | SubmitThrows error =>
            let message :=
              match error with
              | ErrorObject m => m
              | OtherValue => js "Failed to submit command"
              end in
            set_isExecuting false
              (set_lines
                 (lines st1
                  ++ [mkLine ErrorLine
                        (js "Command could not be submitted: " ++ message)])
                 st1)
        | _ => set_streamOpen true st1
        end
  end.

Inductive KeyName := KeyEnter | KeyArrowUp | KeyArrowDown | KeyChar (c : char)
                   | KeyOther.

Record KeyboardEvent := mkKey {
  key : KeyName;
  shiftKey : bool;
  ctrlKey : bool
}.

Definition is_char (k : KeyName) (c : char) : bool :=
  match k with KeyChar c' => (c' =? c)%N | _ => false end.

(** [handleKeyDown]; [Enter] runs [executeCommand(currentInput)] with the
    given outcome of [onCommandSubmit]. *)
Definition handleKeyDown (submission : Submission) (st : ShellState)
           (e : KeyboardEvent) : ShellState :=
  match key e with
  | KeyEnter =>
      if negb (shiftKey e) then
        if negb (isExecuting st)
        then executeCommand st (currentInput st) submission
        else st
      else st
  | KeyArrowUp =>
      if 0 <? length (history st) then
        let newIndex :=
          if (historyIndex st =? -1)%Z
          then (Z.of_nat (length (history st)) - 1)%Z
          else Z.max 0 (historyIndex st - 1) in
        set_currentInput (at_index (history st) newIndex)
                         (set_historyIndex newIndex st)
      else st
  | KeyArrowDown =>
      if negb (historyIndex st =? -1)%Z then
        let newIndex := (historyIndex st + 1)%Z in
        if (Z.of_nat (length (history st)) <=? newIndex)%Z
        then set_currentInput (Some []) (set_historyIndex (-1) st)
        else set_currentInput (at_index (history st) newIndex)
                              (set_historyIndex newIndex st)
      else st
  | _ =>
      if ctrlKey e && is_char (key e) 108%N then set_lines [] st
      else if ctrlKey e && is_char (key e) 99%N
      then set_currentInput (Some []) (set_isExecuting false st)
      else st
  end.

(** What can happen to the component. *)
Inductive Action :=
| KeyDown (e : KeyboardEvent) (submission : Submission)
| Change (value : jsstring)                     (* [onChange] *)
| Execute (command : jsstring) (submission : Submission)
                                                (* the imperative handle *)
| SetInputValue (value : jsstring)              (* the imperative handle *)
| Incoming (data : Message).

Definition act (st : ShellState) (a : Action) : ShellState :=
  match a with
  | KeyDown e submission => handleKeyDown submission st e
  | Change value => set_currentInput (Some value) st
  | Execute command submission => executeCommand st (Some command) submission
  | SetInputValue value =>
      set_currentInput (Some value) (set_historyIndex (-1) st)
  | Incoming data => if streamOpen st then onmessage st data else st
  end.

Definition after (st : ShellState) (actions : list Action) : ShellState :=
  fold_left act actions st.

(** Vocabulary for the statements. *)

(** The history index is at rest or points at an entry, and the input
    is a string. *)
Definition well_indexed (st : ShellState) : Prop :=
  (historyIndex st = (-1)%Z
   \/ (0 <= historyIndex st < Z.of_nat (length (history st)))%Z)
  /\ currentInput st <> None.

Fixpoint outputText (ls : list TerminalLine) : jsstring :=
  match ls with
  | [] => []
  | l :: more =>
      match lineType l with
      | OutputLine => content l ++ outputText more
      | _ => outputText more
      end
  end.

Fixpoint errorTexts (ls : list TerminalLine) : list jsstring :=
  match ls with
  | [] => []
  | l :: more =>
      match lineType l with
      | ErrorLine => content l :: errorTexts more
      | _ => errorTexts more
      end
  end.

Definition up : KeyboardEvent := mkKey KeyArrowUp false false.

End Shell.

(** ** The suggestion panel, [Sidebar]: [readEventStream] and
    [handleGenerate]
    The body of the response is the list of texts the [TextDecoder]
    returns for the chunks read, followed by the text of its final
    flush. *)

Module Sidebar.

Import GenerateStream GenerateSpec GenerateDetails.

Definition LF : char := 10%N.
Definition CR : char := 13%N.

(** [encodeEvent] of the routes, on the text [JSON.stringify] returned. *)
Definition encodeEvent (json : jsstring) : jsstring :=
  js "data: " ++ json ++ [LF; LF].

(** [s.indexOf(needle)]; [None] is -1. *)
Fixpoint indexOf (needle s : jsstring) : option nat :=
  if prefixb needle s then Some 0
  else match s with
       | [] => None
       | _ :: s' => option_map S (indexOf needle s')
       end.

(** [s.split(sep)] for a one-character separator. *)
Fixpoint split (sep : char) (s : jsstring) : list jsstring :=
  match s with
  | [] => [[]]
  | c :: s' =>
      if char_eqb c sep then [] :: split sep s'
      else match split sep s' with
           | line :: more => (c :: line) :: more
           | [] => [[c]]
           end
  end.

Section Reader.

(** [JSON.parse] ([None]: it throws) and the listener, which returns the
    new state of its caller and whether it threw. *)
Variable Event : Type.
Variable State : Type.
Variable parse : jsstring -> option Event.
Variable onEvent : State -> Event -> State * bool.

(** The state of the listener's owner and the payloads logged by
    [console.error('Failed to parse stream payload', ...)]. *)
Definition Client : Type := State * list jsstring.

(** The [try]/[catch] around [onEvent(JSON.parse(payload))]. *)
Definition dispatch (c : Client) (payload : jsstring) : Client :=
  let '(st, log) := c in
  match parse payload with
  | None => (st, log ++ [payload])
  | Some event =>
      let '(st', threw) := onEvent st event in
      if threw then (st', log ++ [payload]) else (st', log)
  end.

(** The body of the [while] loop for one raw event. *)
Definition processRawEvent (c : Client) (rawEvent : jsstring) : Client :=
  let dataLine :=
    find (prefixb (js "data:")) (map trim (split LF rawEvent)) in
  match dataLine with
  | Some dataLine =>
      if truthy dataLine then
        let payload := trim (skipn 5 dataLine) in
        if 0 <? length payload then dispatch c payload else c
      else c
  | None => c
  end.

(** [buffer.slice(0, boundary).replace(/\r/g, '')] *)
Definition rawEventOf (boundary : nat) (buffer : jsstring) : jsstring :=
  filter (fun ch => negb (char_eqb ch CR)) (firstn boundary buffer).

(** The [while (boundary !== -1)] loop; every turn removes at least two
    characters from the buffer. *)
Fixpoint processBufferLoop (fuel : nat) (buffer : jsstring) (c : Client)
  : jsstring * Client :=
  match fuel with
  | 0 => (buffer, c)
  | S fuel' =>
      match indexOf [LF; LF] buffer with
      | None => (buffer, c)
      | Some boundary =>
          let rawEvent := rawEventOf boundary buffer in
          processBufferLoop fuel' (skipn (boundary + 2) buffer)
                            (processRawEvent c rawEvent)
      end
  end.

Definition processBuffer (buffer : jsstring) (c : Client)
  : jsstring * Client :=
  processBufferLoop (length buffer) buffer c.

(** The [while (true)] loop over [reader.read()]. *)
Fixpoint readLoop (chunks : list jsstring) (flushed : jsstring)
         (buffer : jsstring) (c : Client) : jsstring * Client :=
  match chunks with
  | [] => processBuffer (buffer ++ flushed) c
  | value :: more =>
      let '(buffer', c') := processBuffer (buffer ++ value) c in
      readLoop more flushed buffer' c'
  end.

Definition readEventStream (chunks : list jsstring) (flushed : jsstring)
           (st : State) : Client :=
  snd (readLoop chunks flushed [] (st, [])).

End Reader.

Arguments dispatch {Event State}.
Arguments processRawEvent {Event State}.
Arguments processBufferLoop {Event State}.
Arguments processBuffer {Event State}.
Arguments readLoop {Event State}.
Arguments readEventStream {Event State}.

(** What the listeners inspect of a parsed event: its [kind] and the
    fields of [data] they read, where these are strings. *)
Inductive StreamEvent :=
| DeltaParsed (field text : option jsstring)
| ResultParsed (command explanation : option jsstring)
| ErrorParsed (message : option jsstring)
| OtherParsed.

Record Suggestion := mkSuggestion {
  s_command : jsstring;
  s_explanation : jsstring
}.

(** The listener of [handleGenerate] on the [suggestion] state
    ([None]: [null]). *)
Definition generateListener (prev : option Suggestion) (event : StreamEvent)
  : option Suggestion * bool :=
  match event with
  | DeltaParsed field text =>
      let text := match text with Some t => t | None => [] end in
      match field with
      | Some field =>
          if negb (truthy field) || negb (truthy text) then (prev, false)
          else
            let next := match prev with
                        | Some s => s
                        | None => mkSuggestion [] []
                        end in
            if jsstring_eqb field (js "command")
            then (Some (mkSuggestion (s_command next ++ text)
                                     (s_explanation next)), false)
            else if jsstring_eqb field (js "explanation")
            then (Some (mkSuggestion (s_command next)
                                     (s_explanation next ++ text)), false)
            else (Some next, false)
      | None => (prev, false)
      end
  | ResultParsed command explanation =>
      (Some (mkSuggestion
               (match command with Some c => c | None => [] end)
               (match explanation with Some e => e | None => [] end)),
       false)
  | ErrorParsed _ => (prev, true)
  | OtherParsed => (prev, false)
  end.

(** [handleGenerate] once the response is there and while its body can be
    read: [setSuggestion(null)], then the stream. *)
Definition handleGenerate (parse : jsstring -> option StreamEvent)
           (chunks : list jsstring) (flushed : jsstring)
  : option Suggestion * list jsstring :=
  readEventStream parse generateListener chunks flushed None.

(** What [JSON.parse] yields for what the route stringified. *)
Definition parsed (e : ClientEvent) : StreamEvent :=
  match e with
  | DeltaEvent field text => DeltaParsed (Some field) (Some text)
  | ResultEvent data =>
      ResultParsed (Some (fp_command data)) (Some (fp_explanation data))
  | ErrorEvent message => ErrorParsed (Some message)
  | DoneEvent => OtherParsed
  | CloseStream => OtherParsed
  end.

(** The payloads enqueued before the stream is closed. *)
Fixpoint enqueuedEvents (es : list ClientEvent) : list ClientEvent :=
  match es with
  | [] => []
  | CloseStream :: _ => []
  | e :: es' => e :: enqueuedEvents es'
  end.

(** Vocabulary for the statements. *)

(** A text that survives the framing: not empty, no line feed and no
    carriage return in it, no whitespace at either end.  The JSON text of
    an object is of this kind. *)
Definition framable (p : jsstring) : bool :=
  forallb (fun ch => negb (char_eqb ch LF) && negb (char_eqb ch CR)) p
  && negb (is_js_whitespace (hd 32%N p))
  && negb (is_js_whitespace (last p 32%N)).

(** The text on the wire for a list of JSON texts. *)
Definition framed (payloads : list jsstring) : jsstring :=
  concat (map encodeEvent payloads).

(** [JSON.stringify] and [JSON.parse] agree on an event. *)
Definition faithful (stringify : ClientEvent -> jsstring)
           (parse : jsstring -> option StreamEvent) (e : ClientEvent) : Prop :=
  framable (stringify e) = true /\ parse (stringify e) = Some (parsed e).

(** The listener applied to a run of events. *)
Definition listenAll (prev : option Suggestion) (es : list ClientEvent)
  : option Suggestion :=
  fold_left (fun prev e => fst (generateListener prev (parsed e))) es prev.

(** The text the panel shows for a field. *)
Definition shownCommand (s : option Suggestion) : jsstring :=
  match s with Some s => s_command s | None => [] end.
Definition shownExplanation (s : option Suggestion) : jsstring :=
  match s with Some s => s_explanation s | None => [] end.

(** The run ends with an error event carrying [message]. *)
Definition failed (r : Run) (message : jsstring) : Prop :=
  historyRejects r = Some message
  \/ (historyRejects r = None /\ outcome r = inr message).

Definition is_error (e : ClientEvent) : bool :=
  match e with ErrorEvent _ => true | _ => false end.

(** A stringifier and a parser for the events of one small run, used
    to show that the assumptions on the wire can be met. *)
Definition sampleResult : FinalPayload :=
  mkPayload (js "w") (js "shows who is logged on") 3 4 5.

Definition sampleStringify (e : ClientEvent) : jsstring :=
  match e with
  | DeltaEvent _ _ =>
      jsq "{'kind':'delta','data':{'field':'command','text':'w'}}"
  | ResultEvent _ => jsq "{'kind':'result'}"
  | DoneEvent => jsq "{'kind':'done'}"
  | ErrorEvent _ => jsq "{'kind':'error','data':{'message':'quota'}}"
  | CloseStream => []
  end.

Definition sampleParse (p : jsstring) : option StreamEvent :=
  if jsstring_eqb p (jsq "{'kind':'delta','data':{'field':'command','text':'w'}}")
  then Some (DeltaParsed (Some (js "command")) (Some (js "w")))
  else if jsstring_eqb p (jsq "{'kind':'result'}")
  then Some (parsed (ResultEvent sampleResult))
  else if jsstring_eqb p (jsq "{'kind':'error','data':{'message':'quota'}}")
  then Some (ErrorParsed (Some (js "quota")))
  else if jsstring_eqb p (jsq "{'kind':'done'}")
  then Some OtherParsed
  else None.

End Sidebar.

(** ** Command records: [ensureCommandRecord], the stream route's guard
    and the [runCommand] mutation
    The two tables the code touches are lists of rows.  What the database
    generates for a new row, its id and its creation time, is an argument
    of the operation that creates it. *)

Module CommandRecords.

Import GenerateDetails.

Record Command := mkCommand {
  c_id : jsstring;
  c_sessionId : jsstring;
  c_input : jsstring;
  c_output : option jsstring;
  c_createdAt : Z
}.

Record TerminalSession := mkTerminalSession {
  ts_id : jsstring;
  ts_userId : jsstring
}.

Record Database := mkDatabase {
  terminalSessions : list TerminalSession;
  commands : list Command
}.

(** [findFirst({ where })] *)
Definition findFirst {A : Type} (where_ : A -> bool) (rows : list A)
  : option A :=
  find where_ rows.

(** [findFirst({ where, orderBy: { createdAt: 'desc' } })]; among rows
    created at the same time the earlier row of the table is taken. *)
Fixpoint newest (best : option Command) (rows : list Command)
  : option Command :=
  match rows with
  | [] => best
  | row :: more =>
      newest (match best with
              | None => Some row
              | Some b =>
                  if (c_createdAt b <? c_createdAt row)%Z
                  then Some row else Some b
              end) more
  end.

Definition findNewest (where_ : Command -> bool) (rows : list Command)
  : option Command :=
  newest None (filter where_ rows).

(** [prisma.command.create({ data: { sessionId, input } })] *)
Definition createCommand (db : Database) (sessionId input newId : jsstring)
           (now : Z) : Database * Command :=
  let row := mkCommand newId sessionId input None now in
  (mkDatabase (terminalSessions db) (commands db ++ [row]), row).

Definition byId (commandId sessionId : jsstring) (c : Command) : bool :=
  jsstring_eqb (c_id c) commandId && jsstring_eqb (c_sessionId c) sessionId.

Definition byInput (sessionId input : jsstring) (c : Command) : bool :=
  jsstring_eqb (c_sessionId c) sessionId && jsstring_eqb (c_input c) input.

(** [ensureCommandRecord]; [commandId] may be [null] or missing. *)
Definition ensureCommandRecord (db : Database) (sessionId input : jsstring)
           (commandId : option jsstring) (newId : jsstring) (now : Z)
  : Database * Command :=
  let existingById :=
    match commandId with
    | Some commandId =>
        if truthy commandId
        then findFirst (byId commandId sessionId) (commands db)
        else None
    | None => None
    end in
  match existingById with
  | Some existing => (db, existing)
  | None =>
      match findNewest (byInput sessionId input) (commands db) with
      | Some existing => (db, existing)
      | None => createCommand db sessionId input newId now
      end
  end.

Definition ownedBy (sessionId userId : jsstring) (s : TerminalSession) : bool :=
  jsstring_eqb (ts_id s) sessionId && jsstring_eqb (ts_userId s) userId.

Inductive Response :=
| BadRequest                       (* 400 *)
| NotFound                         (* 404 *)
| InternalServerError              (* 500 *)
| Streaming (session : TerminalSession) (command : Command) (db : Database).

(** [GET] and [POST] of the terminal stream route up to the response:
    [auth] is what [requireAuth] resolves to ([None]: it throws), the
    parameters are as read from the query or the body. *)
Definition streamRoute (db : Database) (auth : option jsstring)
           (sessionId input commandId : option jsstring)
           (newId : jsstring) (now : Z) : Response :=
  match auth with
  | None => InternalServerError
  | Some userId =>
      match sessionId, input with
      | Some sessionId, Some input =>
          if negb (truthy sessionId) || negb (truthy input) then BadRequest
          else
            match findFirst (ownedBy sessionId userId) (terminalSessions db) with
            | None => NotFound
            | Some session =>
                let '(db', command) :=
                  ensureCommandRecord db sessionId input commandId newId now in
                Streaming session command db'
            end
      | _, _ => BadRequest
      end
  end.

(** The [runCommand] mutation; [None]: it throws. *)
Definition runCommand (db : Database) (auth : option jsstring)
           (sessionId input newId : jsstring) (now : Z)
  : option (Database * Command) :=
  match auth with
  | None => None
  | Some userId =>
      match findFirst (ownedBy sessionId userId) (terminalSessions db) with
      | None => None
      | Some _ => Some (createCommand db sessionId input newId now)
      end
  end.

(** Vocabulary for the statements. *)

Definition fresh_id (db : Database) (newId : jsstring) : Prop :=
  forall c, In c (commands db) -> c_id c <> newId.

End CommandRecords.

(* ================================================================== *)
(** * Part II.  Properties                                             *)
(* ================================================================== *)

Module DecoderFacts.

Import DecoderSpec.

(** ** Chunk boundaries do not matter *)

Lemma processLoop_complete d chunk :
  stage d = Complete -> processLoop d chunk = (d, []).
Proof. intros H. destruct chunk; simpl; [|rewrite H]; reflexivity. Qed.

Lemma processChunk_is_loop d chunk : processChunk d chunk = processLoop d chunk.
Proof.
  unfold processChunk. destruct (stage_eqb (stage d) Complete) eqn:E; auto.
  symmetry. apply processLoop_complete. destruct (stage d); simpl in E; congruence.
Qed.

Lemma processLoop_app a : forall d b,
  processLoop d (a ++ b) =
  let '(d1, n1) := processLoop d a in
  let '(d2, n2) := processLoop d1 b in (d2, n1 ++ n2).
Proof.
  induction a as [|c a IH]; intros d b; simpl.
  - destruct (processLoop d b); reflexivity.
  - destruct (stage_eqb (stage d) Complete) eqn:E.
    + rewrite processLoop_complete; auto. destruct (stage d); simpl in E; congruence.
    + destruct (processChar d c) as [d1 n1]. rewrite IH.
      destruct (processLoop d1 a) as [d2 n2].
      destruct (processLoop d2 b) as [d3 n3]. now rewrite app_assoc.
Qed.

Lemma feed_concat chunks : forall d,
  feed d chunks = processLoop d (concat chunks).
Proof.
  induction chunks as [|c cs IH]; intros d; simpl; auto.
  rewrite processChunk_is_loop, processLoop_app.
  destruct (processLoop d c) as [d1 n1]. now rewrite IH.
Qed.

(** C7.  Once the stage is [Complete], every later [processChunk] call
    returns the decoder as it was, field by field, and notifies nobody;
    the same holds for any sequence of calls.  The functions are total, so
    nothing is thrown. *)
Theorem complete_is_absorbing d :
  stage d = Complete ->
  (forall chunk, processChunk d chunk = (d, []))
  /\ (forall chunks, feed d chunks = (d, [])).
Proof.
  intros H. split.
  - intros chunk. unfold processChunk. now rewrite H.
  - intros chunks. rewrite feed_concat. now apply processLoop_complete.
Qed.

Lemma complete_is_absorbing_witness :
  let d := mkDecoder (js "x") Complete 0 [] false 0 1 (js "a") in
  stage d = Complete
  /\ processChunk d (jsq "'x':'b'") = (d, [])
  /\ feed d [jsq "'x'"; jsq ":'b'"] = (d, []).
Proof.
  intro d.
  destruct (complete_is_absorbing d eq_refl) as [H1 H2].
  split; [reflexivity|]. split; [apply H1|apply H2].
Defined.

(** ** Substrings and the key pattern *)

Lemma char_eqb_eq a b : char_eqb a b = true <-> a = b.
Proof. apply N.eqb_eq. Qed.

Lemma index_is_true s i c : index_is s i c = true <-> nth_error s i = Some c.
Proof.
  unfold index_is. destruct (nth_error s i) as [e|].
  - rewrite char_eqb_eq. split; congruence.
  - split; discriminate.
Qed.

Lemma firstn_snoc_nth (l : jsstring) : forall k c,
  nth_error l k = Some c -> firstn (S k) l = firstn k l ++ [c].
Proof.
  induction l as [|x l IH]; intros [|k] c H; simpl in *; try discriminate.
  - congruence.
  - f_equal. now apply IH.
Qed.

Lemma prefixb_app p : forall b, prefixb p (p ++ b) = true.
Proof.
  induction p as [|x p IH]; intros b; simpl; auto.
  rewrite IH. unfold char_eqb. now rewrite N.eqb_refl.
Qed.

Lemma prefixb_weaken p : forall t x, prefixb p t = true -> prefixb p (t ++ x) = true.
Proof.
  induction p as [|a p IH]; intros [|b t] x H; simpl in *; auto; try discriminate.
  apply andb_true_iff in H as [H1 H2]. rewrite H1. simpl. now apply IH.
Qed.

Lemma occursb_weaken p t : forall x, occursb p t = true -> occursb p (t ++ x) = true.
Proof.
  induction t as [|b t IH]; intros x H.
  - simpl in H. rewrite orb_false_r in H. destruct p; [|discriminate].
    destruct x; reflexivity.
  - simpl in H. apply orb_true_iff in H as [H|H].
    + change ((b :: t) ++ x) with (b :: (t ++ x)).
      assert (E: prefixb p (b :: t ++ x) = true)
        by (apply (prefixb_weaken p (b :: t) x H)).
      simpl. simpl in E. destruct p; auto. rewrite E. reflexivity.
    + change ((b :: t) ++ x) with (b :: (t ++ x)). simpl occursb.
      rewrite (IH x H). apply orb_true_r.
Qed.

Lemma occursb_at a : forall p b, occursb p (a ++ p ++ b) = true.
Proof.
  induction a as [|x a IH]; intros p b.
  - simpl. destruct (p ++ b) eqn:E; simpl.
    + destruct p; [reflexivity|discriminate].
    + rewrite <- E. now rewrite prefixb_app.
  - simpl. rewrite IH. apply orb_true_r.
Qed.

(** [occursb] decides the occurrence of a substring. *)
Lemma occursb_spec p l :
  occursb p l = true <-> exists a b, l = a ++ p ++ b.
Proof.
  split.
  - induction l as [|x l IH]; simpl.
    + rewrite orb_false_r. destruct p; [|discriminate].
      intros _. now exists [], [].
    + intros H. apply orb_true_iff in H as [H|H].
      * assert (P: forall (q m : jsstring), prefixb q m = true -> exists b, m = q ++ b).
        { induction q as [|y q IHq]; intros [|z m] Hq; simpl in *; try discriminate.
          - now exists []. - now exists (z :: m).
          - apply andb_true_iff in Hq as [E Hq]. apply char_eqb_eq in E. subst.
            destruct (IHq _ Hq) as [b ->]. now exists b. }
        destruct (P p (x :: l) H) as [b Hb]. exists [], b. exact Hb.
      * destruct (IH H) as (a & b & ->). now exists (x :: a), b.
  - intros (a & b & ->). apply occursb_at.
Qed.

Section Search.
Variable F : jsstring.
Hypothesis HF : quote_free F = true.
Local Notation "'pat'" := (keyPatternOf F).

Lemma pat_length : length pat = S (S (length F)).
Proof. unfold keyPatternOf. simpl. rewrite length_app. simpl. lia. Qed.

Lemma pat_nth_0 : nth_error pat 0 = Some quote.
Proof. reflexivity. Qed.

Lemma pat_nth_S j : nth_error pat (S j) = nth_error (F ++ [quote]) j.
Proof. reflexivity. Qed.

Lemma pat_nth_inner j c :
  nth_error F j = Some c -> nth_error pat (S j) = Some c /\ c <> quote.
Proof.
  intros H. split.
  - rewrite pat_nth_S. rewrite nth_error_app1; auto.
    apply nth_error_Some. congruence.
  - intros ->. apply nth_error_In in H.
    unfold quote_free in HF. rewrite forallb_forall in HF.
    specialize (HF _ H). unfold char_eqb in HF. now rewrite N.eqb_refl in HF.
Qed.

Lemma pat_nth_last : nth_error pat (S (length F)) = Some quote.
Proof.
  rewrite pat_nth_S, nth_error_app2 by lia. now rewrite Nat.sub_diag.
Qed.

Lemma pat_quote_positions k :
  nth_error pat k = Some quote -> k = 0 \/ k = S (length F).
Proof.
  destruct k as [|j]; auto. intros H. right. f_equal.
  rewrite pat_nth_S in H.
  destruct (Nat.lt_ge_cases j (length F)) as [L|L].
  - rewrite nth_error_app1 in H by auto.
    apply (pat_nth_inner j) in H as [_ H]. congruence.
  - assert (j < length (F ++ [quote])) by (apply nth_error_Some; congruence).
    rewrite length_app in *. simpl in *. lia.
Qed.

Lemma step_match k c :
  nth_error pat k = Some c ->
  processChar (searching F k) c =
  (if S k =? length pat then set_search (newDecoder F) AfterKey 0
   else searching F (S k), []).
Proof.
  intros H. unfold processChar, processKeyChar. simpl.
  change (keyPattern (searching F k)) with pat.
  apply index_is_true in H. rewrite H.
  destruct (S k =? length pat); reflexivity.
Qed.

Lemma step_mismatch k c :
  index_is pat k c = false ->
  processChar (searching F k) c =
  (searching F (if char_eqb c quote then 1 else 0), []).
Proof.
  intros H. unfold processChar, processKeyChar. simpl.
  change (keyPattern (searching F k)) with pat. rewrite H.
  reflexivity.
Qed.

Lemma loop_searching k c rest :
  processLoop (searching F k) (c :: rest) =
  let '(d1, ns1) := processChar (searching F k) c in
  let '(d2, ns2) := processLoop d1 rest in (d2, ns1 ++ ns2).
Proof. reflexivity. Qed.

(** Feeding the rest of the pattern from a partial match completes it. *)
Lemma search_completes s : forall k,
  skipn k pat = s -> s <> [] ->
  processLoop (searching F k) s = (set_search (newDecoder F) AfterKey 0, []).
Proof.
  induction s as [|c s IH]; intros k Hs Hne; [congruence|].
  assert (Hn: nth_error pat k = Some c).
  { rewrite <- (firstn_skipn k pat) at 1. rewrite Hs.
    assert (L: k <= length pat).
    { destruct (Nat.le_gt_cases k (length pat)); auto.
      rewrite skipn_all2 in Hs by lia. discriminate. }
    rewrite nth_error_app2; rewrite length_firstn, Nat.min_l by lia; try lia.
    now rewrite Nat.sub_diag. }
  assert (Hs': skipn (S k) pat = s).
  { replace (S k) with (1 + k) by lia. rewrite <- skipn_skipn, Hs. reflexivity. }
  rewrite loop_searching, (step_match k c Hn).
  destruct (S k =? length pat) eqn:E.
  - apply Nat.eqb_eq in E. rewrite E, skipn_all in Hs'. subst s. reflexivity.
  - apply Nat.eqb_neq in E. destruct s as [|c' s'].
    + exfalso. apply E.
      assert (length (skipn (S k) pat) = 0) by now rewrite Hs'.
      rewrite length_skipn in H.
      assert (k < length pat) by (apply nth_error_Some; congruence). lia.
    + rewrite (IH (S k) Hs') by discriminate. reflexivity.
Qed.

(** Feeding a proper prefix of the pattern yields a partial match. *)
Lemma search_prefix m : forall k,
  k + m < length pat ->
  processLoop (searching F k) (firstn m (skipn k pat)) = (searching F (k + m), []).
Proof.
  induction m as [|m IH]; intros k L.
  - simpl. now rewrite Nat.add_0_r.
  - destruct (skipn k pat) as [|c s] eqn:Hs.
    + assert (length (skipn k pat) = 0) by now rewrite Hs.
      rewrite length_skipn in H. lia.
    + assert (Hn: nth_error pat k = Some c).
      { rewrite <- (firstn_skipn k pat) at 1. rewrite Hs.
        rewrite nth_error_app2; rewrite length_firstn, Nat.min_l by lia; try lia.
        now rewrite Nat.sub_diag. }
      assert (Hs': skipn (S k) pat = s).
      { replace (S k) with (1 + k) by lia. rewrite <- skipn_skipn, Hs. reflexivity. }
      simpl firstn. rewrite loop_searching, (step_match k c Hn).
      destruct (S k =? length pat) eqn:E; [apply Nat.eqb_eq in E; lia|].
      rewrite <- Hs', IH by lia. now rewrite Nat.add_succ_r.
Qed.

Lemma search_invariant t :
  occursb pat t = false ->
  exists k, processLoop (newDecoder F) t = (searching F k, []) /\ search_inv F t k.
Proof.
  induction t as [|c t IH] using rev_ind; intros Hocc.
  - exists 0. split; [reflexivity|]. repeat split.
    + rewrite pat_length. lia.
    + now exists [].
    + intros a s H. destruct a; discriminate.
  - assert (Hocc': occursb pat t = false).
    { destruct (occursb pat t) eqn:E; auto.
      now rewrite (occursb_weaken pat t [c] E) in Hocc. }
    destruct (IH Hocc') as (k & Hrun & Hk & (a0 & Ha0) & Hmax).
    rewrite processLoop_app, Hrun.
    rewrite loop_searching.
    destruct (index_is pat k c) eqn:Hidx.
    + apply index_is_true in Hidx. rewrite (step_match k c Hidx).
      destruct (S k =? length pat) eqn:E.
      * exfalso. apply Nat.eqb_eq in E.
        assert (t ++ [c] = a0 ++ pat ++ []).
        { rewrite Ha0, <- app_assoc, <- (firstn_snoc_nth pat k c Hidx), E, firstn_all.
          now rewrite app_nil_r. }
        rewrite H, occursb_at in Hocc. discriminate.
      * apply Nat.eqb_neq in E. exists (S k). split; [reflexivity|].
        repeat split.
        -- lia.
        -- exists a0. now rewrite Ha0, <- app_assoc, <- (firstn_snoc_nth pat k c Hidx).
        -- intros a s Hs Hp. f_equal.
           destruct s as [|c0 s0 _] using rev_ind.
           ++ apply app_inj_tail in Hs as [_ ->].
              destruct (pat_quote_positions k Hidx) as [->| ->]; auto.
              rewrite pat_length in E. lia.
           ++ rewrite app_comm_cons, app_assoc in Hs.
              apply app_inj_tail in Hs as [Ht ->].
              rewrite length_app. simpl. rewrite Nat.add_1_r.
              apply (Hmax a s0 Ht).
              destruct Hp as [r Hr]. exists ([c0] ++ r). now rewrite Hr, <- app_assoc.
    + rewrite (step_mismatch k c Hidx).
      eexists. split; [reflexivity|]. repeat split.
      * rewrite pat_length. destruct (char_eqb c quote); lia.
      * destruct (char_eqb c quote) eqn:Ec.
        -- apply char_eqb_eq in Ec. subst c. now exists t.
        -- exists (t ++ [c]). simpl. now rewrite app_nil_r.
      * intros a s Hs Hp.
        destruct s as [|c0 s0 _] using rev_ind.
        -- apply app_inj_tail in Hs as [_ ->].
           unfold char_eqb. now rewrite N.eqb_refl.
        -- exfalso. rewrite app_comm_cons, app_assoc in Hs.
           apply app_inj_tail in Hs as [Ht ->].
           assert (Hp0: is_prefix s0 F).
           { destruct Hp as [r Hr]. exists ([c0] ++ r). now rewrite Hr, <- app_assoc. }
           rewrite (Hmax a s0 Ht Hp0) in Hidx.
           destruct Hp as [r Hr].
           assert (Hn: nth_error F (length s0) = Some c0).
           { rewrite Hr, <- app_assoc. rewrite nth_error_app2 by lia.
             now rewrite Nat.sub_diag. }
           apply pat_nth_inner in Hn as [Hn _].
           apply index_is_true in Hn. congruence.
Qed.

(** The search stops at the first occurrence of the key token. *)
Lemma search_finds_first pre :
  occursb pat (pre ++ quote :: F) = false ->
  processLoop (newDecoder F) (pre ++ pat) =
  (set_search (newDecoder F) AfterKey 0, []).
Proof.
  intros Hocc.
  destruct (search_invariant _ Hocc) as (k & Hrun & _ & _ & Hmax).
  assert (k = S (length F)) as ->.
  { apply (Hmax pre F eq_refl). exists []. now rewrite app_nil_r. }
  replace (pre ++ pat) with ((pre ++ quote :: F) ++ [quote])
    by (unfold keyPatternOf; now rewrite <- app_assoc).
  rewrite processLoop_app, Hrun, loop_searching.
  rewrite (step_match _ _ pat_nth_last), pat_length, Nat.eqb_refl.
  reflexivity.
Qed.

End Search.

(** ** String bodies and [JSON.parse] *)

Lemma simple_escape_not_u e x : simple_escape e = Some x -> e <> letter_u.
Proof. intros H ->. vm_compute in H. discriminate. Qed.

Lemma neqb_of_neq (a b : N) : a <> b -> (a =? b)%N = false.
Proof. apply N.eqb_neq. Qed.

Lemma scan_body raw v :
  body raw v -> forall rest, scan_string (raw ++ quote :: rest) = Some (v, rest).
Proof.
  induction 1 as [|c r v Hq Hb Hc _ IH|e x r v He _ IH|h1 h2 h3 h4 r v Hh _ IH];
    intros rest.
  - reflexivity.
  - simpl. rewrite (neqb_of_neq _ _ Hq), (neqb_of_neq _ _ Hb), Hc, IH. reflexivity.
  - change ((backslash :: e :: r) ++ quote :: rest)
      with (backslash :: e :: (r ++ quote :: rest)).
    cbn [scan_string]. change (backslash =? quote)%N with false.
    change (backslash =? backslash)%N with true. cbv iota.
    rewrite (neqb_of_neq _ _ (simple_escape_not_u _ _ He)), He, IH. reflexivity.
  - change ((backslash :: letter_u :: h1 :: h2 :: h3 :: h4 :: r) ++ quote :: rest)
      with (backslash :: letter_u :: h1 :: h2 :: h3 :: h4 :: (r ++ quote :: rest)).
    cbn [scan_string]. change (backslash =? quote)%N with false.
    change (backslash =? backslash)%N with true.
    change (letter_u =? letter_u)%N with true. cbv iota.
    unfold all_hex in Hh. rewrite Hh, IH. reflexivity.
Qed.

Lemma body_of_scan n : forall text v rest,
  length text <= n ->
  scan_string text = Some (v, rest) ->
  exists raw, text = raw ++ quote :: rest /\ body raw v.
Proof.
  induction n as [|n IH]; intros text v rest Hlen Hscan.
  - destruct text; [discriminate|simpl in Hlen; lia].
  - destruct text as [|c text]; [discriminate|].
    simpl in Hlen. cbn [scan_string] in Hscan.
    destruct (c =? quote)%N eqn:Eq.
    { apply N.eqb_eq in Eq. subst c. inversion Hscan; subst.
      exists []. split; [reflexivity|constructor]. }
    destruct (c =? backslash)%N eqn:Eb.
    { apply N.eqb_eq in Eb. subst c.
      destruct text as [|e text]; [discriminate|]. simpl in Hlen.
      destruct (e =? letter_u)%N eqn:Eu.
      - apply N.eqb_eq in Eu. subst e.
        destruct text as [|h1 [|h2 [|h3 [|h4 text]]]]; try discriminate.
        simpl in Hlen.
        destruct (is_hex h1 && is_hex h2 && is_hex h3 && is_hex h4) eqn:Eh;
          [|discriminate].
        destruct (scan_string text) as [[v' r']|] eqn:Es; [|discriminate].
        inversion Hscan; subst.
        destruct (IH text v' rest ltac:(lia) Es) as (raw & -> & Hb).
        exists (backslash :: letter_u :: h1 :: h2 :: h3 :: h4 :: raw).
        split; [reflexivity|]. now constructor.
      - destruct (simple_escape e) as [x|] eqn:Ee; [|discriminate].
        destruct (scan_string text) as [[v' r']|] eqn:Es; [|discriminate].
        inversion Hscan; subst.
        destruct (IH text v' rest ltac:(lia) Es) as (raw & -> & Hb).
        exists (backslash :: e :: raw). split; [reflexivity|]. now constructor. }
    destruct (c <? 32)%N eqn:Ec; [discriminate|].
    destruct (scan_string text) as [[v' r']|] eqn:Es; [|discriminate].
    inversion Hscan; subst.
    destruct (IH text v' rest ltac:(lia) Es) as (raw & -> & Hb).
    exists (c :: raw). split; [reflexivity|].
    constructor; auto; now apply N.eqb_neq.
Qed.

Lemma body_app a va : body a va -> forall b vb, body b vb -> body (a ++ b) (va ++ vb).
Proof.
  induction 1 as [|c r v Hq Hb Hc _ IH|e x r v He _ IH|h1 h2 h3 h4 r v Hh _ IH];
    intros b vb Hb'.
  - exact Hb'.
  - apply (body_char c (r ++ b) (v ++ vb)); auto.
  - apply (body_escape e x (r ++ b) (v ++ vb)); auto.
  - apply (body_unicode h1 h2 h3 h4 (r ++ b) (v ++ vb)); auto.
Qed.

Lemma parse_body raw v : body raw v -> JSON_parse_quoted raw = Some v.
Proof.
  intros H. unfold JSON_parse_quoted, JSON_parse_string.
  change (quote =? quote)%N with true. cbv iota.
  now rewrite (scan_body raw v H []).
Qed.

Lemma body_of_parse raw v : JSON_parse_quoted raw = Some v -> body raw v.
Proof.
  unfold JSON_parse_quoted, JSON_parse_string.
  change (quote =? quote)%N with true. cbv iota.
  destruct (scan_string (raw ++ [quote])) as [[v' r]|] eqn:Es; [|discriminate].
  destruct (forallb is_json_ws r) eqn:Ew; [|discriminate].
  intros H. inversion H; subst v'. clear H.
  destruct (body_of_scan _ _ _ _ (le_n _) Es) as (raw' & Heq & Hb).
  destruct r as [|x r _] using rev_ind.
  - apply app_inj_tail in Heq as [-> _]. exact Hb.
  - exfalso. rewrite app_comm_cons, app_assoc in Heq.
    apply app_inj_tail in Heq as [_ <-].
    rewrite forallb_app in Ew. apply andb_true_iff in Ew as [_ Ew].
    vm_compute in Ew. discriminate.
Qed.

(** ** Collecting a value *)

Section Collecting.
Variables (F : jsstring) (k : nat).

Lemma loop_collecting buf esc digits last cur c rest :
  processLoop (collecting F k buf esc digits last cur) (c :: rest) =
  let '(d1, ns1) := processValueChar (collecting F k buf esc digits last cur) c in
  let '(d2, ns2) := processLoop d1 rest in (d2, ns1 ++ ns2).
Proof. reflexivity. Qed.

Lemma value_plain buf last cur c :
  c <> quote -> c <> backslash ->
  processValueChar (collecting F k buf false 0 last cur) c =
  emitDelta (collecting F k (buf ++ [c]) false 0 last cur).
Proof.
  intros Hq Hb. unfold processValueChar. simpl.
  now rewrite (neqb_of_neq _ _ Hq), (neqb_of_neq _ _ Hb).
Qed.

Lemma value_backslash buf last cur :
  processValueChar (collecting F k buf false 0 last cur) backslash =
  (collecting F k (buf ++ [backslash]) true 0 last cur, []).
Proof. reflexivity. Qed.

Lemma value_quote buf last cur :
  processValueChar (collecting F k buf false 0 last cur) quote =
  finalizeValue (collecting F k buf false 0 last cur).
Proof. reflexivity. Qed.

Lemma value_escape_u buf last cur :
  processValueChar (collecting F k buf true 0 last cur) letter_u =
  (collecting F k (buf ++ [letter_u]) true 4 last cur, []).
Proof. reflexivity. Qed.

Lemma value_escape_other buf last cur e :
  e <> letter_u ->
  processValueChar (collecting F k buf true 0 last cur) e =
  emitDelta (collecting F k (buf ++ [e]) false 0 last cur).
Proof.
  intros Hu. unfold processValueChar. simpl.
  now rewrite (neqb_of_neq _ _ Hu).
Qed.

Lemma value_digit buf esc n last cur c :
  processValueChar (collecting F k buf esc (S n) last cur) c =
  if n =? 0
  then emitDelta (collecting F k (buf ++ [c]) false 0 last cur)
  else (collecting F k (buf ++ [c]) esc n last cur, []).
Proof.
  unfold processValueChar. simpl. rewrite Nat.sub_0_r.
  destruct n; reflexivity.
Qed.

Lemma emitDelta_none buf esc digits last cur :
  JSON_parse_quoted buf = None ->
  emitDelta (collecting F k buf esc digits last cur) =
  (collecting F k buf esc digits last cur, []).
Proof.
  intros H. unfold emitDelta. simpl. rewrite H. now destruct buf.
Qed.

(** One more decoded code unit is one more delta of that unit. *)
Lemma emitDelta_unit buf vp x cur :
  body buf (vp ++ [x]) ->
  emitDelta (collecting F k buf false 0 (length vp) cur) =
  (collecting F k buf false 0 (length (vp ++ [x])) (vp ++ [x]),
   [OnDelta F [x] (vp ++ [x])]).
Proof.
  intros Hb. unfold emitDelta. simpl.
  rewrite (parse_body _ _ Hb).
  destruct buf as [|b buf].
  - inversion Hb. destruct vp; discriminate.
  - assert (L: (length vp <? length (vp ++ [x])) = true).
    { apply Nat.ltb_lt. rewrite length_app. simpl. lia. }
    rewrite L. unfold set_emitted. simpl.
    rewrite skipn_app, skipn_all, Nat.sub_diag. reflexivity.
Qed.

Lemma body_snoc p vp unit x :
  body p vp -> body unit [x] -> body (p ++ unit) (vp ++ [x]).
Proof. intros Hp Hu. now apply body_app. Qed.

(** Collecting a well-formed body: one delta per decoded code unit. *)
Lemma collect_body s vs :
  body s vs ->
  forall p vp, body p vp ->
  exists ns,
    processLoop (collecting F k p false 0 (length vp) vp) s =
    (collecting F k (p ++ s) false 0 (length (vp ++ vs)) (vp ++ vs), ns)
    /\ deltas ns = vs /\ completions ns = []
    /\ Forall (fun n => exists delta full, n = OnDelta F delta full) ns.
Proof.
  induction 1 as [|c r v Hq Hb Hc Hr IH|e x r v He Hr IH|h1 h2 h3 h4 r v Hh Hr IH];
    intros p vp Hp.
  - exists []. rewrite !app_nil_r. repeat split. constructor.
  - assert (Hu: body (p ++ [c]) (vp ++ [c])).
    { apply body_snoc; auto. constructor; auto. constructor. }
    destruct (IH _ _ Hu) as (ns & Hrun & Hd & Hc' & Hf).
    exists (OnDelta F [c] (vp ++ [c]) :: ns).
    rewrite loop_collecting, value_plain, (emitDelta_unit _ _ _ _ Hu), Hrun by auto.
    rewrite <- !app_assoc. simpl. repeat split; auto.
    + unfold deltas in *. simpl. now rewrite Hd.
    + constructor; eauto.
  - assert (Hu: body (p ++ [backslash; e]) (vp ++ [x])).
    { apply body_snoc; auto. constructor; auto. constructor. }
    destruct (IH _ _ Hu) as (ns & Hrun & Hd & Hc' & Hf).
    exists (OnDelta F [x] (vp ++ [x]) :: ns).
    rewrite loop_collecting, value_backslash, loop_collecting.
    rewrite value_escape_other by (eapply simple_escape_not_u; eauto).
    rewrite <- app_assoc. simpl app at 1.
    rewrite (emitDelta_unit _ _ _ _ Hu), Hrun.
    rewrite <- !app_assoc. simpl. repeat split; auto.
    + unfold deltas in *. simpl. now rewrite Hd.
    + constructor; eauto.
  - set (u := unicode_unit h1 h2 h3 h4).
    assert (Hu: body (p ++ [backslash; letter_u; h1; h2; h3; h4]) (vp ++ [u])).
    { apply body_snoc; auto. apply body_unicode; auto. constructor. }
    destruct (IH _ _ Hu) as (ns & Hrun & Hd & Hc' & Hf).
    exists (OnDelta F [u] (vp ++ [u]) :: ns).
    rewrite loop_collecting, value_backslash, loop_collecting, value_escape_u.
    rewrite loop_collecting, value_digit. simpl Nat.eqb. cbv iota.
    rewrite loop_collecting, value_digit. simpl Nat.eqb. cbv iota.
    rewrite loop_collecting, value_digit. simpl Nat.eqb. cbv iota.
    rewrite loop_collecting, value_digit. simpl Nat.eqb. cbv iota.
    rewrite <- !app_assoc. simpl app at 1.
    rewrite (emitDelta_unit _ _ _ _ Hu), Hrun.
    rewrite <- !app_assoc. simpl. repeat split; auto.
    + unfold deltas in *. simpl. now rewrite Hd.
    + constructor; eauto.
Qed.

End Collecting.

(** ** From the key to the closing quote *)

Lemma whitespace_not_colon c : is_js_whitespace c = true -> (c =? colon)%N = false.
Proof.
  intros H. destruct (N.eqb_spec c colon) as [->|];
    [vm_compute in H; discriminate | reflexivity].
Qed.

Lemma whitespace_not_quote c : is_js_whitespace c = true -> (c =? quote)%N = false.
Proof.
  intros H. destruct (N.eqb_spec c quote) as [->|];
    [vm_compute in H; discriminate | reflexivity].
Qed.

Lemma skip_after_key F ws : forall k,
  forallb is_js_whitespace ws = true ->
  processLoop (mkDecoder F AfterKey k [] false 0 0 []) ws =
  (mkDecoder F AfterKey k [] false 0 0 [], []).
Proof.
  induction ws as [|c ws IH]; intros k H; [reflexivity|].
  simpl in H. apply andb_true_iff in H as [Hc H].
  cbn [processLoop stage stage_eqb]. unfold processChar. cbn [stage].
  unfold processPostKeyChar. rewrite (whitespace_not_colon c Hc), Hc.
  rewrite (IH k H). reflexivity.
Qed.

Lemma skip_before_string F ws : forall k,
  forallb is_js_whitespace ws = true ->
  processLoop (mkDecoder F WaitingForStringStart k [] false 0 0 []) ws =
  (mkDecoder F WaitingForStringStart k [] false 0 0 [], []).
Proof.
  induction ws as [|c ws IH]; intros k H; [reflexivity|].
  simpl in H. apply andb_true_iff in H as [Hc H].
  cbn [processLoop stage stage_eqb]. unfold processChar. cbn [stage].
  unfold processStringStartChar. rewrite Hc.
  rewrite (IH k H). reflexivity.
Qed.

Lemma finalize_body F k raw v :
  body raw v ->
  finalizeValue (collecting F k raw false 0 (length v) v) =
  (mkDecoder F Complete k [] false 0 (length v) v, [OnComplete F v]).
Proof.
  intros Hb. unfold finalizeValue. simpl.
  rewrite (parse_body _ _ Hb), Nat.ltb_irrefl. reflexivity.
Qed.

Lemma loop_seq d a b d1 n1 d2 n2 :
  processLoop d a = (d1, n1) ->
  processLoop d1 b = (d2, n2) ->
  processLoop d (a ++ b) = (d2, n1 ++ n2).
Proof. intros H1 H2. now rewrite processLoop_app, H1, H2. Qed.

(** C1, as amended.  Let [F] be a field name without a double quote, and
    let the first occurrence of the key token of [F] in the text be
    followed by optional whitespace, a colon, optional whitespace and a
    string literal that [JSON.parse] accepts and decodes to [value].  Then,
    however the text is cut into chunks, the deltas a fresh decoder emits
    concatenate to [value], exactly one completion is notified and it
    carries [value], and the decoder ends [Complete] holding [value]. *)
Theorem first_pair_is_decoded F pre ws1 ws2 raw value post chunks :
  quote_free F = true ->
  occursb (keyPatternOf F) (pre ++ quote :: F) = false ->
  forallb is_js_whitespace ws1 = true ->
  forallb is_js_whitespace ws2 = true ->
  JSON_parse_quoted raw = Some value ->
  concat chunks =
    pre ++ keyPatternOf F ++ ws1 ++ [colon] ++ ws2
        ++ [quote] ++ raw ++ [quote] ++ post ->
  exists d ns,
    feed (newDecoder F) chunks = (d, ns)
    /\ deltas ns = value
    /\ completions ns = [value]
    /\ stage d = Complete
    /\ FieldDecoder.value d = value.
Proof.
  intros HF Hocc Hw1 Hw2 Hparse Htext.
  apply body_of_parse in Hparse.
  destruct (collect_body F 0 raw value Hparse [] [] body_nil)
    as (ns & Hrun & Hd & Hc & _).
  simpl in Hrun.
  eexists _, _. split.
  - rewrite feed_concat, Htext, app_assoc.
    eapply loop_seq; [exact (search_finds_first F HF pre Hocc)|].
    eapply loop_seq; [exact (skip_after_key F ws1 0 Hw1)|].
    eapply (loop_seq _ [colon]); [reflexivity|].
    eapply loop_seq; [exact (skip_before_string F ws2 0 Hw2)|].
    eapply (loop_seq _ [quote]); [reflexivity|].
    eapply loop_seq; [exact Hrun|].
    eapply (loop_seq _ [quote]).
    + rewrite loop_collecting, value_quote, (finalize_body F 0 raw value Hparse).
      reflexivity.
    + apply processLoop_complete. reflexivity.
  - simpl. repeat split.
    + unfold deltas in *. rewrite map_app, concat_app, Hd. simpl.
      now rewrite app_nil_r.
    + clear - Hc.
      induction ns as [|[f dl fv|f v] ns IH]; simpl in *; auto; discriminate.
Qed.

(** C1 as stated fails: the decoder takes the first textual match of the
    key token.  In the object below the key of the first member ends in an
    escaped quote followed by x, so the decoder for x reports p, although
    the member named x holds q. *)
Lemma not_every_pair_is_decoded :
  let text := jsq "{'a\'x':'p','x':'q'}" in
  contains_pair (js "x") text (js "q")
  /\ deltas (snd (feed (newDecoder (js "x")) [text])) = js "p"
  /\ completions (snd (feed (newDecoder (js "x")) [text])) = [js "p"]
  /\ ~ every_pair_is_decoded.
Proof.
  intro text.
  assert (C : contains_pair (js "x") text (js "q")).
  { exists (jsq "{'a\'x':'p',"), [], [], (js "q"), (js "}").
    repeat split; vm_compute; reflexivity. }
  split; [exact C|]. split; [vm_compute; reflexivity|].
  split; [vm_compute; reflexivity|].
  intros H.
  assert (E : concat [text] = text) by (vm_compute; reflexivity).
  specialize (H (js "x") text (js "q") [text] C E).
  revert H. vm_compute. intros [H _]. discriminate.
Qed.

Lemma first_pair_is_decoded_witness :
  exists d ns,
    feed (newDecoder (js "x"))
         [jsq "{'x': 'ab" ++ [backslash]; jsq "'cd'}"] = (d, ns)
    /\ deltas ns = jsq "ab'cd"
    /\ completions ns = [jsq "ab'cd"]
    /\ stage d = Complete
    /\ FieldDecoder.value d = jsq "ab'cd".
Proof.
  refine (first_pair_is_decoded (js "x") (js "{") [] (js " ")
            (jsq "ab\'cd") (jsq "ab'cd") (js "}")
            [jsq "{'x': 'ab" ++ [backslash]; jsq "'cd'}"] _ _ _ _ _ _);
    vm_compute; reflexivity.
Defined.

(** *** Key search *)

(** C4.  In [SearchingKey] a character that mismatches the expected one
    resets the key index and is itself compared with the first character
    of the pattern, so the index restarts at 1 when it is a quote.  Hence
    a quote that breaks a partial match of [j] characters of the field
    name starts the match that finds the key. *)
Theorem mismatch_restarts_match F j :
  quote_free F = true ->
  j < length F ->
  let partial := firstn (S j) (keyPatternOf F) in
  (forall k c,
      index_is (keyPatternOf F) k c = false ->
      processChar (searching F k) c =
      (searching F (if index_is (keyPatternOf F) 0 c then 1 else 0), []))
  /\ processLoop (newDecoder F) partial = (searching F (S j), [])
  /\ index_is (keyPatternOf F) (S j) quote = false
  /\ processChar (searching F (S j)) quote = (searching F 1, [])
  /\ processLoop (newDecoder F) (partial ++ keyPatternOf F) =
     (set_search (newDecoder F) AfterKey 0, []).
Proof.
  intros HF Hj partial.
  assert (Hpre: processLoop (newDecoder F) partial = (searching F (S j), [])).
  { apply (search_prefix F (S j) 0). rewrite pat_length. lia. }
  assert (Hmis: index_is (keyPatternOf F) (S j) quote = false).
  { destruct (index_is (keyPatternOf F) (S j) quote) eqn:E; auto.
    apply index_is_true in E. apply (pat_quote_positions F HF) in E. lia. }
  assert (Hstep: processChar (searching F (S j)) quote = (searching F 1, [])).
  { now rewrite (step_mismatch F (S j) quote Hmis). }
  repeat split; auto.
  - intros k c H. rewrite (step_mismatch F k c H). reflexivity.
  - change (keyPatternOf F) with ([quote] ++ (F ++ [quote])) at 1.
    apply (loop_seq _ _ _ _ [] _ _ Hpre).
    apply (loop_seq _ [quote] _ (searching F 1) [] _ []).
    + rewrite loop_searching, Hstep. reflexivity.
    + apply (search_completes F (F ++ [quote]) 1); [reflexivity|].
      destruct F; discriminate.
Qed.

Lemma mismatch_restarts_match_witness :
  quote_free (js "foo") = true
  /\ 1 < length (js "foo")
  /\ processLoop (newDecoder (js "foo"))
                 (firstn 2 (keyPatternOf (js "foo")) ++ keyPatternOf (js "foo")) =
     (set_search (newDecoder (js "foo")) AfterKey 0, []).
Proof.
  assert (H1 : quote_free (js "foo") = true) by (vm_compute; reflexivity).
  assert (H2 : 1 < length (js "foo")) by (vm_compute; lia).
  destruct (mismatch_restarts_match (js "foo") 1 H1 H2) as (_ & _ & _ & _ & H).
  split; [exact H1|split; [exact H2|exact H]].
Defined.

(** *** Completion without a completion notification *)

(** C9.  When the closing quote arrives and the buffer is not a JSON string
    literal, [finalizeValue] moves to [Complete], clears the scratch
    fields, and notifies neither a delta nor a completion; so a decoder
    can become [Complete] without any completion, as on the text with the
    escape backslash-q. *)
Theorem unparsable_value_completes_silently d :
  stage d = Collecting ->
  escapeActive d = false ->
  unicodeDigitsRemaining d = 0 ->
  JSON_parse_quoted (collectingBuffer d) = None ->
  finalizeValue d = (set_scratch d Complete [] false 0, [])
  /\ processChunk d [quote] = (set_scratch d Complete [] false 0, [])
  /\ (let '(d', ns) := feed (newDecoder (js "x")) [jsq "{'x':'\q'}"] in
      stage d' = Complete /\ ns = []).
Proof.
  intros Hs He Hn Hp.
  assert (Hf: finalizeValue d = (set_scratch d Complete [] false 0, [])).
  { unfold finalizeValue. now rewrite Hp. }
  split; [exact Hf|]. split; [|vm_compute; auto].
  unfold processChunk. rewrite Hs. cbn [stage_eqb processLoop]. rewrite Hs.
  cbn [stage_eqb]. unfold processChar. rewrite Hs. unfold processValueChar.
  rewrite Hn, He. cbn [Nat.ltb Nat.leb]. 
  change (quote =? backslash)%N with false. change (quote =? quote)%N with true.
  cbv iota. rewrite Hf. reflexivity.
Qed.

Lemma unparsable_value_completes_silently_witness :
  JSON_parse_quoted (jsq "\q") = None
  /\ processChunk (collecting (js "x") 0 (jsq "\q") false 0 0 []) [quote] =
     (set_scratch (collecting (js "x") 0 (jsq "\q") false 0 0 [])
                  Complete [] false 0, []).
Proof.
  assert (H : JSON_parse_quoted (jsq "\q") = None) by (vm_compute; reflexivity).
  split; [exact H|].
  pose proof (unparsable_value_completes_silently
                (collecting (js "x") 0 (jsq "\q") false 0 0 [])
                eq_refl eq_refl eq_refl) as G.
  destruct (G H) as (_ & G' & _). exact G'.
Defined.

(** ** The unicode countdown *)

Lemma scan_units_none B :
  units B -> forall rest, scan_string rest = None -> scan_string (B ++ rest) = None.
Proof.
  induction 1 as [|B c Hq Hb _ IH|B e Hu _ IH|B h1 h2 h3 h4 _ IH];
    intros rest Hrest; auto; rewrite <- app_assoc; apply IH.
  - simpl. rewrite (neqb_of_neq _ _ Hq), (neqb_of_neq _ _ Hb), Hrest.
    now destruct (c <? 32)%N.
  - change ([backslash; e] ++ rest) with (backslash :: e :: rest).
    cbn [scan_string]. change (backslash =? quote)%N with false.
    change (backslash =? backslash)%N with true. cbv iota.
    rewrite (neqb_of_neq _ _ Hu), Hrest. now destruct (simple_escape e).
  - change ([backslash; letter_u; h1; h2; h3; h4] ++ rest)
      with (backslash :: letter_u :: h1 :: h2 :: h3 :: h4 :: rest).
    cbn [scan_string]. change (backslash =? quote)%N with false.
    change (backslash =? backslash)%N with true.
    change (letter_u =? letter_u)%N with true. cbv iota.
    rewrite Hrest. now destruct (is_hex h1 && is_hex h2 && is_hex h3 && is_hex h4).
Qed.

Lemma scan_bad_unicode ds c more :
  length ds < 4 -> is_hex c = false ->
  scan_string (backslash :: letter_u :: ds ++ c :: more) = None.
Proof.
  intros L Hc. cbn [scan_string]. change (backslash =? quote)%N with false.
  change (backslash =? backslash)%N with true.
  change (letter_u =? letter_u)%N with true. cbv iota.
  destruct ds as [|d1 [|d2 [|d3 [|d4 ds]]]]; simpl in L; try lia;
    simpl app; cbv beta iota.
  - destruct more as [|m1 [|m2 [|m3 more]]]; auto. now rewrite Hc.
  - destruct more as [|m1 [|m2 more]]; auto. now rewrite Hc, andb_false_r.
  - destruct more as [|m1 more]; auto. now rewrite Hc, !andb_false_r.
  - now rewrite Hc, !andb_false_r.
Qed.

Lemma bad_digit_poisons B ds c more :
  units B -> length ds < 4 -> is_hex c = false ->
  JSON_parse_quoted ((B ++ backslash :: letter_u :: ds ++ [c]) ++ more) = None.
Proof.
  intros HB L Hc. unfold JSON_parse_quoted, JSON_parse_string.
  change (quote =? quote)%N with true. cbv iota.
  replace (((B ++ backslash :: letter_u :: ds ++ [c]) ++ more) ++ [quote])
    with (B ++ backslash :: letter_u :: ds ++ c :: (more ++ [quote])).
  - now rewrite (scan_units_none B HB _ (scan_bad_unicode ds c _ L Hc)).
  - rewrite <- !app_assoc. simpl. rewrite <- !app_assoc. reflexivity.
Qed.

(** [emitDelta] only touches the emitted length and the current value. *)
Lemma emitDelta_scratch d :
  let d' := fst (emitDelta d) in
  field d' = field d /\ stage d' = stage d /\ keyIndex d' = keyIndex d
  /\ collectingBuffer d' = collectingBuffer d
  /\ escapeActive d' = escapeActive d
  /\ unicodeDigitsRemaining d' = unicodeDigitsRemaining d.
Proof.
  unfold emitDelta. destruct (collectingBuffer d) eqn:Eb; simpl; auto 10.
  destruct (JSON_parse_quoted (c :: j)); simpl; auto 10.
  destruct (lastEmittedLength d <? length j0); simpl; rewrite ?Eb; auto 10.
Qed.

Lemma emitDelta_silent d :
  JSON_parse_quoted (collectingBuffer d) = None -> emitDelta d = (d, []).
Proof.
  intros H. unfold emitDelta. rewrite H. now destruct (collectingBuffer d).
Qed.

Lemma key_char_stage d c :
  stage (processKeyChar d c) = AfterKey \/ stage (processKeyChar d c) = stage d.
Proof.
  unfold processKeyChar.
  destruct (index_is (keyPattern d) (keyIndex d) c); [|now right].
  destruct (S (keyIndex d) =? length (keyPattern d)); [now left | now right].
Qed.

Lemma reset_stage d c : stage (resetSearchAndReprocess d c) <> Collecting.
Proof.
  unfold resetSearchAndReprocess.
  destruct (key_char_stage (set_search d SearchingKey 0) c) as [H|H];
    rewrite H; discriminate.
Qed.

Lemma buffer_shape_new F : buffer_shape (newDecoder F).
Proof. intros H. discriminate. Qed.

Lemma buffer_shape_step d c :
  buffer_shape d -> buffer_shape (fst (processChar d c)).
Proof.
  intros Hd. unfold processChar. destruct (stage d) eqn:Hs; simpl.
  - intros H. destruct (key_char_stage d c) as [E|E]; rewrite E in H; congruence.
  - intros H. unfold processPostKeyChar in H.
    destruct (c =? colon)%N; [discriminate|].
    destruct (is_js_whitespace c); [congruence|].
    now apply reset_stage in H.
  - intros H. unfold processStringStartChar in *.
    destruct (is_js_whitespace c); [congruence|].
    destruct (c =? quote)%N; [|now apply reset_stage in H].
    exists []. split; [constructor|reflexivity].
  - destruct (Hd Hs) as (B & HB & Hshape). clear Hd.
    unfold processValueChar. revert Hshape.
    destruct (unicodeDigitsRemaining d) as [|n] eqn:Hn; intros Hshape.
    + cbn [Nat.ltb Nat.leb]. revert Hshape.
      destruct (escapeActive d) eqn:He; intros Hshape.
      * destruct (c =? letter_u)%N eqn:Eu.
        -- apply N.eqb_eq in Eu. subst c. intros _. exists B. split; auto.
           simpl. exists []. rewrite Hshape, <- app_assoc. auto.
        -- apply N.eqb_neq in Eu. intros _.
           match goal with |- context [emitDelta ?x] =>
             destruct (emitDelta_scratch x) as (_ & _ & _ & Eb & Ee & Ed) end.
           exists (B ++ [backslash; c]). split; [now constructor|].
           rewrite Ed, Ee, Eb. simpl. rewrite Hshape, <- app_assoc. reflexivity.
      * destruct (c =? backslash)%N eqn:Eb.
        -- apply N.eqb_eq in Eb. subst c. intros _. exists B. split; auto.
           simpl. now rewrite Hshape.
        -- apply N.eqb_neq in Eb. destruct (c =? quote)%N eqn:Eq.
           ++ intros H. unfold finalizeValue in H.
              destruct (JSON_parse_quoted (collectingBuffer d)) as [v|].
              ** destruct (lastEmittedLength d <? length v); discriminate.
              ** discriminate.
           ++ apply N.eqb_neq in Eq. intros _.
              match goal with |- context [emitDelta ?x] =>
                destruct (emitDelta_scratch x) as (_ & _ & _ & Eb' & Ee & Ed) end.
              exists (B ++ [c]). split; [now constructor|].
              rewrite Ed, Ee, Eb'. simpl. now rewrite Hshape.
    + destruct Hshape as (ds & Hbuf & Hlen).
      change (0 <? S n) with true. cbv iota. simpl Nat.sub. rewrite Nat.sub_0_r.
      destruct n as [|n]; simpl Nat.eqb; cbv iota.
      * intros _.
        match goal with |- context [emitDelta ?x] =>
          destruct (emitDelta_scratch x) as (_ & _ & _ & Eb & Ee & Ed) end.
        destruct ds as [|h1 [|h2 [|h3 [|h4 ds]]]]; simpl in Hlen; try lia.
        exists (B ++ [backslash; letter_u; h1; h2; h3; c]).
        split; [now constructor|].
        rewrite Ed, Ee, Eb. simpl. rewrite Hbuf, <- app_assoc. reflexivity.
      * intros _. exists B. split; auto. simpl.
        exists (ds ++ [c]). rewrite Hbuf, <- app_assoc, length_app. simpl.
        split; [reflexivity|lia].
  - exact Hd.
Qed.

Lemma buffer_shape_loop s : forall d,
  buffer_shape d -> buffer_shape (fst (processLoop d s)).
Proof.
  induction s as [|c s IH]; intros d Hd; auto.
  simpl. destruct (stage_eqb (stage d) Complete); auto.
  pose proof (buffer_shape_step d c Hd) as H1.
  destruct (processChar d c) as [d1 n1]. simpl in H1.
  specialize (IH d1 H1). destruct (processLoop d1 s). exact IH.
Qed.

Lemma silent_step d c :
  silent d -> snd (processChar d c) = [] /\ silent (fst (processChar d c)).
Proof.
  intros [Hs|[Hs Hp]]; unfold processChar; rewrite Hs.
  - split; [reflexivity|now left].
  - assert (Hp0: JSON_parse_quoted (collectingBuffer d) = None).
    { rewrite <- (app_nil_r (collectingBuffer d)). apply Hp. }
    assert (Hgrow: forall x more,
               JSON_parse_quoted ((collectingBuffer d ++ [x]) ++ more) = None).
    { intros x more. rewrite <- app_assoc. apply Hp. }
    assert (Hgrow0: forall x, JSON_parse_quoted (collectingBuffer d ++ [x]) = None).
    { intros x. rewrite <- (app_nil_r (_ ++ [x])). apply Hgrow. }
    unfold processValueChar.
    destruct (0 <? unicodeDigitsRemaining d).
    + destruct (unicodeDigitsRemaining d - 1 =? 0).
      * rewrite emitDelta_silent by apply Hgrow0.
        split; [reflexivity|]. right. split; [exact Hs|apply Hgrow].
      * split; [reflexivity|]. right. split; [exact Hs|apply Hgrow].
    + destruct (escapeActive d).
      * destruct (c =? letter_u)%N.
        -- split; [reflexivity|]. right. split; [exact Hs|apply Hgrow].
        -- rewrite emitDelta_silent by apply Hgrow0.
           split; [reflexivity|]. right. split; [exact Hs|apply Hgrow].
      * destruct (c =? backslash)%N.
        -- split; [reflexivity|]. right. split; [exact Hs|apply Hgrow].
        -- destruct (c =? quote)%N.
           ++ unfold finalizeValue. rewrite Hp0. split; [reflexivity|now left].
           ++ rewrite emitDelta_silent by apply Hgrow0.
              split; [reflexivity|]. right. split; [exact Hs|apply Hgrow].
Qed.

Lemma silent_loop s : forall d, silent d -> snd (processLoop d s) = [].
Proof.
  induction s as [|c s IH]; intros d Hd; auto.
  simpl. destruct (stage_eqb (stage d) Complete); auto.
  destruct (silent_step d c Hd) as [H1 H2].
  destruct (processChar d c) as [d1 n1]. simpl in *. subst n1.
  specialize (IH d1 H2). destruct (processLoop d1 s). simpl in *. now subst.
Qed.

(** C10.  While the unicode countdown runs, [processValueChar] appends the
    incoming character, whatever it is, and decrements the countdown; the
    stage stays [Collecting], no escape is started and nothing completes,
    also for a quote or a backslash.  After a character that is not a hex
    digit has been taken as a digit, the decoder never notifies again:
    every later decode attempt fails and is swallowed. *)
Theorem countdown_takes_any_char F chunks d ns c :
  feed (newDecoder F) chunks = (d, ns) ->
  stage d = Collecting ->
  0 < unicodeDigitsRemaining d ->
  (let '(d', ns') := processValueChar d c in
   collectingBuffer d' = collectingBuffer d ++ [c]
   /\ unicodeDigitsRemaining d' = unicodeDigitsRemaining d - 1
   /\ stage d' = Collecting
   /\ escapeActive d' =
      (if unicodeDigitsRemaining d =? 1 then false else escapeActive d)
   /\ completions ns' = [])
  /\ is_hex quote = false /\ is_hex backslash = false
  /\ (is_hex c = false ->
      forall later, snd (feed d ([c] :: later)) = []).
Proof.
  intros Hfeed Hs Hn. split; [|split; [reflexivity|split; [reflexivity|]]].
  - unfold processValueChar.
    destruct (unicodeDigitsRemaining d) as [|n] eqn:En; [lia|].
    change (0 <? S n) with true. cbv iota. simpl Nat.sub. rewrite Nat.sub_0_r.
    destruct n as [|n]; simpl Nat.eqb; cbv iota.
    + match goal with |- context [emitDelta ?x] =>
        pose proof (emitDelta_scratch x) as (_ & Es & _ & Eb & Ee & Ed);
        assert (Hc: completions (snd (emitDelta x)) = []) end.
      { unfold emitDelta. simpl.
        destruct (collectingBuffer d ++ [c]); auto.
        destruct (JSON_parse_quoted (c0 :: l)); auto.
        destruct (lastEmittedLength d <? length j); auto. }
      destruct (emitDelta _) as [d' ns']. simpl in *.
      rewrite Eb, Ed, Es, Ee. auto.
    + simpl. auto.
  - intros Hc later.
    assert (Hshape: buffer_shape d).
    { rewrite feed_concat in Hfeed.
      pose proof (buffer_shape_loop (concat chunks) _ (buffer_shape_new F)) as H.
      now rewrite Hfeed in H. }
    destruct (Hshape Hs) as (B & HB & Hbuf). revert Hbuf.
    destruct (unicodeDigitsRemaining d) as [|n] eqn:En; [lia|].
    intros (ds & Hbuf & Hlen).
    rewrite feed_concat. simpl concat.
    change ([c] ++ concat later) with (c :: concat later).
    cbn [processLoop]. rewrite Hs. cbn [stage_eqb].
    assert (Hsil: silent (fst (processChar d c))
                  /\ snd (processChar d c) = []).
    { unfold processChar. rewrite Hs. unfold processValueChar. rewrite En.
      change (0 <? S n) with true. cbv iota. simpl Nat.sub. rewrite Nat.sub_0_r.
      assert (Hpoison: forall more,
                 JSON_parse_quoted ((collectingBuffer d ++ [c]) ++ more) = None).
      { intros more. rewrite Hbuf.
        replace ((B ++ backslash :: letter_u :: ds) ++ [c])
          with (B ++ backslash :: letter_u :: ds ++ [c])
          by (now rewrite <- app_assoc).
        apply (bad_digit_poisons B ds c more HB); [lia|exact Hc]. }
      destruct (n =? 0).
      - rewrite emitDelta_silent
          by (simpl; rewrite <- (app_nil_r (_ ++ [c])); apply Hpoison).
        split; [|reflexivity]. right. split; [exact Hs|exact Hpoison].
      - split; [|reflexivity]. right. split; [exact Hs|exact Hpoison]. }
    destruct Hsil as [Hsil Hnone].
    destruct (processChar d c) as [d1 n1]. simpl in Hsil, Hnone. subst n1.
    pose proof (silent_loop (concat later) d1 Hsil) as H.
    destruct (processLoop d1 (concat later)). simpl in *. now subst.
Qed.

Lemma countdown_takes_any_char_witness :
  let d0 := collecting (js "x") 0 (jsq "a\u00") true 2 1 (js "a") in
  feed (newDecoder (js "x")) [jsq "{'x':'a\u00"] =
    (d0, [OnDelta (js "x") (js "a") (js "a")])
  /\ 0 < unicodeDigitsRemaining d0
  /\ snd (feed d0 [[quote]; jsq "41'}"; jsq "'x':'b'"]) = [].
Proof.
  intro d0.
  assert (H1 : feed (newDecoder (js "x")) [jsq "{'x':'a\u00"] =
               (d0, [OnDelta (js "x") (js "a") (js "a")]))
    by (vm_compute; reflexivity).
  assert (H3 : 0 < unicodeDigitsRemaining d0) by (vm_compute; lia).
  pose proof (countdown_takes_any_char (js "x") [jsq "{'x':'a\u00"] d0
                [OnDelta (js "x") (js "a") (js "a")] quote H1 eq_refl H3)
    as (_ & Hq & _ & G).
  split; [exact H1|]. split; [exact H3|]. exact (G Hq _).
Defined.

(** ** The examples of the specification *)

Example spec_example_escaped_quote :
  let '(d, ns) := feed (newDecoder (js "x"))
                       [jsq "{'x':'ab" ++ [backslash]; jsq "'cd'}"] in
  value d = jsq "ab'cd" /\ deltas ns = jsq "ab'cd"
  /\ completions ns = [jsq "ab'cd"].
Proof. vm_compute. repeat split. Qed.

Example spec_example_unicode_split :
  let '(d, ns) := feed (newDecoder (js "x")) [jsq "{'x':'\u00"; jsq "41'}"] in
  value d = js "A" /\ deltas ns = js "A" /\ completions ns = [js "A"].
Proof. vm_compute. repeat split. Qed.

Example false_positive_key_is_skipped :
  let '(d, ns) := feed (newDecoder (js "x")) [jsq "{'a':'x','x' : 'v'}"] in
  stage d = Complete /\ deltas ns = js "v" /\ completions ns = [js "v"].
Proof. vm_compute. repeat split. Qed.

Example raw_control_character_blocks_completion :
  let '(d, ns) := feed (newDecoder (js "x"))
                       [jsq "{'x':'a" ++ [10%N] ++ jsq "b'}"] in
  stage d = Complete /\ deltas ns = js "a" /\ completions ns = [].
Proof. vm_compute. repeat split. Qed.

End DecoderFacts.

Module PipelineFacts.

Import ExecuteStream PipelineSpec.

Lemma flushEvents_run w s :
  flushEvents w s = (tt, after_flush s, flush_log w s).
Proof.
  unfold flushEvents, after_flush, flush_log, bind, tell, get, modify, ret.
  destruct (eventBatch s) eqn:E; simpl; [reflexivity|].
  destruct (createManyRejects w (bulkWrites s)); reflexivity.
Qed.

Lemma finalize_run w cid s :
  finalize w cid s =
  (tt, set_clockReads (S (clockReads s)) s, finalize_log w cid s).
Proof.
  unfold finalize, finalizeCommandRecord, finalize_log, dateNow,
    bind, tell, get, ret.
  simpl. destruct (updateRejects w); reflexivity.
Qed.

Lemma after_flush_batch s : eventBatch (after_flush s) = [].
Proof. unfold after_flush. destruct (eventBatch s) eqn:E; auto. Qed.

Lemma written_app t1 t2 : written (t1 ++ t2) = written t1 ++ written t2.
Proof.
  induction t1 as [|e t1 IH]; simpl; auto.
  destruct e; auto. now rewrite IH, app_assoc.
Qed.

Lemma written_flush w s : written (flush_log w s) = eventBatch s.
Proof.
  unfold flush_log. destruct (eventBatch s) eqn:E; simpl; auto.
  destruct (createManyRejects w (bulkWrites s)); simpl; now rewrite app_nil_r.
Qed.

Lemma loop_effect_flush w s : Forall loop_effect (flush_log w s).
Proof.
  unfold flush_log. destruct (eventBatch s).
  - repeat constructor.
  - destruct (createManyRejects w (bulkWrites s)); repeat constructor.
Qed.

Lemma after_flush_same s : same_buffers s (after_flush s).
Proof. unfold after_flush, same_buffers. destruct (eventBatch s); simpl; auto 10. Qed.

Lemma accumulate_keeps event s :
  eventBatch (accumulate event s) = eventBatch s
  /\ startTime (accumulate event s) = startTime s.
Proof.
  destruct event as [x|m|m [e|] [a|] [b|]]; simpl; auto;
    destruct (negb (e =? 0)%Z); auto.
Qed.

(** One iteration: the event goes to the client and into the batch, and
    the batch is either kept or handed over whole. *)
Lemma onEvent_run w sid event s :
  exists s' t,
    onEvent w sid event s = (tt, s', t)
    /\ Forall loop_effect t
    /\ written t ++ eventBatch s' = eventBatch s ++ [mkPersisted sid event]
    /\ startTime s' = startTime s.
Proof.
  unfold onEvent, bind, tell, modify, get, dateNow, ret.
  cbn -[accumulate flushEvents Z.sub Z.ltb].
  set (s0 := set_eventBatch (eventBatch s ++ [mkPersisted sid event]) s).
  destruct (accumulate_keeps event s0) as [Eb Et].
  match goal with |- context [if ?b then _ else _] => destruct b end.
  - rewrite flushEvents_run.
    set (s1 := set_clockReads _ (accumulate event s0)).
    eexists _, _. split; [reflexivity|]. split; [|split].
    + constructor; [exact I|]. cbn [app]. rewrite app_nil_r.
      apply loop_effect_flush.
    + cbn [app written]. rewrite app_nil_r, written_flush.
      cbn [eventBatch set_lastFlush]. rewrite after_flush_batch, app_nil_r.
      unfold s1. cbn [eventBatch set_clockReads]. exact Eb.
    + cbn [startTime set_lastFlush].
      destruct (after_flush_same s1) as (H & _). rewrite H.
      unfold s1. cbn [startTime set_clockReads]. exact Et.
  - eexists _, _. split; [reflexivity|]. split; [|split].
    + repeat constructor.
    + cbn [app written eventBatch set_clockReads]. exact Eb.
    + cbn [startTime set_clockReads]. exact Et.
Qed.

Lemma forAwait_run w sid events : forall s,
  exists s' t,
    forAwait w sid events s = (tt, s', t)
    /\ Forall loop_effect t
    /\ written t ++ eventBatch s' =
       eventBatch s ++ map (mkPersisted sid) events
    /\ startTime s' = startTime s.
Proof.
  induction events as [|event more IH]; intros s.
  - exists s, []. simpl. rewrite app_nil_r. repeat split. constructor.
  - destruct (onEvent_run w sid event s) as (s1 & t1 & H1 & F1 & W1 & T1).
    destruct (IH s1) as (s2 & t2 & H2 & F2 & W2 & T2).
    exists s2, (t1 ++ t2). cbn [forAwait]. unfold bind. rewrite H1, H2.
    split; [reflexivity|]. split; [|split].
    + apply Forall_app. auto.
    + rewrite written_app, <- app_assoc, W2, app_assoc, W1, <- app_assoc.
      reflexivity.
    + congruence.
Qed.

Lemma catchBlock_run w cid error s :
  let s1 := set_errorBuffer
              (appendErrorText (errorBuffer s)
                               (StringPayload (errorMessageOf error)))
              (set_encounteredError true s) in
  catchBlock w cid error s =
  (tt, set_clockReads (S (clockReads (after_flush s1))) (after_flush s1),
   Enqueue (ErrorPayload (errorMessageOf error))
     :: flush_log w s1 ++ finalize_log w cid (after_flush s1)).
Proof.
  intros s1. unfold catchBlock, bind, modify, tell.
  cbn -[flushEvents finalize]. fold s1.
  rewrite flushEvents_run, finalize_run. reflexivity.
Qed.

(** Every run has the same outline: the loop, one last flush, the
    finalizer, the close. *)
Lemma start_outline w sid cid :
  exists pre sb post,
    start w sid cid =
    (set_clockReads (S (clockReads (after_flush sb))) (after_flush sb),
     pre ++ flush_log w sb ++ finalize_log w cid (after_flush sb)
         ++ post ++ [ControllerClose])
    /\ Forall loop_effect pre
    /\ Forall closing_effect post
    /\ written pre ++ eventBatch sb = map (mkPersisted sid) (consumed w)
    /\ startTime sb = clock w 0.
Proof.
  unfold start, tryBlock, consumed, bind, tell.
  destruct (historyRejects w) as [error|].
  - rewrite catchBlock_run.
    exists [Enqueue (ErrorPayload (errorMessageOf error))],
      (set_errorBuffer
         (appendErrorText (errorBuffer (initialSession w))
                          (StringPayload (errorMessageOf error)))
         (set_encounteredError true (initialSession w))),
      [].
    split; [|split; [|split; [|split]]].
    + f_equal; try reflexivity;
        repeat (cbn [app]; rewrite <- app_assoc); cbn [app]; reflexivity.
    + repeat constructor.
    + constructor.
    + reflexivity.
    + reflexivity.
  - destruct (forAwait_run w sid (produced w) (initialSession w))
      as (s1 & t1 & H1 & F1 & W1 & T1).
    rewrite H1. destruct (producerRaises w) as [error|].
    + rewrite catchBlock_run.
      exists (t1 ++ [Enqueue (ErrorPayload (errorMessageOf error))]),
        (set_errorBuffer
           (appendErrorText (errorBuffer s1)
                            (StringPayload (errorMessageOf error)))
           (set_encounteredError true s1)),
        [].
      split; [|split; [|split; [|split]]].
      * f_equal; try reflexivity;
        repeat (cbn [app]; rewrite <- app_assoc); cbn [app]; reflexivity.
      * apply Forall_app. split; [exact F1|repeat constructor].
      * constructor.
      * rewrite written_app. cbn [written eventBatch set_errorBuffer
                                    set_encounteredError].
        rewrite app_nil_r. exact W1.
      * exact T1.
    + rewrite flushEvents_run, finalize_run.
      exists t1, s1, [Enqueue DonePayload].
      split; [|split; [|split; [|split]]].
      * f_equal; try reflexivity;
        repeat (cbn [app]; rewrite <- app_assoc); cbn [app]; reflexivity.
      * exact F1.
      * repeat constructor.
      * exact W1.
      * exact T1.
Qed.





Lemma finalOutputOf_spec s :
  finalOutputOf s =
  summaryText_spec (outputBuffer s) (errorBuffer s) (encounteredError s).
Proof.
  unfold finalOutputOf, summaryText_spec.
  destruct (outputBuffer s); [|reflexivity]. simpl.
  destruct (encounteredError s); [|reflexivity].
  destruct (errorBuffer s); reflexivity.
Qed.

(** Every consumed event is handed to the persistence layer exactly
    once, in order, whatever the writes answer. *)
Lemma every_event_written_once w sid cid :
  written (snd (start w sid cid)) = map (mkPersisted sid) (consumed w).
Proof.
  destruct (start_outline w sid cid) as (pre & sb & post & -> & _ & Fp & W & _).
  cbn [snd]. rewrite !written_app, written_flush.
  assert (Z1: written (finalize_log w cid (after_flush sb)) = []).
  { unfold finalize_log. now destruct (updateRejects w). }
  assert (Z2: written post = []).
  { clear - Fp. induction Fp as [|e t He _ IH]; [reflexivity|].
    destruct e; simpl in *; auto; contradiction. }
  rewrite Z1, Z2. simpl. now rewrite app_nil_r.
Qed.



(** C5.  [finalize] persists the output buffer when it is not empty, else
    the trimmed text Error: followed by the error buffer when an error was
    met and that buffer is not empty, else null; the latency it persists
    is the clock reading it takes minus the start time, which in a run of
    [start] is the first reading. *)
Theorem summary_text_precedence w sid cid :
  (forall s,
      snd (finalize w cid s) =
      Invoke_finalize ::
      CommandUpdate cid
        (summaryText_spec (outputBuffer s) (errorBuffer s) (encounteredError s))
        (clock w (clockReads s) - startTime s) (tokensIn s) (tokensOut s) ::
      (if updateRejects w then [ConsoleError FailedToFinalizeOutput] else []))
  /\ (let '(s, t) := start w sid cid in
      exists pre post,
        t = pre ++
            CommandUpdate cid
              (summaryText_spec (outputBuffer s) (errorBuffer s)
                                (encounteredError s))
              (clock w (clockReads s - 1) - clock w 0)
              (tokensIn s) (tokensOut s) :: post).
Proof.
  split.
  - intros s. rewrite finalize_run. cbn [snd]. unfold finalize_log.
    now rewrite finalOutputOf_spec.
  - destruct (start_outline w sid cid) as (pre & sb & post & -> & _ & _ & _ & T).
    destruct (after_flush_same sb) as (H1 & H2 & H3 & H4 & H5 & H6).
    exists (pre ++ flush_log w sb ++ [Invoke_finalize]),
      ((if updateRejects w then [ConsoleError FailedToFinalizeOutput] else [])
         ++ post ++ [ControllerClose]).
    unfold finalize_log. rewrite finalOutputOf_spec.
    cbn [outputBuffer errorBuffer encounteredError tokensIn tokensOut
           clockReads set_clockReads].
    rewrite Nat.sub_1_r, Nat.pred_succ, H1, T.
    rewrite <- !app_assoc. reflexivity.
Qed.

(** C8.  [flushEvents] empties the batch before the bulk write is issued
    and returns normally whatever the write does.  When the write rejects,
    the error is logged, the batch stays empty, and the next flush writes
    only what was queued afterwards; over a whole run every consumed
    event is written exactly once. *)
Theorem failed_flush_drops_events w s more sid cid :
  eventBatch s <> [] ->
  createManyRejects w (bulkWrites s) = true ->
  (let '(_, s1, t1) := flushEvents w s in
   t1 = [Invoke_flushEvents; CreateMany (eventBatch s);
         ConsoleError FailedToPersistEvents]
   /\ eventBatch s1 = []
   /\ same_buffers s s1
   /\ (let '(_, s2, t2) :=
         flushEvents w (set_eventBatch (eventBatch s1 ++ more) s1) in
       written t2 = more /\ eventBatch s2 = []))
  /\ (forall s', eventBatch (snd (fst (flushEvents w s'))) = [])
  /\ written (snd (start w sid cid)) = map (mkPersisted sid) (consumed w).
Proof.
  intros Hne Hrej. split; [|split].
  - rewrite flushEvents_run.
    split; [|split; [|split]].
    + unfold flush_log. rewrite Hrej. destruct (eventBatch s); [congruence|reflexivity].
    + apply after_flush_batch.
    + apply after_flush_same.
    + rewrite flushEvents_run, written_flush, !after_flush_batch.
      split; reflexivity.
  - intros s'. rewrite flushEvents_run. apply after_flush_batch.
  - apply every_event_written_once.
Qed.

Lemma failed_flush_drops_events_witness :
  let w := mkWorld (fun n => Z.of_nat n * 300)%Z None
                   [TokenEvent (js "hi")] None (fun _ => true) false in
  let queued := [mkPersisted (js "s1") (TokenEvent (js "a"))] in
  let s := mkSession 0 (js "a") [] 0 0 false queued 0 3 0 in
  eventBatch s <> []
  /\ createManyRejects w (bulkWrites s) = true
  /\ snd (flushEvents w s) =
       [Invoke_flushEvents; CreateMany queued; ConsoleError FailedToPersistEvents]
  /\ eventBatch (snd (fst (flushEvents w s))) = [].
Proof.
  intros w queued s.
  assert (H1 : eventBatch s <> []) by discriminate.
  assert (H2 : createManyRejects w (bulkWrites s) = true) by reflexivity.
  destruct (failed_flush_drops_events w s [] (js "s1") (js "c1") H1 H2)
    as (H & Hall & _).
  split; [exact H1|]. split; [exact H2|].
  destruct (flushEvents w s) as [[u s1] t1].
  destruct H as (Ht & Hb & _). split; [exact Ht|exact Hb].
Defined.

(** ** Two runs *)

Example producer_raises_at_once :
  let w := mkWorld (fun n => Z.of_nat n * 10)%Z None []
                   (Some (ErrorObject (js "no key"))) (fun _ => false) false in
  snd (start w (js "s1") (js "c1")) =
  [Enqueue (ErrorPayload (js "no key"));
   Invoke_flushEvents;
   Invoke_finalize;
   CommandUpdate (js "c1") (Some (js "Error: no key")) 20 0 0;
   ControllerClose].
Proof. vm_compute. reflexivity. Qed.

Example slow_producer_is_flushed_in_the_loop :
  let w := mkWorld (fun n => Z.of_nat n * 300)%Z None
                   [TokenEvent (js "hi");
                    StatusEvent (js "Complete") (Some 0%Z) (Some 5%Z) (Some 2%Z)]
                   None (fun n => Nat.eqb n 0) false in
  snd (start w (js "s1") (js "c1")) =
  [Enqueue (EventPayload (TokenEvent (js "hi")));
   Invoke_flushEvents;
   CreateMany [mkPersisted (js "s1") (TokenEvent (js "hi"))];
   ConsoleError FailedToPersistEvents;
   Enqueue (EventPayload
              (StatusEvent (js "Complete") (Some 0%Z) (Some 5%Z) (Some 2%Z)));
   Invoke_flushEvents;
   CreateMany [mkPersisted (js "s1")
                 (StatusEvent (js "Complete") (Some 0%Z) (Some 5%Z) (Some 2%Z))];
   Invoke_flushEvents;
   Invoke_finalize;
   CommandUpdate (js "c1") (Some (js "hi")) 1200 5 2;
   Enqueue DonePayload;
   ControllerClose].
Proof. vm_compute. reflexivity. Qed.

End PipelineFacts.

Module GenerateFacts.

Import GenerateStream GenerateSpec.

Lemma listen_lastFull name ns : forall latest,
  fst (listen name latest ns) = lastFull latest ns.
Proof.
  induction ns as [|[f d v|f v] ns IH]; intros latest; simpl; auto.
  specialize (IH v). destruct (listen name v ns). exact IH.
Qed.

Lemma lastFull_app ns1 : forall latest ns2,
  lastFull latest (ns1 ++ ns2) = lastFull (lastFull latest ns1) ns2.
Proof. induction ns1 as [|[f d v|f v] ns1 IH]; intros; simpl; auto. Qed.

Lemma emitDelta_lastFull d :
  lastFull (currentValue d) (snd (emitDelta d)) = currentValue (fst (emitDelta d)).
Proof.
  unfold emitDelta. destruct (collectingBuffer d); auto.
  destruct (JSON_parse_quoted (c :: j)); auto.
  destruct (lastEmittedLength d <? length j0); auto.
Qed.

Lemma finalizeValue_lastFull d :
  lastFull (currentValue d) (snd (finalizeValue d)) =
  currentValue (fst (finalizeValue d)).
Proof.
  unfold finalizeValue.
  destruct (JSON_parse_quoted (collectingBuffer d)) as [v|]; auto.
  destruct (lastEmittedLength d <? length v) eqn:L; auto.
  apply Nat.ltb_lt in L.
  assert (P: (0 <? length (skipn (lastEmittedLength d) v)) = true).
  { apply Nat.ltb_lt. rewrite length_skipn. lia. }
  rewrite P. reflexivity.
Qed.

Lemma key_char_value d c : currentValue (processKeyChar d c) = currentValue d.
Proof.
  unfold processKeyChar.
  destruct (index_is _ _ _); [destruct (_ =? _)|]; reflexivity.
Qed.

Lemma processChar_lastFull d c :
  lastFull (currentValue d) (snd (processChar d c)) =
  currentValue (fst (processChar d c)).
Proof.
  unfold processChar. destruct (stage d); simpl.
  - now rewrite key_char_value.
  - unfold processPostKeyChar.
    destruct (c =? colon)%N; auto. destruct (is_js_whitespace c); auto.
    unfold resetSearchAndReprocess. now rewrite key_char_value.
  - unfold processStringStartChar.
    destruct (is_js_whitespace c); auto. destruct (c =? quote)%N; auto.
    unfold resetSearchAndReprocess. now rewrite key_char_value.
  - unfold processValueChar.
    destruct (0 <? unicodeDigitsRemaining d).
    + destruct (unicodeDigitsRemaining d - 1 =? 0); auto.
      match goal with |- context [emitDelta ?x] =>
        exact (emitDelta_lastFull x) end.
    + destruct (escapeActive d).
      * destruct (c =? letter_u)%N; auto.
        match goal with |- context [emitDelta ?x] =>
          exact (emitDelta_lastFull x) end.
      * destruct (c =? backslash)%N; auto.
        destruct (c =? quote)%N.
        -- apply finalizeValue_lastFull.
        -- match goal with |- context [emitDelta ?x] =>
             exact (emitDelta_lastFull x) end.
  - reflexivity.
Qed.

Lemma processLoop_lastFull chunk : forall d,
  lastFull (currentValue d) (snd (processLoop d chunk)) =
  currentValue (fst (processLoop d chunk)).
Proof.
  induction chunk as [|c chunk IH]; intros d; simpl; auto.
  destruct (stage_eqb (stage d) Complete); auto.
  pose proof (processChar_lastFull d c) as H1.
  destruct (processChar d c) as [d1 n1]. simpl in H1.
  specialize (IH d1). destruct (processLoop d1 chunk) as [d2 n2]. simpl in *.
  now rewrite lastFull_app, H1.
Qed.

Lemma processChunk_lastFull d chunk :
  lastFull (currentValue d) (snd (processChunk d chunk)) =
  currentValue (fst (processChunk d chunk)).
Proof.
  unfold processChunk. destruct (stage_eqb (stage d) Complete); auto.
  apply processLoop_lastFull.
Qed.

Lemma onStreamChunk_in_step st chunk :
  in_step st -> in_step (fst (onStreamChunk st chunk)).
Proof.
  intros [Hc He]. unfold onStreamChunk, in_step, value in *.
  pose proof (processChunk_lastFull (commandParser st) chunk) as P1.
  pose proof (processChunk_lastFull (explanationParser st) chunk) as P2.
  destruct (processChunk (commandParser st) chunk) as [cp ns1].
  destruct (processChunk (explanationParser st) chunk) as [ep ns2].
  pose proof (listen_lastFull (js "command") ns1 (latestCommand st)) as L1.
  pose proof (listen_lastFull (js "explanation") ns2 (latestExplanation st)) as L2.
  destruct (listen (js "command") (latestCommand st) ns1) as [lc es1].
  destruct (listen (js "explanation") (latestExplanation st) ns2) as [le es2].
  simpl in *. subst lc le. rewrite Hc, He. auto.
Qed.

Lemma onStreamChunks_in_step chunks : forall st,
  in_step st -> in_step (fst (onStreamChunks st chunks)).
Proof.
  induction chunks as [|chunk more IH]; intros st H; auto.
  simpl. pose proof (onStreamChunk_in_step st chunk H) as H1.
  destruct (onStreamChunk st chunk) as [st1 es1]. simpl in H1.
  specialize (IH st1 H1). destruct (onStreamChunks st1 more). exact IH.
Qed.

Lemma listen_deltas name ns : forall latest,
  Forall is_delta (snd (listen name latest ns)).
Proof.
  induction ns as [|[f d v|f v] ns IH]; intros latest; simpl; auto.
  specialize (IH v). destruct (listen name v ns). constructor; simpl; auto.
Qed.

Lemma onStreamChunks_deltas chunks : forall st,
  Forall is_delta (snd (onStreamChunks st chunks)).
Proof.
  induction chunks as [|chunk more IH]; intros st; simpl; auto.
  assert (H: Forall is_delta (snd (onStreamChunk st chunk))).
  { unfold onStreamChunk.
    destruct (processChunk (commandParser st) chunk) as [cp ns1].
    destruct (processChunk (explanationParser st) chunk) as [ep ns2].
    pose proof (listen_deltas (js "command") ns1 (latestCommand st)).
    pose proof (listen_deltas (js "explanation") ns2 (latestExplanation st)).
    destruct (listen (js "command") (latestCommand st) ns1).
    destruct (listen (js "explanation") (latestExplanation st) ns2).
    simpl in *. apply Forall_app. auto. }
  destruct (onStreamChunk st chunk) as [st1 es1]. simpl in H.
  specialize (IH st1). destruct (onStreamChunks st1 more). simpl in *.
  apply Forall_app. auto.
Qed.

Lemma resultOf_after_deltas es rest :
  Forall is_delta es -> resultOf (es ++ rest) = resultOf rest.
Proof.
  induction 1 as [|e es He _ IH]; auto.
  destruct e; simpl in *; try contradiction. exact IH.
Qed.





(** ** Two decoders on one stream *)

Example both_fields_are_decoded :
  let r := mkRun None
                 [jsq "{'command':'ls"; jsq " -la','expl"; jsq "anation':'list'}"]
                 (inl (mkResult (mkOutput (js "ls -la") (js "list")) 1 2 3)) in
  start r =
  [DeltaEvent (js "command") (js "l"); DeltaEvent (js "command") (js "s");
   DeltaEvent (js "command") (js " "); DeltaEvent (js "command") (js "-");
   DeltaEvent (js "command") (js "l"); DeltaEvent (js "command") (js "a");
   DeltaEvent (js "explanation") (js "l"); DeltaEvent (js "explanation") (js "i");
   DeltaEvent (js "explanation") (js "s"); DeltaEvent (js "explanation") (js "t");
   ResultEvent (mkPayload (js "ls -la") (js "list") 1 2 3);
   DoneEvent; CloseStream].
Proof. vm_compute. reflexivity. Qed.

End GenerateFacts.

(** ** The decoder on arbitrary input *)

Module DecoderMore.

Import DecoderSpec DecoderFacts DecoderInvariants.

Lemma body_inv_char c r v :
  c <> backslash -> body (c :: r) v -> exists v', v = c :: v' /\ body r v'.
Proof.
  intros Hb H.
  inversion H as [|c' r' v' Hq' Hb' Hc' Hr'|e' x' r' v' He' Hr'
                  |h1 h2 h3 h4 r' v' Hh' Hr']; subst; try congruence.
  now exists v'.
Qed.

Lemma body_inv_escape e r v :
  e <> letter_u -> body (backslash :: e :: r) v ->
  exists x v', simple_escape e = Some x /\ v = x :: v' /\ body r v'.
Proof.
  intros Hu H.
  inversion H as [|c' r' v' Hq' Hb' Hc' Hr'|e' x' r' v' He' Hr'
                  |h1 h2 h3 h4 r' v' Hh' Hr']; subst; try congruence.
  now exists x', v'.
Qed.

Lemma body_inv_unicode h1 h2 h3 h4 r v :
  body (backslash :: letter_u :: h1 :: h2 :: h3 :: h4 :: r) v ->
  exists v', v = unicode_unit h1 h2 h3 h4 :: v' /\ body r v'.
Proof.
  intros H.
  inversion H as [|c' r' v' Hq' Hb' Hc' Hr'|e' x' r' v' He' Hr'
                  |g1 g2 g3 g4 r' v' Hh' Hr']; subst; try congruence.
  - vm_compute in He'. discriminate.
  - now exists v'.
Qed.

(** What a buffer denotes extends what any of its parsed prefixes
    denotes. *)
Lemma body_prefix b0 v0 :
  body b0 v0 -> forall more v, body (b0 ++ more) v -> exists v', v = v0 ++ v'.
Proof.
  induction 1 as [|c r v0 Hq Hb Hc _ IH|e x r v0 He _ IH|h1 h2 h3 h4 r v0 Hh _ IH];
    intros more v Hv.
  - now exists v.
  - apply (body_inv_char c _ _ Hb) in Hv as (v1 & -> & Hv).
    destruct (IH _ _ Hv) as [v' ->]. now exists v'.
  - apply (body_inv_escape e _ _ (simple_escape_not_u _ _ He)) in Hv
      as (x1 & v1 & He1 & -> & Hv).
    assert (x1 = x) by congruence. subst x1.
    destruct (IH _ _ Hv) as [v' ->]. now exists v'.
  - apply body_inv_unicode in Hv as (v1 & -> & Hv).
    destruct (IH _ _ Hv) as [v' ->]. now exists v'.
Qed.

Lemma skipn_app_exact (a b : jsstring) : skipn (length a) (a ++ b) = b.
Proof. now rewrite skipn_app, skipn_all, Nat.sub_diag. Qed.

Lemma tracked_collecting d b0 more :
  stage d = Collecting ->
  lastEmittedLength d = length (currentValue d) ->
  collectingBuffer d = b0 ++ more ->
  body b0 (currentValue d) ->
  value_tracked d.
Proof.
  intros Hs Hl Hb Hv. split; [exact Hl|]. rewrite Hs. now exists b0, more.
Qed.

(** [emitDelta] on a tracked collecting decoder. *)
Lemma emitDelta_tracked d F :
  field d = F -> stage d = Collecting -> value_tracked d ->
  exists ns cur',
    snd (emitDelta d) = ns
    /\ step_out F (currentValue d) ns cur' false
    /\ currentValue (fst (emitDelta d)) = cur'
    /\ value_tracked (fst (emitDelta d))
    /\ stage (fst (emitDelta d)) = Collecting
    /\ field (fst (emitDelta d)) = F.
Proof.
  intros HF Hs Htr. pose proof Htr as [Hlen Hst]. rewrite Hs in Hst.
  destruct Hst as (b0 & more & Hbuf & Hb0).
  assert (Hsame: exists ns cur',
             snd (d, @nil Notification) = ns
             /\ step_out F (currentValue d) ns cur' false
             /\ currentValue (fst (d, @nil Notification)) = cur'
             /\ value_tracked (fst (d, @nil Notification))
             /\ stage (fst (d, @nil Notification)) = Collecting
             /\ field (fst (d, @nil Notification)) = F).
  { exists [], (currentValue d). cbn [fst snd].
    split; [reflexivity|]. split; [constructor|]. auto. }
  unfold emitDelta.
  destruct (collectingBuffer d) as [|c0 buf] eqn:Eb; [exact Hsame|].
  destruct (JSON_parse_quoted (c0 :: buf)) as [decoded|] eqn:Ep; [|exact Hsame].
  destruct (lastEmittedLength d <? length decoded) eqn:El; [|exact Hsame].
  apply body_of_parse in Ep. apply Nat.ltb_lt in El.
  pose proof Ep as Ep'. rewrite Hbuf in Ep'.
  destruct (body_prefix _ _ Hb0 _ _ Ep') as [v' Hv'].
  assert (Hne: v' <> []).
  { intros ->. rewrite app_nil_r in Hv'. subst decoded. lia. }
  exists [OnDelta F v' decoded], decoded.
  cbn [fst snd]. rewrite Hlen, HF, Hv', skipn_app_exact.
  split; [reflexivity|]. split; [now constructor|]. split; [reflexivity|].
  split; [|split; [exact Hs|exact HF]].
  apply (tracked_collecting _ (c0 :: buf) []); cbn; auto.
  - now rewrite app_nil_r.
  - now rewrite <- Hv'.
Qed.

Lemma tracked_grow d c esc n :
  stage d = Collecting -> value_tracked d ->
  value_tracked (set_scratch d (stage d) (collectingBuffer d ++ [c]) esc n).
Proof.
  intros Hs [Hl Hst]. rewrite Hs in Hst. destruct Hst as (b0 & more & Hb & Hv).
  apply (tracked_collecting _ b0 (more ++ [c])); cbn; auto.
  now rewrite Hb, app_assoc.
Qed.

Lemma finalizeValue_tracked d F :
  field d = F -> stage d = Collecting -> value_tracked d ->
  exists cur' done,
    step_out F (currentValue d) (snd (finalizeValue d)) cur' done
    /\ currentValue (fst (finalizeValue d)) = cur'
    /\ value_tracked (fst (finalizeValue d))
    /\ stage (fst (finalizeValue d)) = Complete
    /\ field (fst (finalizeValue d)) = F.
Proof.
  intros HF Hs [Hlen Hst]. rewrite Hs in Hst.
  destruct Hst as (b0 & more & Hbuf & Hb0).
  unfold finalizeValue.
  destruct (JSON_parse_quoted (collectingBuffer d)) as [decoded|] eqn:Ep.
  2:{ exists (currentValue d), false. cbn.
      split; [constructor|]. split; [reflexivity|].
      split; [split; [exact Hlen|exact I]|]. split; [reflexivity|exact HF]. }
  apply body_of_parse in Ep. pose proof Ep as Ep'. rewrite Hbuf in Ep'.
  destruct (body_prefix _ _ Hb0 _ _ Ep') as [v' Hv'].
  destruct (lastEmittedLength d <? length decoded) eqn:El.
  - apply Nat.ltb_lt in El.
    assert (Hne: v' <> []).
    { intros ->. rewrite app_nil_r in Hv'. subst decoded. lia. }
    rewrite Hlen, Hv', skipn_app_exact.
    assert (Hpos: (0 <? length v') = true).
    { apply Nat.ltb_lt. destruct v'; [congruence|simpl; lia]. }
    rewrite Hpos. exists (currentValue d ++ v'), true. cbn. rewrite HF.
    split; [now constructor|]. split; [reflexivity|].
    split; [split; [reflexivity|exact I]|]. split; reflexivity.
  - apply Nat.ltb_ge in El.
    assert (v' = []) as ->.
    { subst decoded. rewrite Hlen, length_app in El. destruct v'; auto.
      simpl in El. lia. }
    rewrite app_nil_r in Hv'. subst decoded.
    exists (currentValue d), true. cbn. rewrite HF.
    split; [constructor|]. split; [reflexivity|].
    split; [split; [exact Hlen|exact I]|]. split; reflexivity.
Qed.

Lemma key_char_fields d c :
  field (processKeyChar d c) = field d
  /\ currentValue (processKeyChar d c) = currentValue d
  /\ lastEmittedLength (processKeyChar d c) = lastEmittedLength d
  /\ (stage (processKeyChar d c) = AfterKey
      \/ stage (processKeyChar d c) = stage d).
Proof.
  unfold processKeyChar.
  destruct (index_is (keyPattern d) (keyIndex d) c);
    [destruct (S (keyIndex d) =? length (keyPattern d))|]; cbn; auto.
Qed.

Lemma tracked_idle d :
  stage d <> Collecting ->
  lastEmittedLength d = length (currentValue d) -> currentValue d = [] ->
  value_tracked d.
Proof.
  intros Hs Hl Hc. split; [exact Hl|]. destruct (stage d); auto. congruence.
Qed.

(** One character keeps the tracking and notifies one of four things. *)
Lemma processChar_tracked d c F :
  field d = F -> value_tracked d ->
  exists cur' done,
    step_out F (currentValue d) (snd (processChar d c)) cur' done
    /\ currentValue (fst (processChar d c)) = cur'
    /\ value_tracked (fst (processChar d c))
    /\ field (fst (processChar d c)) = F
    /\ (done = true -> stage (fst (processChar d c)) = Complete).
Proof.
  intros HF Htr. pose proof Htr as [Hlen Hst].
  assert (Hquiet: forall d',
             field d' = field d -> currentValue d' = currentValue d ->
             value_tracked d' ->
             exists cur' done,
               step_out F (currentValue d) (snd (d', @nil Notification)) cur' done
               /\ currentValue (fst (d', @nil Notification)) = cur'
               /\ value_tracked (fst (d', @nil Notification))
               /\ field (fst (d', @nil Notification)) = F
               /\ (done = true -> stage (fst (d', @nil Notification)) = Complete)).
  { intros d' Hf Hc Ht. exists (currentValue d), false. cbn [fst snd].
    split; [constructor|]. split; [exact Hc|]. split; [exact Ht|].
    split; [congruence|discriminate]. }
  assert (Hkey: forall d0,
             field d0 = field d -> currentValue d0 = currentValue d ->
             lastEmittedLength d0 = lastEmittedLength d ->
             stage d0 <> Collecting -> currentValue d = [] ->
             value_tracked (processKeyChar d0 c)
             /\ field (processKeyChar d0 c) = field d
             /\ currentValue (processKeyChar d0 c) = currentValue d).
  { intros d0 Hf Hc Hl Hs Hnil.
    destruct (key_char_fields d0 c) as (K1 & K2 & K3 & K4).
    split; [|split; congruence].
    apply tracked_idle; try congruence.
    destruct K4 as [K4|K4]; rewrite K4; [discriminate|exact Hs]. }
  unfold processChar. destruct (stage d) eqn:Hs.
  - destruct (Hkey d eq_refl eq_refl eq_refl) as (K1 & K2 & K3);
      [congruence|exact Hst|]. now apply Hquiet.
  - unfold processPostKeyChar.
    destruct (c =? colon)%N.
    { apply Hquiet; auto. apply tracked_idle; cbn; auto. discriminate. }
    destruct (is_js_whitespace c); [now apply Hquiet|].
    unfold resetSearchAndReprocess.
    destruct (Hkey (set_search d SearchingKey 0) eq_refl eq_refl eq_refl)
      as (K1 & K2 & K3); [discriminate|exact Hst|]. now apply Hquiet.
  - unfold processStringStartChar.
    destruct (is_js_whitespace c); [now apply Hquiet|].
    destruct (c =? quote)%N.
    { apply Hquiet; auto.
      apply (tracked_collecting _ [] []); cbn; auto.
      - now rewrite Hst.
      - rewrite Hst. constructor. }
    unfold resetSearchAndReprocess.
    destruct (Hkey (set_search d SearchingKey 0) eq_refl eq_refl eq_refl)
      as (K1 & K2 & K3); [discriminate|exact Hst|]. now apply Hquiet.
  - assert (Hemit: forall esc n,
               exists cur' done,
                 step_out F (currentValue d)
                   (snd (emitDelta (set_scratch d (stage d)
                                      (collectingBuffer d ++ [c]) esc n)))
                   cur' done
                 /\ currentValue
                      (fst (emitDelta (set_scratch d (stage d)
                                         (collectingBuffer d ++ [c]) esc n))) = cur'
                 /\ value_tracked
                      (fst (emitDelta (set_scratch d (stage d)
                                         (collectingBuffer d ++ [c]) esc n)))
                 /\ field
                      (fst (emitDelta (set_scratch d (stage d)
                                         (collectingBuffer d ++ [c]) esc n))) = F
                 /\ (done = true ->
                     stage (fst (emitDelta (set_scratch d (stage d)
                                              (collectingBuffer d ++ [c]) esc n)))
                     = Complete)).
    { intros esc n.
      destruct (emitDelta_tracked
                  (set_scratch d (stage d) (collectingBuffer d ++ [c]) esc n) F)
        as (ns & cur' & E1 & E2 & E3 & E4 & E5 & E6); cbn; auto.
      - now apply tracked_grow.
      - exists cur', false. rewrite E1. cbn in E2.
        split; [exact E2|]. split; [exact E3|]. split; [exact E4|].
        split; [exact E6|discriminate]. }
    assert (Hgrow: forall esc n,
               exists cur' done,
                 step_out F (currentValue d)
                   (snd (set_scratch d (stage d) (collectingBuffer d ++ [c]) esc n,
                         @nil Notification)) cur' done
                 /\ currentValue
                      (fst (set_scratch d (stage d) (collectingBuffer d ++ [c]) esc n,
                            @nil Notification)) = cur'
                 /\ value_tracked
                      (fst (set_scratch d (stage d) (collectingBuffer d ++ [c]) esc n,
                            @nil Notification))
                 /\ field
                      (fst (set_scratch d (stage d) (collectingBuffer d ++ [c]) esc n,
                            @nil Notification)) = F
                 /\ (done = true ->
                     stage (fst (set_scratch d (stage d)
                                   (collectingBuffer d ++ [c]) esc n,
                                 @nil Notification)) = Complete)).
    { intros esc n. apply Hquiet; cbn; auto. now apply tracked_grow. }
    unfold processValueChar.
    destruct (0 <? unicodeDigitsRemaining d).
    { destruct (unicodeDigitsRemaining d - 1 =? 0); [apply Hemit|apply Hgrow]. }
    destruct (escapeActive d).
    { destruct (c =? letter_u)%N; [apply Hgrow|apply Hemit]. }
    destruct (c =? backslash)%N; [apply Hgrow|].
    destruct (c =? quote)%N; [|apply Hemit].
    destruct (finalizeValue_tracked d F HF Hs Htr)
      as (cur' & done & E1 & E2 & E3 & E4 & E5).
    exists cur', done.
    split; [exact E1|]. split; [exact E2|]. split; [exact E3|].
    split; [exact E5|]. intros _. exact E4.
  - now apply Hquiet.
Qed.

Lemma deltas_cons_delta f v full ns :
  deltas (OnDelta f v full :: ns) = v ++ deltas ns.
Proof. reflexivity. Qed.

(** Any input keeps the tracking; the notifications are coherent and end
    with the only completion, if there is one. *)
Lemma processLoop_tracked F s : forall d,
  field d = F -> value_tracked d ->
  coherent F (currentValue d) (snd (processLoop d s))
  /\ currentValue (fst (processLoop d s)) =
     currentValue d ++ deltas (snd (processLoop d s))
  /\ value_tracked (fst (processLoop d s))
  /\ field (fst (processLoop d s)) = F
  /\ (completions (snd (processLoop d s)) = []
      \/ (stage (fst (processLoop d s)) = Complete
          /\ exists ns0,
               snd (processLoop d s) =
               ns0 ++ [OnComplete F (currentValue (fst (processLoop d s)))]
               /\ completions ns0 = [])).
Proof.
  induction s as [|c s IH]; intros d HF Htr.
  - cbn. rewrite app_nil_r. auto 10.
  - cbn [processLoop]. destruct (stage_eqb (stage d) Complete) eqn:Es.
    { cbn. rewrite app_nil_r. auto 10. }
    destruct (processChar_tracked d c F HF Htr)
      as (cur1 & done & Hout & Hcur & Htr1 & HF1 & Hdone).
    destruct (processChar d c) as [d1 n1]. cbn [fst snd] in *.
    specialize (IH d1 HF1 Htr1).
    destruct (processLoop d1 s) as [d2 n2] eqn:E2. cbn [fst snd] in *.
    destruct IH as (I1 & I2 & I3 & I4 & I5).
    revert Hcur Hdone. destruct Hout as [|v Hv| |v Hv]; intros Hcur Hdone.
    + cbn [app]. rewrite Hcur in *. auto 10.
    + rewrite Hcur in *. cbn [app coherent]. rewrite deltas_cons_delta.
      split; [repeat split; auto|]. split; [now rewrite I2, app_assoc|].
      split; [exact I3|]. split; [exact I4|].
      destruct I5 as [I5|(I5 & ns0 & I6 & I7)]; [left; exact I5|].
      right. split; [exact I5|]. exists (OnDelta F v (currentValue d ++ v) :: ns0).
      split; [now rewrite I6|exact I7].
    + rewrite (processLoop_complete d1 s (Hdone eq_refl)) in E2.
      inversion E2; subst d2 n2.
      cbn. rewrite app_nil_r. split; [repeat split; auto|]. split; [exact Hcur|].
      split; [exact Htr1|]. split; [exact HF1|].
      right. split; [now apply Hdone|]. exists []. now rewrite Hcur.
    + rewrite (processLoop_complete d1 s (Hdone eq_refl)) in E2.
      inversion E2; subst d2 n2.
      cbn. rewrite !app_nil_r. split; [repeat split; auto|].
      split; [exact Hcur|].
      split; [exact Htr1|]. split; [exact HF1|].
      right. split; [now apply Hdone|].
      exists [OnDelta F v (currentValue d ++ v)]. now rewrite Hcur.
Qed.

Lemma tracked_new F : value_tracked (newDecoder F).
Proof. split; reflexivity. Qed.

(** X1.  Whatever is fed to a fresh decoder, well-formed or not, the deltas
    it has emitted concatenate to the value it holds, the emitted length
    is the length of that value, every delta is non-empty and each
    [fullValue] is the concatenation of the deltas so far. *)
Theorem deltas_always_rebuild_value F chunks :
  let '(d, ns) := feed (newDecoder F) chunks in
  deltas ns = value d
  /\ lastEmittedLength d = length (value d)
  /\ coherent F [] ns.
Proof.
  rewrite feed_concat.
  destruct (processLoop_tracked F (concat chunks) (newDecoder F) eq_refl
              (tracked_new F)) as (H1 & H2 & (H3 & _) & _).
  destruct (processLoop (newDecoder F) (concat chunks)) as [d ns].
  cbn [fst snd] in *. unfold value. rewrite H2.
  split; [reflexivity|]. split; [now rewrite <- H2|exact H1].
Qed.

(** X2.  Whatever is fed to a fresh decoder, it notifies at most one
    completion; when it does, the decoder is [Complete], the completion is
    the last notification and it carries the value the decoder holds. *)
Theorem at_most_one_completion F chunks :
  let '(d, ns) := feed (newDecoder F) chunks in
  completions ns = []
  \/ (stage d = Complete
      /\ completions ns = [value d]
      /\ exists ns0, ns = ns0 ++ [OnComplete F (value d)]
                     /\ completions ns0 = []).
Proof.
  rewrite feed_concat.
  destruct (processLoop_tracked F (concat chunks) (newDecoder F) eq_refl
              (tracked_new F)) as (_ & _ & _ & _ & H).
  destruct (processLoop (newDecoder F) (concat chunks)) as [d ns].
  cbn [fst snd] in *. destruct H as [H|(H1 & ns0 & H2 & H3)]; [now left|].
  right. split; [exact H1|]. split; [|now exists ns0].
  rewrite H2. clear - H3.
  induction ns0 as [|[f dl fv|f v] ns0 IH]; cbn in *; auto; discriminate.
Qed.

(** X3.  When the key token of a quote-free field name occurs nowhere in
    the text, the decoder notifies nothing, holds the empty value and is
    still searching. *)
Theorem absent_key_is_silent F chunks :
  quote_free F = true ->
  occursb (keyPatternOf F) (concat chunks) = false ->
  let '(d, ns) := feed (newDecoder F) chunks in
  ns = [] /\ stage d = SearchingKey /\ value d = []
  /\ keyIndex d < length (keyPatternOf F).
Proof.
  intros HF Hocc. rewrite feed_concat.
  destruct (search_invariant F HF _ Hocc) as (k & Hrun & Hk & _).
  rewrite Hrun. repeat split. exact Hk.
Qed.

Lemma absent_key_is_silent_witness :
  let chunks := [jsq "{'comm"; jsq "and ':'ls','cmd':'x'}"] in
  quote_free (js "command") = true
  /\ occursb (keyPatternOf (js "command")) (concat chunks) = false
  /\ snd (feed (newDecoder (js "command")) chunks) = []
  /\ stage (fst (feed (newDecoder (js "command")) chunks)) = SearchingKey.
Proof.
  intro chunks.
  assert (H1 : quote_free (js "command") = true) by (vm_compute; reflexivity).
  assert (H2 : occursb (keyPatternOf (js "command")) (concat chunks) = false)
    by (vm_compute; reflexivity).
  pose proof (absent_key_is_silent (js "command") chunks H1 H2) as G.
  split; [exact H1|]. split; [exact H2|].
  destruct (feed (newDecoder (js "command")) chunks) as [d ns].
  destruct G as (G1 & G2 & _). auto.
Defined.

(** An escape that is still pending is buffered and notifies nothing. *)
Lemma pending_escape_is_buffered F k buf last cur p :
  pending_escape p ->
  exists esc digits,
    processLoop (collecting F k buf false 0 last cur) p =
    (collecting F k (buf ++ p) esc digits last cur, []).
Proof.
  intros [->|[->|(ds & -> & L)]].
  - exists false, 0. now rewrite app_nil_r.
  - exists true, 0. rewrite loop_collecting, value_backslash. reflexivity.
  - rewrite loop_collecting, value_backslash, loop_collecting, value_escape_u.
    destruct ds as [|h1 [|h2 [|h3 [|h4 ds]]]]; simpl in L; try lia.
    + exists true, 4. rewrite <- app_assoc. reflexivity.
    + exists true, 3. rewrite loop_collecting, value_digit. cbn [Nat.eqb].
      rewrite <- !app_assoc. reflexivity.
    + exists true, 2. rewrite loop_collecting, value_digit. cbn [Nat.eqb].
      rewrite loop_collecting, value_digit. cbn [Nat.eqb].
      rewrite <- !app_assoc. reflexivity.
    + exists true, 1. rewrite loop_collecting, value_digit. cbn [Nat.eqb].
      rewrite loop_collecting, value_digit. cbn [Nat.eqb].
      rewrite loop_collecting, value_digit. cbn [Nat.eqb].
      rewrite <- !app_assoc. reflexivity.
Qed.

(** X4.  When the stream stops inside the value, after a well-formed run
    of characters and escapes and possibly in the middle of an escape,
    the deltas are exactly what the complete part denotes: no part of
    the unfinished escape has been emitted, nothing is completed, and the
    decoder is still collecting. *)
Theorem unfinished_escape_is_withheld F pre ws1 ws2 raw v p chunks :
  quote_free F = true ->
  occursb (keyPatternOf F) (pre ++ quote :: F) = false ->
  forallb is_js_whitespace ws1 = true ->
  forallb is_js_whitespace ws2 = true ->
  JSON_parse_quoted raw = Some v ->
  pending_escape p ->
  concat chunks =
    pre ++ keyPatternOf F ++ ws1 ++ [colon] ++ ws2 ++ [quote] ++ raw ++ p ->
  let '(d, ns) := feed (newDecoder F) chunks in
  deltas ns = v /\ completions ns = [] /\ stage d = Collecting
  /\ value d = v /\ collectingBuffer d = raw ++ p.
Proof.
  intros HF Hocc Hw1 Hw2 Hparse Hp Htext.
  apply body_of_parse in Hparse.
  destruct (collect_body F 0 raw v Hparse [] [] body_nil)
    as (ns & Hrun & Hd & Hc & _).
  simpl in Hrun.
  destruct (pending_escape_is_buffered F 0 raw (length v) v p Hp)
    as (esc & digits & Hpend).
  assert (Hall: feed (newDecoder F) chunks =
                (collecting F 0 (raw ++ p) esc digits (length v) v,
                 [] ++ [] ++ [] ++ [] ++ [] ++ ns ++ [])).
  { rewrite feed_concat, Htext, app_assoc.
    eapply loop_seq; [exact (search_finds_first F HF pre Hocc)|].
    eapply loop_seq; [exact (skip_after_key F ws1 0 Hw1)|].
    eapply (loop_seq _ [colon]); [reflexivity|].
    eapply loop_seq; [exact (skip_before_string F ws2 0 Hw2)|].
    eapply (loop_seq _ [quote]); [reflexivity|].
    eapply loop_seq; [exact Hrun|]. exact Hpend. }
  rewrite Hall. cbn [app]. rewrite app_nil_r. repeat split; auto.
Qed.

Lemma unfinished_escape_is_withheld_witness :
  let chunks := [jsq "{'x': 'ab\n"; jsq "c\u00"; jsq "4"] in
  pending_escape (jsq "\u004")
  /\ JSON_parse_quoted (jsq "ab\nc") = Some (js "ab" ++ [10%N] ++ js "c")
  /\ deltas (snd (feed (newDecoder (js "x")) chunks)) = js "ab" ++ [10%N] ++ js "c"
  /\ completions (snd (feed (newDecoder (js "x")) chunks)) = [].
Proof.
  intro chunks.
  assert (Hp : pending_escape (jsq "\u004")).
  { right. right. exists (js "004"). split; [reflexivity|vm_compute; lia]. }
  assert (Hv : JSON_parse_quoted (jsq "ab\nc") = Some (js "ab" ++ [10%N] ++ js "c"))
    by (vm_compute; reflexivity).
  assert (H1 : quote_free (js "x") = true) by (vm_compute; reflexivity).
  assert (H2 : occursb (keyPatternOf (js "x")) (js "{" ++ quote :: js "x") = false)
    by (vm_compute; reflexivity).
  assert (H3 : forallb is_js_whitespace (js " ") = true) by (vm_compute; reflexivity).
  assert (H5 : concat chunks =
               js "{" ++ keyPatternOf (js "x") ++ [] ++ [colon] ++ js " "
                  ++ [quote] ++ jsq "ab\nc" ++ jsq "\u004")
    by (vm_compute; reflexivity).
  pose proof (unfinished_escape_is_withheld (js "x") (js "{") [] (js " ")
                (jsq "ab\nc") _ (jsq "\u004") chunks H1 H2 eq_refl H3 Hv Hp H5) as G.
  destruct (feed (newDecoder (js "x")) chunks) as [d ns].
  destruct G as (G1 & G2 & _). auto.
Defined.

(** The key index stays inside the key pattern. *)
Lemma key_index_step d c :
  keyIndex d < length (keyPattern d) ->
  keyIndex (fst (processChar d c)) < length (keyPattern (fst (processChar d c)))
  /\ field (fst (processChar d c)) = field d.
Proof.
  intros H.
  assert (L2: 1 < length (keyPattern d)).
  { unfold keyPattern, keyPatternOf. cbn. rewrite length_app. cbn. lia. }
  assert (Hk: forall d0, field d0 = field d -> keyIndex d0 < length (keyPattern d) ->
            keyIndex (processKeyChar d0 c) < length (keyPattern d)
            /\ field (processKeyChar d0 c) = field d).
  { intros d0 Hf H0. unfold processKeyChar.
    replace (keyPattern d0) with (keyPattern d) by (unfold keyPattern; now rewrite Hf).
    destruct (index_is (keyPattern d) (keyIndex d0) c).
    - destruct (S (keyIndex d0) =? length (keyPattern d)) eqn:E;
        cbn [keyIndex field set_search]; split; auto; try lia.
      apply Nat.eqb_neq in E. lia.
    - cbn [keyIndex field set_search]. split; auto.
      destruct (index_is (keyPattern d) 0 c); lia. }
  assert (Hsame: forall d', field d' = field d ->
             keyIndex d' < length (keyPattern d) ->
             keyIndex d' < length (keyPattern d') /\ field d' = field d).
  { intros d' Hf Hk'. split; auto. unfold keyPattern in *. now rewrite Hf. }
  assert (Hemit: forall d0, field d0 = field d -> keyIndex d0 = keyIndex d ->
             keyIndex (fst (emitDelta d0)) < length (keyPattern (fst (emitDelta d0)))
             /\ field (fst (emitDelta d0)) = field d).
  { intros d0 Hf Hk0. destruct (emitDelta_scratch d0) as (E1 & _ & E3 & _).
    apply Hsame; congruence. }
  unfold processChar. destruct (stage d); cbn [fst].
  - destruct (Hk d eq_refl H) as [A B]. apply Hsame; auto.
  - unfold processPostKeyChar. destruct (c =? colon)%N; [now apply Hsame|].
    destruct (is_js_whitespace c); [now apply Hsame|].
    unfold resetSearchAndReprocess.
    destruct (Hk (set_search d SearchingKey 0) eq_refl) as [A B];
      [cbn [keyIndex set_search]; lia|].
    apply Hsame; auto.
  - unfold processStringStartChar.
    destruct (is_js_whitespace c); [now apply Hsame|].
    destruct (c =? quote)%N; [now apply Hsame|].
    unfold resetSearchAndReprocess.
    destruct (Hk (set_search d SearchingKey 0) eq_refl) as [A B];
      [cbn [keyIndex set_search]; lia|].
    apply Hsame; auto.
  - unfold processValueChar.
    destruct (0 <? unicodeDigitsRemaining d).
    { destruct (unicodeDigitsRemaining d - 1 =? 0);
        [now apply Hemit|now apply Hsame]. }
    destruct (escapeActive d).
    { destruct (c =? letter_u)%N; [now apply Hsame|now apply Hemit]. }
    destruct (c =? backslash)%N; [now apply Hsame|].
    destruct (c =? quote)%N; [|now apply Hemit].
    unfold finalizeValue.
    destruct (JSON_parse_quoted (collectingBuffer d)) as [v|].
    + destruct (lastEmittedLength d <? length v); now apply Hsame.
    + now apply Hsame.
  - now apply Hsame.
Qed.

(** X5.  Whatever is fed to a fresh decoder, its key index stays inside the
    key pattern, so the expected character it compares against always
    exists, and its field name never changes. *)
Theorem key_index_in_bounds F chunks :
  let d := fst (feed (newDecoder F) chunks) in
  field d = F
  /\ keyIndex d < length (keyPattern d)
  /\ exists expected, nth_error (keyPattern d) (keyIndex d) = Some expected.
Proof.
  cbv zeta. rewrite feed_concat.
  assert (G: forall s d, keyIndex d < length (keyPattern d) ->
             keyIndex (fst (processLoop d s)) < length (keyPattern (fst (processLoop d s)))
             /\ field (fst (processLoop d s)) = field d).
  { induction s as [|c s IH]; intros d H; [auto|].
    cbn [processLoop]. destruct (stage_eqb (stage d) Complete); [auto|].
    destruct (key_index_step d c H) as [A B].
    destruct (processChar d c) as [d1 n1]. cbn [fst] in *.
    destruct (IH d1 A) as [A' B']. destruct (processLoop d1 s) as [d2 n2].
    cbn [fst] in *. split; [exact A'|congruence]. }
  destruct (G (concat chunks) (newDecoder F)) as [A B].
  { unfold keyPattern, keyPatternOf. cbn. lia. }
  split; [exact B|]. split; [exact A|].
  destruct (nth_error _ _) eqn:E; [eauto|].
  apply nth_error_None in E. lia.
Qed.

Lemma reset_to_fresh F stg c :
  (c =? quote)%N = false ->
  resetSearchAndReprocess (mkDecoder F stg 0 [] false 0 0 []) c = newDecoder F.
Proof.
  intros Hq. unfold resetSearchAndReprocess, processKeyChar, index_is.
  cbn. unfold char_eqb. now rewrite Hq.
Qed.

(** X6.  A key token that is not followed by a string value is a false
    positive that leaves no trace: when the first occurrence of the key
    token is followed, after optional whitespace, either by a character
    that is neither whitespace nor a colon nor a quote, or by a colon,
    optional whitespace and a character that is neither whitespace nor a
    quote, then the decoder is back in its initial state and decodes the
    rest of the text as if it were the whole text. *)
Theorem false_positive_key_leaves_no_trace F pre ws1 gap c rest chunks :
  quote_free F = true ->
  occursb (keyPatternOf F) (pre ++ quote :: F) = false ->
  forallb is_js_whitespace ws1 = true ->
  (gap = [] /\ (c =? colon)%N = false
   \/ exists ws2, gap = colon :: ws2 /\ forallb is_js_whitespace ws2 = true) ->
  is_js_whitespace c = false ->
  (c =? quote)%N = false ->
  concat chunks = pre ++ keyPatternOf F ++ ws1 ++ gap ++ [c] ++ rest ->
  feed (newDecoder F) chunks = feed (newDecoder F) [rest].
Proof.
  intros HF Hocc Hw1 Hgap Hc Hq Htext.
  assert (Hr: feed (newDecoder F) [rest] = processLoop (newDecoder F) rest).
  { rewrite feed_concat. cbn [concat]. now rewrite app_nil_r. }
  rewrite Hr, feed_concat, Htext, app_assoc.
  assert (Hhead: processLoop (newDecoder F)
                   ((pre ++ keyPatternOf F) ++ ws1 ++ gap ++ [c]) =
                 (newDecoder F, [])).
  { apply (loop_seq _ _ _ _ [] _ [] (search_finds_first F HF pre Hocc)).
    apply (loop_seq _ _ _ _ [] _ [] (skip_after_key F ws1 0 Hw1)).
    destruct Hgap as [[-> Hcol]|(ws2 & -> & Hw2)].
    - cbn [app processLoop stage stage_eqb]. unfold processChar. cbn [stage].
      unfold processPostKeyChar. rewrite Hcol, Hc.
      now rewrite (reset_to_fresh F AfterKey c Hq).
    - change ((colon :: ws2) ++ [c]) with ([colon] ++ ws2 ++ [c]).
      apply (loop_seq _ [colon] _
               (mkDecoder F WaitingForStringStart 0 [] false 0 0 []) [] _ []);
        [reflexivity|].
      apply (loop_seq _ _ _ _ [] _ [] (skip_before_string F ws2 0 Hw2)).
      cbn [processLoop stage stage_eqb]. unfold processChar. cbn [stage].
      unfold processStringStartChar. rewrite Hc, Hq.
      now rewrite (reset_to_fresh F WaitingForStringStart c Hq). }
  replace ((pre ++ keyPatternOf F) ++ ws1 ++ gap ++ [c] ++ rest)
    with (((pre ++ keyPatternOf F) ++ ws1 ++ gap ++ [c]) ++ rest)
    by (now rewrite <- !app_assoc).
  rewrite processLoop_app, Hhead.
  destruct (processLoop (newDecoder F) rest). reflexivity.
Qed.

Lemma false_positive_key_leaves_no_trace_witness :
  let chunks := [jsq "{'x': 5"; jsq ", 'y':'x','x':'v'}"] in
  quote_free (js "x") = true
  /\ feed (newDecoder (js "x")) chunks =
     feed (newDecoder (js "x")) [jsq ", 'y':'x','x':'v'}"].
Proof.
  intro chunks.
  assert (H1 : quote_free (js "x") = true) by (vm_compute; reflexivity).
  assert (H2 : occursb (keyPatternOf (js "x")) (js "{" ++ quote :: js "x") = false)
    by (vm_compute; reflexivity).
  assert (H3 : forallb is_js_whitespace (js " ") = true) by (vm_compute; reflexivity).
  assert (H4 : is_js_whitespace 53%N = false) by (vm_compute; reflexivity).
  assert (H5 : concat chunks =
               js "{" ++ keyPatternOf (js "x") ++ [] ++ (colon :: js " ") ++ [53%N]
                  ++ jsq ", 'y':'x','x':'v'}")
    by (vm_compute; reflexivity).
  split; [exact H1|].
  apply (false_positive_key_leaves_no_trace (js "x") (js "{") [] (colon :: js " ")
           53%N (jsq ", 'y':'x','x':'v'}") chunks H1 H2 eq_refl); auto.
  right. exists (js " "). split; [reflexivity|exact H3].
Defined.

(** X7.  A decoder collects at most one value: once it is collecting or
    complete, no input brings it back to searching for the key. *)
Theorem collecting_is_never_left d chunks :
  stage d = Collecting \/ stage d = Complete ->
  stage (fst (feed d chunks)) = Collecting
  \/ stage (fst (feed d chunks)) = Complete.
Proof.
  rewrite feed_concat. generalize (concat chunks). intros s. revert d.
  induction s as [|c s IH]; intros d H; [exact H|].
  cbn [processLoop]. destruct (stage_eqb (stage d) Complete) eqn:E; [exact H|].
  destruct H as [H|H]; [|rewrite H in E; discriminate].
  assert (H1: stage (fst (processChar d c)) = Collecting
              \/ stage (fst (processChar d c)) = Complete).
  { unfold processChar. rewrite H. unfold processValueChar.
    assert (Hemit: forall d0, stage d0 = Collecting ->
               stage (fst (emitDelta d0)) = Collecting
               \/ stage (fst (emitDelta d0)) = Complete).
    { intros d0 H0. destruct (emitDelta_scratch d0) as (_ & E2 & _).
      left. congruence. }
    destruct (0 <? unicodeDigitsRemaining d).
    { destruct (unicodeDigitsRemaining d - 1 =? 0); [apply Hemit|left]; exact H. }
    destruct (escapeActive d).
    { destruct (c =? letter_u)%N; [left|apply Hemit]; exact H. }
    destruct (c =? backslash)%N; [left; exact H|].
    destruct (c =? quote)%N; [|apply Hemit; exact H].
    right. unfold finalizeValue.
    destruct (JSON_parse_quoted (collectingBuffer d)) as [v|]; [|reflexivity].
    destruct (lastEmittedLength d <? length v); reflexivity. }
  destruct (processChar d c) as [d1 n1]. cbn [fst] in H1.
  specialize (IH d1 H1). destruct (processLoop d1 s). exact IH.
Qed.

Lemma collecting_is_never_left_witness :
  let d := collecting (js "x") 0 (js "a") false 0 1 (js "a") in
  (stage d = Collecting \/ stage d = Complete)
  /\ (stage (fst (feed d [jsq "b','x':'c'"; jsq ",'x':'d'"])) = Collecting
      \/ stage (fst (feed d [jsq "b','x':'c'"; jsq ",'x':'d'"])) = Complete).
Proof.
  intro d.
  assert (H : stage d = Collecting \/ stage d = Complete) by (left; reflexivity).
  split; [exact H|].
  exact (collecting_is_never_left d _ H).
Defined.

End DecoderMore.

(** ** The execute stream as the client and the database see it *)

Module StreamSummaryFacts.

Import ExecuteStream PipelineSpec PipelineFacts StreamSummary.

Lemma enqueued_app t1 t2 : enqueued (t1 ++ t2) = enqueued t1 ++ enqueued t2.
Proof. induction t1 as [|[] t1 IH]; cbn; auto. now rewrite IH. Qed.

Lemma bulkWritten_app t1 t2 :
  bulkWritten (t1 ++ t2) = bulkWritten t1 ++ bulkWritten t2.
Proof. induction t1 as [|[] t1 IH]; cbn; auto. now rewrite IH. Qed.






Lemma flush_log_observed w s :
  enqueued (flush_log w s) = []
  /\ summaries (flush_log w s) = []
  /\ bulkWritten (flush_log w s) =
     match eventBatch s with [] => [] | _ :: _ => [eventBatch s] end.
Proof.
  unfold flush_log. destruct (eventBatch s); [auto|].
  destruct (createManyRejects w (bulkWrites s)); auto.
Qed.

Lemma finalize_log_observed w cid s :
  enqueued (finalize_log w cid s) = []
  /\ bulkWritten (finalize_log w cid s) = []
  /\ summaries (finalize_log w cid s) =
     [(cid, finalOutputOf s, (clock w (clockReads s) - startTime s)%Z,
       tokensIn s, tokensOut s)].
Proof. unfold finalize_log. destruct (updateRejects w); auto. Qed.

Lemma same_buffers_refl s : same_buffers s s.
Proof. unfold same_buffers. auto 10. Qed.

Lemma same_buffers_trans a b c :
  same_buffers a b -> same_buffers b c -> same_buffers a c.
Proof.
  unfold same_buffers. intros (A1 & A2 & A3 & A4 & A5 & A6) (B1 & B2 & B3 & B4 & B5 & B6).
  repeat split; congruence.
Qed.

Lemma accumulate_same event a b :
  same_buffers a b -> same_buffers (accumulate event a) (accumulate event b).
Proof.
  unfold same_buffers. intros (A1 & A2 & A3 & A4 & A5 & A6).
  destruct event as [x|m|m [e|] [i|] [o|]]; cbn;
    try destruct (negb (e =? 0)%Z); cbn; repeat split; congruence.
Qed.

Lemma accumulateAll_same events : forall a b,
  same_buffers a b ->
  same_buffers (accumulateAll events a) (accumulateAll events b).
Proof.
  induction events as [|e events IH]; intros a b H; [exact H|].
  cbn. apply IH. now apply accumulate_same.
Qed.

Lemma accumulate_clock event s :
  clockReads (accumulate event s) = clockReads s
  /\ lastFlush (accumulate event s) = lastFlush s.
Proof.
  destruct event as [x|m|m [e|] [a|] [b|]]; cbn; auto;
    destruct (negb (e =? 0)%Z); auto.
Qed.

Lemma after_flush_clock s : clockReads (after_flush s) = clockReads s.
Proof. unfold after_flush. now destruct (eventBatch s). Qed.

(** One iteration, observed: one payload, at most one non-empty batch,
    and the buffers of [accumulate]. *)
Lemma onEvent_observed w sid event s :
  exists s' t,
    onEvent w sid event s = (tt, s', t)
    /\ same_buffers (accumulate event s) s'
    /\ enqueued t = [EventPayload event]
    /\ Forall (fun b => b <> []) (bulkWritten t)
    /\ Forall loop_effect t
    /\ written t ++ eventBatch s' = eventBatch s ++ [mkPersisted sid event]
    /\ clockReads s' = S (clockReads s)
    /\ ((clock w (clockReads s) - clock w 1 <= 200)%Z ->
        lastFlush s = clock w 1 ->
        bulkWritten t = [] /\ lastFlush s' = clock w 1).
Proof.
  unfold onEvent, bind, tell, modify, get, dateNow, ret.
  cbn -[accumulate flushEvents Z.sub Z.ltb].
  set (s0 := set_eventBatch (eventBatch s ++ [mkPersisted sid event]) s).
  assert (H0: same_buffers (accumulate event s) (accumulate event s0)).
  { apply accumulate_same. unfold same_buffers, s0. cbn. auto 10. }
  destruct (accumulate_keeps event s0) as [Eb Et].
  destruct (accumulate_clock event s0) as [Ec El].
  match goal with |- context [if ?b then _ else _] => destruct b eqn:Enow end.
  - rewrite flushEvents_run.
    set (s1 := set_clockReads _ (accumulate event s0)).
    destruct (flush_log_observed w s1) as (F1 & F2 & F3).
    eexists _, _. split; [reflexivity|].
    split; [|split; [|split; [|split; [|split; [|split]]]]].
    6:{ cbn [clockReads set_lastFlush]. rewrite after_flush_clock.
        unfold s1. cbn [clockReads set_clockReads]. now rewrite Ec. }
    6:{ intros Hfast Hlast. exfalso. apply Z.ltb_lt in Enow.
        rewrite El, Ec in Enow. unfold s0 in Enow. cbn in Enow.
        rewrite Hlast in Enow. lia. }
    + apply (same_buffers_trans _ _ _ H0).
      apply (same_buffers_trans _ s1); [unfold same_buffers, s1; cbn; auto 10|].
      apply (same_buffers_trans _ (after_flush s1)); [apply after_flush_same|].
      unfold same_buffers. cbn. auto 10.
    + cbn [app enqueued]. now rewrite app_nil_r, F1.
    + cbn [app bulkWritten]. rewrite app_nil_r, F3.
      assert (Hb: eventBatch s1 <> []).
      { unfold s1. cbn [eventBatch set_clockReads]. rewrite Eb. unfold s0. cbn.
        destruct (eventBatch s); discriminate. }
      destruct (eventBatch s1); [congruence|]. repeat constructor. discriminate.
    + constructor; [exact I|]. cbn [app]. rewrite app_nil_r.
      apply loop_effect_flush.
    + cbn [app written]. rewrite app_nil_r, written_flush.
      cbn [eventBatch set_lastFlush]. rewrite after_flush_batch, app_nil_r.
      unfold s1. cbn [eventBatch set_clockReads]. exact Eb.
  - eexists _, _. split; [reflexivity|].
    split; [|split; [|split; [|split; [|split; [|split]]]]].
    + apply (same_buffers_trans _ _ _ H0). unfold same_buffers. cbn. auto 10.
    + reflexivity.
    + constructor.
    + repeat constructor.
    + cbn [app written eventBatch set_clockReads]. exact Eb.
    + cbn [clockReads set_clockReads]. now rewrite Ec.
    + intros _ Hlast. split; [reflexivity|].
      cbn [lastFlush set_clockReads]. rewrite El. exact Hlast.
Qed.

Lemma forAwait_observed w sid events : forall s,
  exists s' t,
    forAwait w sid events s = (tt, s', t)
    /\ same_buffers (accumulateAll events s) s'
    /\ enqueued t = map EventPayload events
    /\ Forall (fun b => b <> []) (bulkWritten t)
    /\ Forall loop_effect t
    /\ written t ++ eventBatch s' =
       eventBatch s ++ map (mkPersisted sid) events
    /\ ((forall i, i < length events ->
                   (clock w (clockReads s + i) - clock w 1 <= 200)%Z) ->
        lastFlush s = clock w 1 ->
        bulkWritten t = [] /\ lastFlush s' = clock w 1).
Proof.
  induction events as [|event more IH]; intros s.
  - exists s, []. cbn. rewrite app_nil_r.
    split; [reflexivity|]. split; [apply same_buffers_refl|]. auto 10.
  - destruct (onEvent_observed w sid event s)
      as (s1 & t1 & H1 & B1 & Q1 & N1 & F1 & W1 & C1 & X1).
    destruct (IH s1) as (s2 & t2 & H2 & B2 & Q2 & N2 & F2 & W2 & X2).
    exists s2, (t1 ++ t2). cbn [forAwait]. unfold bind. rewrite H1, H2.
    split; [reflexivity|]. split; [|split; [|split; [|split; [|split]]]].
    6:{ intros Hfast Hlast.
        assert (A0: (clock w (clockReads s) - clock w 1 <= 200)%Z).
        { specialize (Hfast 0). rewrite Nat.add_0_r in Hfast.
          apply Hfast. cbn. lia. }
        destruct (X1 A0 Hlast) as [Y1 Z1].
        assert (A1: forall i, i < length more ->
                      (clock w (clockReads s1 + i) - clock w 1 <= 200)%Z).
        { intros i Hi. rewrite C1. specialize (Hfast (S i)).
          replace (clockReads s + S i) with (S (clockReads s) + i) in Hfast by lia.
          apply Hfast. cbn. lia. }
        destruct (X2 A1 Z1) as [Y2 Z2].
        now rewrite bulkWritten_app, Y1, Y2. }
    + cbn. apply (same_buffers_trans _ (accumulateAll more s1)); [|exact B2].
      now apply accumulateAll_same.
    + now rewrite enqueued_app, Q1, Q2.
    + rewrite bulkWritten_app. apply Forall_app. auto.
    + apply Forall_app. auto.
    + rewrite written_app, <- app_assoc, W2, app_assoc, W1, <- app_assoc.
      reflexivity.
Qed.

(** Every run, taken apart. *)
Lemma start_anatomy w sid cid :
  exists pre sb post,
    start w sid cid =
    (set_clockReads (S (clockReads (after_flush sb))) (after_flush sb),
     pre ++ flush_log w sb ++ finalize_log w cid (after_flush sb)
         ++ post ++ [ControllerClose])
    /\ Forall loop_effect pre
    /\ Forall closing_effect post
    /\ same_buffers (endState w) sb
    /\ enqueued pre ++ enqueued post =
       map EventPayload (consumed w) ++ [terminalPayload w]
    /\ Forall (fun b => b <> []) (bulkWritten pre)
    /\ written pre ++ eventBatch sb = map (mkPersisted sid) (consumed w)
    /\ (fast_clock w -> bulkWritten pre = []).
Proof.
  unfold start, tryBlock, endState, terminalPayload, failure, consumed, bind, tell.
  destruct (historyRejects w) as [error|] eqn:Eh.
  - rewrite catchBlock_run.
    exists [Enqueue (ErrorPayload (errorMessageOf error))],
      (set_errorBuffer
         (appendErrorText (errorBuffer (initialSession w))
                          (StringPayload (errorMessageOf error)))
         (set_encounteredError true (initialSession w))),
      [].
    split; [|split; [|split; [|split; [|split; [|split; [|split]]]]]].
    + f_equal; try reflexivity;
        repeat (cbn [app]; rewrite <- app_assoc); cbn [app]; reflexivity.
    + repeat constructor.
    + constructor.
    + apply same_buffers_refl.
    + reflexivity.
    + constructor.
    + reflexivity.
    + reflexivity.
  - destruct (forAwait_observed w sid (produced w) (initialSession w))
      as (s1 & t1 & H1 & B1 & Q1 & N1 & F1 & W1 & X1).
    rewrite H1. destruct (producerRaises w) as [error|].
    + rewrite catchBlock_run.
      exists (t1 ++ [Enqueue (ErrorPayload (errorMessageOf error))]),
        (set_errorBuffer
           (appendErrorText (errorBuffer s1)
                            (StringPayload (errorMessageOf error)))
           (set_encounteredError true s1)),
        [].
      split; [|split; [|split; [|split; [|split; [|split; [|split]]]]]].
      8:{ intros Hfast.
          assert (A: forall i, i < length (produced w) ->
                       (clock w (clockReads (initialSession w) + i)
                        - clock w 1 <= 200)%Z).
          { intros i Hi. apply Hfast. unfold consumed. rewrite Eh. cbn. lia. }
          destruct (X1 A eq_refl) as [Y1 _].
          rewrite bulkWritten_app, Y1. reflexivity. }
      * f_equal; try reflexivity;
          repeat (cbn [app]; rewrite <- app_assoc); cbn [app]; reflexivity.
      * apply Forall_app. split; [exact F1|repeat constructor].
      * constructor.
      * destruct B1 as (A1 & A2 & A3 & A4 & A5 & A6).
        unfold same_buffers. cbn. rewrite A3. auto 10.
      * rewrite enqueued_app, Q1. cbn. now rewrite app_nil_r.
      * rewrite bulkWritten_app. cbn. now rewrite app_nil_r.
      * rewrite written_app. cbn [written eventBatch set_errorBuffer
                                    set_encounteredError].
        rewrite app_nil_r. exact W1.
    + rewrite flushEvents_run, finalize_run.
      exists t1, s1, [Enqueue DonePayload].
      split; [|split; [|split; [|split; [|split; [|split; [|split]]]]]].
      8:{ intros Hfast.
          assert (A: forall i, i < length (produced w) ->
                       (clock w (clockReads (initialSession w) + i)
                        - clock w 1 <= 200)%Z).
          { intros i Hi. apply Hfast. unfold consumed. rewrite Eh. cbn. lia. }
          now destruct (X1 A eq_refl). }
      * f_equal; try reflexivity;
          repeat (cbn [app]; rewrite <- app_assoc); cbn [app]; reflexivity.
      * exact F1.
      * repeat constructor.
      * exact B1.
      * now rewrite Q1.
      * exact N1.
      * exact W1.
Qed.

Lemma appendErrorText_message b m t :
  appendErrorText b (ObjectPayload (Some m) t) = appendErrorText b (StringPayload m).
Proof. reflexivity. Qed.




Lemma or_else_empty text : or_else text [] = text.
Proof. now destruct text. Qed.



Lemma enqueued_of_run w sid cid :
  enqueued (snd (start w sid cid)) =
  map EventPayload (consumed w) ++ [terminalPayload w].
Proof.
  destruct (start_anatomy w sid cid)
    as (pre & sb & post & -> & _ & _ & _ & Q & _ & _ & _).
  cbn [snd]. rewrite !enqueued_app.
  destruct (flush_log_observed w sb) as (F1 & _).
  destruct (finalize_log_observed w cid (after_flush sb)) as (G1 & _).
  rewrite F1, G1. cbn. now rewrite app_nil_r.
Qed.













End StreamSummaryFacts.

(** ** [runExecute] behind the execute stream *)

Module AgentFacts.

Import ExecuteStream PipelineSpec PipelineFacts StreamSummary
  StreamSummaryFacts Agents.

Lemma endsWithNewline_snoc s : endsWithNewline (s ++ [10%N]) = true.
Proof. unfold endsWithNewline. now rewrite rev_app_distr. Qed.

Lemma normalizeOutput_cases rawOutput :
  normalizeOutput rawOutput <> []
  /\ endsWithNewline (normalizeOutput rawOutput) = true
  /\ (normalizeOutput rawOutput = rawOutput
      \/ normalizeOutput rawOutput = rawOutput ++ [10%N]).
Proof.
  unfold normalizeOutput. destruct rawOutput as [|c r]; cbn [length Nat.eqb].
  - split; [discriminate|]. split; [reflexivity|]. now right.
  - destruct (endsWithNewline (c :: r)) eqn:E.
    + split; [discriminate|]. split; [exact E|]. now left.
    + split; [discriminate|]. split; [|now right].
      apply (endsWithNewline_snoc (c :: r)).
Qed.


(** X13.  The text [runExecute] yields as its token is never empty and
    always ends with a line feed; it is the agent's output itself or that
    output with one line feed appended, and normalising twice changes
    nothing. *)
Theorem normalized_output_ends_with_newline rawOutput :
  normalizeOutput rawOutput <> []
  /\ endsWithNewline (normalizeOutput rawOutput) = true
  /\ (normalizeOutput rawOutput = rawOutput
      \/ normalizeOutput rawOutput = rawOutput ++ [10%N])
  /\ normalizeOutput (normalizeOutput rawOutput) = normalizeOutput rawOutput.
Proof.
  destruct (normalizeOutput_cases rawOutput) as (A1 & A2 & A3).
  repeat split; auto.
  unfold normalizeOutput at 1. rewrite A2.
  destruct (normalizeOutput rawOutput); [congruence|reflexivity].
Qed.












End AgentFacts.

(** ** The suggestion route *)

Module GenerateDetailsFacts.

Import DecoderSpec DecoderFacts DecoderInvariants DecoderMore GenerateStream
  GenerateSpec GenerateFacts GenerateDetails.

(** ** [trim] *)

Lemma trimStart_blank s : blank s = true -> trimStart s = [].
Proof.
  induction s as [|c s IH]; cbn; [reflexivity|].
  destruct (is_js_whitespace c); cbn; [exact IH|discriminate].
Qed.

Lemma trimStart_head s :
  blank s = false ->
  exists c r, trimStart s = c :: r /\ is_js_whitespace c = false.
Proof.
  induction s as [|c s IH]; cbn; [discriminate|].
  destruct (is_js_whitespace c) eqn:E; cbn.
  - exact IH.
  - intros _. now exists c, s.
Qed.

Lemma trimStart_head_or_empty s :
  trimStart s = []
  \/ exists c r, trimStart s = c :: r /\ is_js_whitespace c = false.
Proof.
  destruct (blank s) eqn:E.
  - left. now apply trimStart_blank.
  - right. now apply trimStart_head.
Qed.

Lemma trimStart_snoc l h :
  is_js_whitespace h = false -> trimStart (l ++ [h]) = trimStart l ++ [h].
Proof.
  intros H. induction l as [|c l IH]; cbn.
  - now rewrite H.
  - destruct (is_js_whitespace c); [exact IH|reflexivity].
Qed.

Lemma last_rev (l : jsstring) d : last (rev l) d = hd d l.
Proof.
  destruct l as [|x l]; [reflexivity|]. cbn [rev hd]. apply last_last.
Qed.

Lemma trim_blank s : blank s = true -> trim s = [].
Proof. intros H. unfold trim. now rewrite (trimStart_blank _ H). Qed.

Lemma trim_ends s :
  blank s = false ->
  is_js_whitespace (hd 32%N (trim s)) = false
  /\ is_js_whitespace (last (trim s) 32%N) = false.
Proof.
  intros H. destruct (trimStart_head _ H) as (c & r & E & Hc).
  unfold trim, trimEnd. rewrite E. cbn [rev].
  rewrite (trimStart_snoc _ _ Hc), rev_app_distr. cbn [rev app hd].
  split; [exact Hc|].
  change (c :: rev (trimStart (rev r)))
    with (rev [c] ++ rev (trimStart (rev r))).
  rewrite <- rev_app_distr, last_rev.
  destruct (trimStart_head_or_empty (rev r)) as [-> | (x & y & -> & Hx)];
    cbn; assumption.
Qed.

Lemma truthy_blank v : truthy v = false -> blank v = true.
Proof. destruct v; [reflexivity|discriminate]. Qed.

(** X17.  [sanitizeConfigValue] returns the fallback when the value is
    missing, empty or whitespace only; otherwise it returns the trimmed
    value, which then neither starts nor ends with a whitespace character
    (and so is not empty). *)
Theorem sanitized_value_is_trimmed_or_fallback value fallback :
  match value with
  | None => sanitizeConfigValue value fallback = fallback
  | Some v =>
      if blank v then sanitizeConfigValue value fallback = fallback
      else sanitizeConfigValue value fallback = trim v
           /\ is_js_whitespace (hd 32%N (trim v)) = false
           /\ is_js_whitespace (last (trim v) 32%N) = false
  end.
Proof.
  destruct value as [v|]; [|reflexivity].
  unfold sanitizeConfigValue.
  destruct (blank v) eqn:B.
  - rewrite (trim_blank _ B). cbn. now destruct (negb (truthy v)).
  - destruct (trim_ends _ B) as (H1 & H2).
    destruct (truthy v) eqn:T.
    + cbn [negb]. cbv zeta.
      destruct (trim v) as [|c t]; [cbn in H1; discriminate|].
      cbn [length Nat.ltb Nat.leb]. auto.
    + apply truthy_blank in T. congruence.
Qed.

(** ** What the client assembles *)

Lemma jsstring_eqb_refl a : jsstring_eqb a a = true.
Proof.
  induction a as [|x a IH]; cbn; [reflexivity|].
  unfold char_eqb. now rewrite N.eqb_refl, IH.
Qed.

Lemma jsstring_eqb_eq a : forall b, jsstring_eqb a b = true -> a = b.
Proof.
  induction a as [|x a IH]; intros [|y b] H; try discriminate; [reflexivity|].
  cbn in H. apply andb_true_iff in H. destruct H as [H1 H2].
  apply N.eqb_eq in H1. subst. f_equal. now apply IH.
Qed.

Lemma textOf_app name es1 es2 :
  textOf name (es1 ++ es2) = textOf name es1 ++ textOf name es2.
Proof.
  induction es1 as [|[f t|p| |m|] es1 IH]; cbn; auto.
  destruct (jsstring_eqb f name); [now rewrite IH, app_assoc|exact IH].
Qed.

Lemma listen_same name ns : forall latest,
  textOf name (snd (listen name latest ns)) = deltas ns.
Proof.
  induction ns as [|[f d v|f v] ns IH]; intros latest; cbn [listen].
  - reflexivity.
  - specialize (IH v). destruct (listen name v ns) as [l es].
    cbn [snd textOf] in *. rewrite jsstring_eqb_refl, IH. reflexivity.
  - apply IH.
Qed.

Lemma listen_other name other ns : forall latest,
  jsstring_eqb name other = false ->
  textOf other (snd (listen name latest ns)) = [].
Proof.
  induction ns as [|[f d v|f v] ns IH]; intros latest H; cbn [listen].
  - reflexivity.
  - specialize (IH v H). destruct (listen name v ns) as [l es].
    cbn [snd textOf] in *. now rewrite H.
  - now apply IH.
Qed.

Lemma deltas_app ns1 ns2 : deltas (ns1 ++ ns2) = deltas ns1 ++ deltas ns2.
Proof. unfold deltas. now rewrite map_app, concat_app. Qed.

(** Each parser sees the chunks as if it were alone, and the deltas sent
    for its field are the deltas it notified. *)
Lemma onStreamChunks_parsers chunks : forall st,
  commandParser (fst (onStreamChunks st chunks)) =
    fst (feed (commandParser st) chunks)
  /\ explanationParser (fst (onStreamChunks st chunks)) =
       fst (feed (explanationParser st) chunks)
  /\ textOf (js "command") (snd (onStreamChunks st chunks)) =
       deltas (snd (feed (commandParser st) chunks))
  /\ textOf (js "explanation") (snd (onStreamChunks st chunks)) =
       deltas (snd (feed (explanationParser st) chunks)).
Proof.
  induction chunks as [|chunk more IH]; intros st.
  - cbn. auto.
  - cbn [onStreamChunks feed]. unfold onStreamChunk.
    destruct (processChunk (commandParser st) chunk) as [cp ns1].
    destruct (processChunk (explanationParser st) chunk) as [ep ns2].
    pose proof (listen_same (js "command") ns1 (latestCommand st)) as C1.
    pose proof (listen_other (js "command") (js "explanation") ns1
                  (latestCommand st) eq_refl) as C2.
    pose proof (listen_same (js "explanation") ns2 (latestExplanation st)) as E1.
    pose proof (listen_other (js "explanation") (js "command") ns2
                  (latestExplanation st) eq_refl) as E2.
    destruct (listen (js "command") (latestCommand st) ns1) as [lc es1].
    destruct (listen (js "explanation") (latestExplanation st) ns2) as [le es2].
    cbn [snd] in C1, C2, E1, E2.
    specialize (IH (mkLocals lc le cp ep)).
    destruct (onStreamChunks (mkLocals lc le cp ep) more) as [st2 es].
    cbn [commandParser explanationParser fst snd] in IH.
    destruct IH as (I1 & I2 & I3 & I4).
    destruct (feed cp more) as [cp2 ms1].
    destruct (feed ep more) as [ep2 ms2].
    cbn [fst snd] in *.
    rewrite !textOf_app, !deltas_app, C1, C2, E1, E2, I3, I4, app_nil_r.
    auto.
Qed.

Lemma fresh_value F chunks :
  deltas (snd (feed (newDecoder F) chunks)) =
  value (fst (feed (newDecoder F) chunks)).
Proof.
  rewrite feed_concat.
  destruct (processLoop_tracked F (concat chunks) (newDecoder F) eq_refl
              (tracked_new F)) as (_ & H2 & _).
  unfold value. now rewrite H2.
Qed.

Lemma textOf_tail name tail :
  (forall f t, ~ In (DeltaEvent f t) tail) -> textOf name tail = [].
Proof.
  induction tail as [|[f t|p| |m|] tail IH]; intros H; cbn; auto;
    try (apply IH; intros f' t' Hin; apply (H f' t'); now right).
  exfalso. apply (H f t). now left.
Qed.

Lemma start_history_ok r :
  historyRejects r = None ->
  start r =
  snd (onStreamChunks initialLocals (chunks r))
  ++ match outcome r with
     | inl result =>
         [ResultEvent
            (finalPayload (fst (onStreamChunks initialLocals (chunks r)))
                          result);
          DoneEvent]
     | inr message => [ErrorEvent message]
     end ++ [CloseStream].
Proof.
  intros H. unfold start. rewrite H.
  destruct (onStreamChunks initialLocals (chunks r)) as [st es].
  cbn [fst snd]. now rewrite <- app_assoc.
Qed.

Lemma finalPayload_fields r result :
  finalPayload (fst (onStreamChunks initialLocals (chunks r))) result =
  mkPayload
    (or_else (value (fst (feed (newDecoder (js "command")) (chunks r))))
             (command (output result)))
    (or_else (value (fst (feed (newDecoder (js "explanation")) (chunks r))))
             (explanation (output result)))
    (usageInputTokens result) (usageOutputTokens result) (latencyMs result).
Proof.
  destruct (onStreamChunks_parsers (chunks r) initialLocals)
    as (P1 & P2 & _).
  cbn [initialLocals commandParser explanationParser] in P1, P2.
  assert (S: in_step (fst (onStreamChunks initialLocals (chunks r)))).
  { apply onStreamChunks_in_step. split; reflexivity. }
  destruct S as (S1 & S2). unfold finalPayload.
  now rewrite S1, S2, P1, P2.
Qed.

(** X18.  The two decoders of the suggestion route do not disturb each
    other, and what the client assembles agrees with the result: when the
    history read succeeds, the deltas sent for a field concatenate to the
    value a decoder for that field alone holds after the same chunks, and
    the result event, if the producer returns, carries for each field
    that concatenation, or the structured value when it is empty. *)
Theorem deltas_agree_with_the_result r :
  historyRejects r = None ->
  textOf (js "command") (start r) =
    value (fst (feed (newDecoder (js "command")) (chunks r)))
  /\ textOf (js "explanation") (start r) =
       value (fst (feed (newDecoder (js "explanation")) (chunks r)))
  /\ forall result,
       outcome r = inl result ->
       resultOf (start r) =
       Some (mkPayload
               (or_else (textOf (js "command") (start r))
                        (command (output result)))
               (or_else (textOf (js "explanation") (start r))
                        (explanation (output result)))
               (usageInputTokens result) (usageOutputTokens result)
               (latencyMs result)).
Proof.
  intros H.
  destruct (onStreamChunks_parsers (chunks r) initialLocals)
    as (P1 & P2 & T1 & T2).
  cbn [initialLocals commandParser explanationParser] in P1, P2, T1, T2.
  rewrite fresh_value in T1, T2.
  assert (Tc: textOf (js "command") (start r) =
              value (fst (feed (newDecoder (js "command")) (chunks r)))).
  { rewrite (start_history_ok _ H), textOf_app, T1.
    destruct (outcome r); cbn; now rewrite app_nil_r. }
  assert (Te: textOf (js "explanation") (start r) =
              value (fst (feed (newDecoder (js "explanation")) (chunks r)))).
  { rewrite (start_history_ok _ H), textOf_app, T2.
    destruct (outcome r); cbn; now rewrite app_nil_r. }
  split; [exact Tc|]. split; [exact Te|].
  intros result O. rewrite Tc, Te.
  rewrite (start_history_ok _ H), O.
  rewrite resultOf_after_deltas by apply onStreamChunks_deltas.
  cbn [app resultOf]. unfold finalPayload.
  assert (S: in_step (fst (onStreamChunks initialLocals (chunks r)))).
  { apply onStreamChunks_in_step. split; reflexivity. }
  destruct S as (S1 & S2). now rewrite S1, S2, P1, P2.
Qed.

Lemma deltas_agree_with_the_result_witness :
  let r := mkRun None
                 [jsq "{'command':'ls"; jsq " -la','explanation':'lists"]
                 (inl (mkResult (mkOutput (js "ls -la") (js "lists files"))
                                3 4 5)) in
  historyRejects r = None
  /\ textOf (js "command") (start r) = js "ls -la"
  /\ textOf (js "explanation") (start r) = js "lists"
  /\ resultOf (start r) =
     Some (mkPayload (js "ls -la") (js "lists") 3 4 5).
Proof.
  intro r.
  destruct (deltas_agree_with_the_result r eq_refl) as (G1 & G2 & G3).
  specialize (G3 _ eq_refl).
  split; [reflexivity|].
  assert (V1: value (fst (feed (newDecoder (js "command")) (chunks r))) =
              js "ls -la") by (vm_compute; reflexivity).
  assert (V2: value (fst (feed (newDecoder (js "explanation")) (chunks r))) =
              js "lists") by (vm_compute; reflexivity).
  rewrite V1 in G1. rewrite V2 in G2.
  split; [exact G1|]. split; [exact G2|].
  rewrite G3, G1, G2. reflexivity.
Defined.


End GenerateDetailsFacts.

(** ** The terminal component *)

Module ShellFacts.

Import ExecuteStream PipelineSpec PipelineFacts StreamSummary
  StreamSummaryFacts Agents AgentFacts GenerateDetails GenerateDetailsFacts
  Shell.

(** ** The command history *)

Lemma at_index_in_range l i :
  (0 <= i < Z.of_nat (length l))%Z -> at_index l i <> None.
Proof.
  intros H. unfold at_index.
  destruct (i <? 0)%Z eqn:E; [apply Z.ltb_lt in E; lia|].
  apply nth_error_Some. lia.
Qed.

Lemma executeCommand_well_indexed st command submission :
  well_indexed st ->
  well_indexed (executeCommand st command submission).
Proof.
  intros H. unfold executeCommand.
  destruct command as [command|]; [|exact H].
  destruct (negb (truthy (trim command))); [exact H|].
  destruct submission; split; cbn; auto; discriminate.
Qed.

Lemma handleKeyDown_well_indexed submission st e :
  well_indexed st -> well_indexed (handleKeyDown submission st e).
Proof.
  intros H. pose proof H as [Hi Hc]. unfold handleKeyDown.
  destruct (key e) eqn:K.
  - destruct (negb (shiftKey e)); [|exact H].
    destruct (negb (isExecuting st)); [|exact H].
    now apply executeCommand_well_indexed.
  - destruct (0 <? length (history st)) eqn:L; [|exact H].
    apply Nat.ltb_lt in L.
    assert (R: (0 <= (if (historyIndex st =? -1)%Z
                      then Z.of_nat (length (history st)) - 1
                      else Z.max 0 (historyIndex st - 1))
                < Z.of_nat (length (history st)))%Z).
    { destruct (historyIndex st =? -1)%Z eqn:E; [lia|].
      apply Z.eqb_neq in E. lia. }
    split; cbn [historyIndex currentInput set_currentInput set_historyIndex
                history].
    + right. exact R.
    + now apply at_index_in_range.
  - destruct (negb (historyIndex st =? -1)%Z) eqn:E; [|exact H].
    apply negb_true_iff, Z.eqb_neq in E.
    destruct (Z.of_nat (length (history st)) <=? historyIndex st + 1)%Z eqn:G.
    + split; cbn; [now left|discriminate].
    + apply Z.leb_gt in G.
      split; cbn [historyIndex currentInput set_currentInput set_historyIndex
                  history].
      * right. lia.
      * apply at_index_in_range. lia.
  - destruct (ctrlKey e && is_char (KeyChar c) 108%N); [exact H|].
    destruct (ctrlKey e && is_char (KeyChar c) 99%N); [|exact H].
    split; cbn; [exact Hi|discriminate].
  - destruct (ctrlKey e && is_char KeyOther 108%N); [exact H|].
    destruct (ctrlKey e && is_char KeyOther 99%N); [|exact H].
    split; cbn; [exact Hi|discriminate].
Qed.

Lemma onmessage_well_indexed st data :
  well_indexed st -> well_indexed (onmessage st data).
Proof. intros H. destruct data as [t|t m| |m|]; exact H. Qed.

Lemma act_well_indexed st a : well_indexed st -> well_indexed (act st a).
Proof.
  intros H. destruct a as [e s|v|c s|v|d]; cbn [act].
  - now apply handleKeyDown_well_indexed.
  - destruct H as [Hi _]. split; cbn; [exact Hi|discriminate].
  - now apply executeCommand_well_indexed.
  - split; cbn; [now left|discriminate].
  - destruct (streamOpen st); [now apply onmessage_well_indexed|exact H].
Qed.

(** X19.  Whatever the user does and whatever the stream delivers, the
    history index of the terminal is either at rest (-1) or points at an
    entry of the history, and the input is never [undefined]: every
    [history[newIndex]] the key handler reads exists. *)
Theorem history_index_stays_in_range initialCommands actions :
  well_indexed (after (initialShell initialCommands) actions).
Proof.
  assert (G: forall st, well_indexed st -> well_indexed (after st actions)).
  { induction actions as [|a more IH]; intros st H; [exact H|].
    cbn [after fold_left]. apply IH. now apply act_well_indexed. }
  apply G. split; cbn; [now left|discriminate].
Qed.

Lemma up_step st submission :
  history st <> [] ->
  handleKeyDown submission st up =
  let newIndex :=
    if (historyIndex st =? -1)%Z
    then (Z.of_nat (length (history st)) - 1)%Z
    else Z.max 0 (historyIndex st - 1) in
  set_currentInput (at_index (history st) newIndex)
                   (set_historyIndex newIndex st).
Proof.
  intros H. unfold handleKeyDown. cbn [key up].
  destruct (history st); [congruence|reflexivity].
Qed.

Lemma ups_from st submission k :
  history st <> [] ->
  (0 <= historyIndex st < Z.of_nat (length (history st)))%Z ->
  let i := Z.max 0 (historyIndex st - Z.of_nat k) in
  after st (repeat (KeyDown up submission) k) =
  match k with
  | 0 => st
  | S _ => set_currentInput (at_index (history st) i) (set_historyIndex i st)
  end.
Proof.
  revert st. induction k as [|k IH]; intros st Hh Hi; [reflexivity|].
  cbn [repeat after fold_left act]. rewrite up_step by exact Hh.
  assert (E: (historyIndex st =? -1)%Z = false) by (apply Z.eqb_neq; lia).
  rewrite E. cbv zeta.
  set (st1 := set_currentInput _ _).
  assert (H1: history st1 = history st) by reflexivity.
  assert (I1: historyIndex st1 = Z.max 0 (historyIndex st - 1)) by reflexivity.
  change (fold_left act (repeat (KeyDown up submission) k) st1)
    with (after st1 (repeat (KeyDown up submission) k)).
  rewrite IH by (rewrite ?H1, ?I1; auto; lia).
  cbv zeta. rewrite H1, I1.
  assert (Q: forall n : Z, Z.max 0 (Z.max 0 (n - 1) - Z.of_nat k) =
                          Z.max 0 (n - Z.of_nat (S k))) by (clear; lia).
  rewrite Q.
  destruct k; [|reflexivity].
  replace (Z.max 0 (historyIndex st - Z.of_nat 1))
    with (Z.max 0 (historyIndex st - 1)) by lia.
  reflexivity.
Qed.

(** X20.  From the rest position, [k] presses of ArrowUp select the [k]-th
    most recent command and stop at the oldest one: the index is
    [max 0 (length - k)], the input shows that entry, and nothing else
    changes. *)
Theorem arrow_up_walks_back st submission k :
  historyIndex st = (-1)%Z ->
  history st <> [] ->
  0 < k ->
  let i := Z.max 0 (Z.of_nat (length (history st)) - Z.of_nat k) in
  after st (repeat (KeyDown up submission) k) =
  set_currentInput (nth_error (history st) (Z.to_nat i))
                   (set_historyIndex i st).
Proof.
  intros Hi Hh Hk. destruct k as [|k]; [lia|].
  cbn [repeat after fold_left act]. rewrite up_step by exact Hh.
  rewrite Hi. change ((-1 =? -1)%Z) with true. cbv iota zeta.
  assert (L: (0 < Z.of_nat (length (history st)))%Z).
  { destruct (history st); [congruence|cbn; lia]. }
  set (st1 := set_currentInput _ _).
  change (fold_left act (repeat (KeyDown up submission) k) st1)
    with (after st1 (repeat (KeyDown up submission) k)).
  assert (H1: history st1 = history st) by reflexivity.
  assert (I1: historyIndex st1 = (Z.of_nat (length (history st)) - 1)%Z)
    by reflexivity.
  rewrite ups_from by (rewrite ?H1, ?I1; auto; lia).
  cbv zeta. rewrite H1, I1.
  assert (Q: forall n : Z, Z.max 0 (n - 1 - Z.of_nat k) =
                          Z.max 0 (n - Z.of_nat (S k))) by (clear; lia).
  rewrite Q.
  assert (A: forall j, (0 <= j)%Z ->
               at_index (history st) j = nth_error (history st) (Z.to_nat j)).
  { intros j Hj. unfold at_index.
    destruct (j <? 0)%Z eqn:E; [apply Z.ltb_lt in E; lia|reflexivity]. }
  destruct k.
  - replace (Z.max 0 (Z.of_nat (length (history st)) - Z.of_nat 1))
      with (Z.of_nat (length (history st)) - 1)%Z by lia.
    unfold st1. rewrite A by lia. reflexivity.
  - rewrite A by lia. reflexivity.
Qed.

Lemma arrow_up_walks_back_witness :
  let st := mkShell [] (Some (js "draft")) [js "ls"; js "pwd"; js "whoami"]
                    (-1) false false in
  historyIndex st = (-1)%Z
  /\ history st <> []
  /\ 0 < 2
  /\ after st (repeat (KeyDown up NoCallback) 2) =
     mkShell [] (Some (js "pwd")) [js "ls"; js "pwd"; js "whoami"] 1
             false false.
Proof.
  intro st.
  assert (H1: historyIndex st = (-1)%Z) by reflexivity.
  assert (H2: history st <> []) by discriminate.
  assert (H3: 0 < 2) by lia.
  split; [exact H1|]. split; [exact H2|]. split; [exact H3|].
  rewrite (arrow_up_walks_back st NoCallback 2 H1 H2 H3).
  reflexivity.
Defined.

(** ** The stream on the screen *)

Lemma outputText_app a b : outputText (a ++ b) = outputText a ++ outputText b.
Proof.
  induction a as [|l a IH]; [reflexivity|]. cbn.
  destruct (lineType l); rewrite IH; now rewrite ?app_assoc.
Qed.

Lemma errorTexts_app a b : errorTexts (a ++ b) = errorTexts a ++ errorTexts b.
Proof.
  induction a as [|l a IH]; [reflexivity|]. cbn.
  destruct (lineType l); rewrite IH; reflexivity.
Qed.

Lemma appendToken_texts prev text :
  outputText (appendToken prev text) = outputText prev ++ text
  /\ errorTexts (appendToken prev text) = errorTexts prev.
Proof.
  unfold appendToken. destruct (rev prev) as [|last r] eqn:E.
  - rewrite outputText_app, errorTexts_app. cbn. now rewrite !app_nil_r.
  - assert (P: prev = rev r ++ [last]).
    { rewrite <- (rev_involutive prev), E. reflexivity. }
    destruct (lineType last) eqn:T;
      try (rewrite outputText_app, errorTexts_app; cbn;
           now rewrite !app_nil_r).
    rewrite P, removelast_last, !outputText_app, !errorTexts_app.
    destruct last as [ty co]. cbn in T. subst ty. cbn.
    rewrite !app_nil_r. split; [now rewrite app_assoc|reflexivity].
Qed.

(** The events of a run on the screen, before the terminal payload. *)
Lemma deliver_events events : forall st,
  streamOpen st = true ->
  let st' := deliver st (map received (map EventPayload events)) in
  streamOpen st' = true
  /\ isExecuting st' = isExecuting st
  /\ outputText (lines st') = outputText (lines st) ++ tokenText events
  /\ errorTexts (lines st') = errorTexts (lines st) ++ stderrMessages events
  /\ currentInput st' = currentInput st
  /\ history st' = history st
  /\ historyIndex st' = historyIndex st.
Proof.
  induction events as [|event more IH]; intros st O; cbv zeta.
  - cbn. rewrite !app_nil_r. auto 10.
  - cbn [map deliver fold_left]. rewrite O.
    change (fold_left ?f ?l ?s) with (deliver s l).
    destruct event as [text|message|m e i o]; cbn [received onmessage].
    + rewrite or_else_empty.
      destruct (appendToken_texts (lines st) text) as (A1 & A2).
      destruct (IH (set_lines (appendToken (lines st) text) st) O)
        as (I1 & I2 & I3 & I4 & I5 & I6 & I7).
      cbn [lines set_lines isExecuting currentInput history historyIndex]
        in I2, I3, I4, I5, I6, I7.
      rewrite A1 in I3. rewrite A2 in I4.
      cbn [tokenText stderrMessages]. rewrite app_assoc. auto 10.
    + destruct (IH (set_lines (lines st ++ [mkLine ErrorLine message]) st) O)
        as (I1 & I2 & I3 & I4 & I5 & I6 & I7).
      cbn [lines set_lines isExecuting currentInput history historyIndex]
        in I2, I3, I4, I5, I6, I7.
      rewrite outputText_app in I3. rewrite errorTexts_app in I4.
      cbn in I3, I4. rewrite app_nil_r in I3. rewrite <- app_assoc in I4.
      cbn [tokenText stderrMessages]. auto 10.
    + exact (IH st O).
Qed.

Lemma deliver_app st a b : deliver st (a ++ b) = deliver (deliver st a) b.
Proof. unfold deliver. apply fold_left_app. Qed.

(** X21.  The terminal always comes to rest and shows the whole stream:
    after the payloads of any run of the execute stream have been
    delivered to an open [EventSource], the source is closed and the
    shell is no longer executing; the output lines have grown by exactly
    the token texts, the error lines by the stderr messages followed, if
    the run failed, by [Error: ] and the message; input and history are
    untouched. *)
Theorem shell_shows_the_whole_stream w sid cid st :
  streamOpen st = true ->
  let st' := deliver st (map received (enqueued (snd (start w sid cid)))) in
  streamOpen st' = false
  /\ isExecuting st' = false
  /\ outputText (lines st') = outputText (lines st) ++ tokenText (consumed w)
  /\ errorTexts (lines st') =
     errorTexts (lines st) ++ stderrMessages (consumed w)
     ++ match failure w with
        | Some error => [js "Error: " ++ errorMessageOf error]
        | None => []
        end
  /\ currentInput st' = currentInput st
  /\ history st' = history st
  /\ historyIndex st' = historyIndex st.
Proof.
  intros O. cbv zeta. rewrite enqueued_of_run, !map_app, deliver_app.
  destruct (deliver_events (consumed w) st O)
    as (I1 & I2 & I3 & I4 & I5 & I6 & I7).
  set (st1 := deliver st (map received (map EventPayload (consumed w)))) in *.
  unfold terminalPayload. destruct (failure w) as [error|];
    cbn [map received deliver fold_left]; rewrite I1; cbn [onmessage].
  - cbn [streamOpen isExecuting lines currentInput history historyIndex
         set_isExecuting set_streamOpen set_lines].
    rewrite outputText_app, errorTexts_app, I3, I4. cbn.
    rewrite !app_nil_r, <- app_assoc. auto 10.
  - cbn [streamOpen isExecuting lines currentInput history historyIndex
         set_isExecuting set_streamOpen set_lines].
    rewrite I3, I4, !app_nil_r. auto 10.
Qed.

Lemma shell_shows_the_whole_stream_witness :
  let w := mkWorld (fun n => Z.of_nat n * 40)%Z None
                   [TokenEvent (js "a"); StderrEvent (js "oops");
                    TokenEvent (js "b")]
                   (Some (ErrorObject (js "boom"))) (fun _ => false) false in
  let st := mkShell [mkLine InputLine (js "$ ls")] (Some []) [js "ls"] (-1)
                    true true in
  streamOpen st = true
  /\ lines (deliver st (map received
                          (enqueued (snd (start w (js "s1") (js "c1")))))) =
     [mkLine InputLine (js "$ ls"); mkLine OutputLine (js "a");
      mkLine ErrorLine (js "oops"); mkLine OutputLine (js "b");
      mkLine ErrorLine (js "Error: boom")]
  /\ isExecuting (deliver st (map received
                          (enqueued (snd (start w (js "s1") (js "c1")))))) =
     false.
Proof.
  intros w st.
  assert (O: streamOpen st = true) by reflexivity.
  destruct (shell_shows_the_whole_stream w (js "s1") (js "c1") st O)
    as (_ & G & _).
  split; [exact O|]. split; [vm_compute; reflexivity|exact G].
Defined.







End ShellFacts.

(** ** The suggestion panel *)

Module SidebarFacts.

Import GenerateStream GenerateSpec GenerateFacts GenerateDetails
  GenerateDetailsFacts Sidebar.

(** ** [indexOf] *)

Lemma prefixb_extends n s t : prefixb n s = true -> prefixb n (s ++ t) = true.
Proof.
  revert s. induction n as [|x n IH]; intros s H; [reflexivity|].
  destruct s as [|y s]; [discriminate|]. cbn in *.
  apply andb_true_iff in H. destruct H as [H1 H2].
  now rewrite H1, (IH _ H2).
Qed.

Lemma prefixb_length n s : prefixb n s = true -> length n <= length s.
Proof.
  revert s. induction n as [|x n IH]; intros s H; cbn; [lia|].
  destruct s as [|y s]; [discriminate|]. cbn in *.
  apply andb_true_iff in H. destruct H as [_ H]. apply IH in H. lia.
Qed.

Lemma prefixb_app_false n s t :
  prefixb n s = false -> length n <= length s -> prefixb n (s ++ t) = false.
Proof.
  revert s. induction n as [|x n IH]; intros s H L; [discriminate|].
  destruct s as [|y s]; [cbn in L; lia|]. cbn in *.
  destruct (char_eqb x y); [|reflexivity]. cbn in *. apply IH; [exact H|lia].
Qed.

Lemma indexOf_bound n s i :
  indexOf n s = Some i -> i + length n <= length s.
Proof.
  revert i. induction s as [|c s IH]; intros i H; cbn in H.
  - destruct (prefixb n []) eqn:P; [|discriminate].
    inversion H. subst. apply prefixb_length in P. cbn in *. lia.
  - destruct (prefixb n (c :: s)) eqn:P.
    + inversion H. subst. apply prefixb_length in P. cbn in *. lia.
    + destruct (indexOf n s) as [j|]; [|discriminate].
      inversion H. subst. specialize (IH j eq_refl). cbn. lia.
Qed.

Lemma indexOf_app n s t i :
  indexOf n s = Some i -> indexOf n (s ++ t) = Some i.
Proof.
  revert i. induction s as [|c s IH]; intros i H.
  - cbn in H. destruct (prefixb n []) eqn:P; [|discriminate].
    inversion H. subst. cbn [app].
    destruct n; [|discriminate]. destruct t; reflexivity.
  - pose proof (indexOf_bound _ _ _ H) as B.
    cbn in H. cbn [app indexOf].
    destruct (prefixb n (c :: s)) eqn:P.
    + pose proof (prefixb_extends _ _ t P) as Q. cbn [app] in Q. now rewrite Q.
    + destruct (indexOf n s) as [j|] eqn:E; [|discriminate].
      inversion H. subst.
      assert (Q: prefixb n ((c :: s) ++ t) = false)
        by (apply prefixb_app_false; [exact P|cbn in *; lia]).
      cbn [app] in Q. rewrite Q.
      now rewrite (IH j eq_refl).
Qed.

(** ** The loop has fuel enough *)

Section ReaderFacts.

Variable Event : Type.
Variable State : Type.
Variable parse : jsstring -> option Event.
Variable onEvent : State -> Event -> State * bool.

Local Notation "'loop'" := (processBufferLoop parse onEvent).
Local Notation "'process'" := (processBuffer parse onEvent).
Local Notation "'handle'" := (processRawEvent parse onEvent).

Lemma loop_fuel fuel : forall buffer c fuel',
  length buffer <= fuel -> length buffer <= fuel' ->
  loop fuel buffer c = loop fuel' buffer c.
Proof.
  induction fuel as [|fuel IH]; intros buffer c fuel' L L'.
  - destruct buffer; [|cbn in L; lia].
    destruct fuel'; reflexivity.
  - destruct fuel' as [|fuel'].
    + destruct buffer; [|cbn in L'; lia]. reflexivity.
    + cbn [processBufferLoop].
      destruct (indexOf [LF; LF] buffer) as [i|] eqn:E; [|reflexivity].
      apply indexOf_bound in E. cbn [length] in E.
      apply IH; rewrite length_skipn; lia.
Qed.

Lemma process_none buffer c :
  indexOf [LF; LF] buffer = None -> process buffer c = (buffer, c).
Proof.
  intros H. unfold processBuffer.
  destruct (length buffer); cbn [processBufferLoop]; [reflexivity|].
  now rewrite H.
Qed.

Lemma process_some buffer c i :
  indexOf [LF; LF] buffer = Some i ->
  process buffer c =
  process (skipn (i + 2) buffer) (handle c (rawEventOf i buffer)).
Proof.
  intros H. unfold processBuffer.
  pose proof (indexOf_bound _ _ _ H) as B. cbn [length] in B.
  destruct (length buffer) as [|n] eqn:L; [lia|].
  cbn [processBufferLoop]. rewrite H.
  apply loop_fuel; rewrite length_skipn; lia.
Qed.

(** The loop stops only when no boundary is left. *)
Lemma process_leaves_no_boundary n : forall buffer c,
  length buffer <= n ->
  indexOf [LF; LF] (fst (process buffer c)) = None.
Proof.
  induction n as [|n IH]; intros buffer c L.
  - destruct buffer; [reflexivity|cbn in L; lia].
  - destruct (indexOf [LF; LF] buffer) as [i|] eqn:E.
    + rewrite (process_some _ _ _ E).
      apply indexOf_bound in E. cbn [length] in E.
      apply IH. rewrite length_skipn. lia.
    + now rewrite (process_none _ _ E).
Qed.

(** Processing a buffer and then what remains of it with more text is
    processing the whole. *)
Lemma process_app n : forall buffer c more,
  length buffer <= n ->
  process (fst (process buffer c) ++ more) (snd (process buffer c)) =
  process (buffer ++ more) c.
Proof.
  induction n as [|n IH]; intros buffer c more L.
  - destruct buffer; [|cbn in L; lia].
    now rewrite (process_none [] c eq_refl).
  - destruct (indexOf [LF; LF] buffer) as [i|] eqn:E.
    + rewrite (process_some _ _ _ E).
      rewrite (process_some (buffer ++ more) c i (indexOf_app _ _ _ _ E)).
      pose proof (indexOf_bound _ _ _ E) as B. cbn [length] in B.
      assert (R: rawEventOf i (buffer ++ more) = rawEventOf i buffer).
      { unfold rawEventOf. rewrite firstn_app.
        replace (i - length buffer) with 0 by lia.
        now rewrite firstn_O, app_nil_r. }
      assert (K: skipn (i + 2) (buffer ++ more) =
                 skipn (i + 2) buffer ++ more).
      { rewrite skipn_app.
        replace (i + 2 - length buffer) with 0 by lia. reflexivity. }
      rewrite R, K. apply IH. rewrite length_skipn. lia.
    + now rewrite (process_none _ _ E).
Qed.

Lemma readLoop_whole chunks flushed : forall pending done c0,
  process done c0 = (pending, snd (process done c0)) ->
  readLoop parse onEvent chunks flushed pending (snd (process done c0)) =
  process (done ++ concat chunks ++ flushed) c0.
Proof.
  induction chunks as [|value more IH]; intros pending done c0 H.
  - cbn [readLoop concat app].
    rewrite <- (process_app (length done) done c0 flushed (le_n _)).
    now rewrite H.
  - cbn [readLoop concat].
    pose proof (process_app (length done) done c0 value (le_n _)) as A.
    rewrite H in A. cbn [fst snd] in A.
    destruct (process (pending ++ value) (snd (process done c0)))
      as [pending' c'] eqn:P.
    assert (P': process (done ++ value) c0 = (pending', c')) by congruence.
    replace c' with (snd (process (done ++ value) c0)) by now rewrite P'.
    rewrite (IH pending' (done ++ value) c0).
    + now rewrite <- !app_assoc.
    + now rewrite P'.
Qed.

(** The reader sees the text, not the chunks. *)
Lemma readEventStream_whole chunks flushed st :
  readEventStream parse onEvent chunks flushed st =
  snd (process (concat chunks ++ flushed) (st, [])).
Proof.
  unfold readEventStream.
  pose proof (readLoop_whole chunks flushed [] [] (st, [])) as H.
  rewrite (process_none [] (st, []) eq_refl) in H. cbn [snd app] in H.
  now rewrite H.
Qed.

(** ** Frames *)

Lemma indexOf_frame s rest :
  forallb (fun ch => negb (char_eqb ch LF)) s = true ->
  indexOf [LF; LF] (s ++ LF :: LF :: rest) = Some (length s).
Proof.
  induction s as [|ch s IH]; intros H.
  - reflexivity.
  - cbn in H. apply andb_true_iff in H. destruct H as [H1 H2].
    apply negb_true_iff in H1.
    cbn [app indexOf prefixb length].
    replace (char_eqb LF ch) with false
      by (unfold char_eqb in *; now rewrite N.eqb_sym).
    cbn [andb]. now rewrite (IH H2).
Qed.

Lemma split_line s :
  forallb (fun ch => negb (char_eqb ch LF)) s = true -> split LF s = [s].
Proof.
  induction s as [|ch s IH]; intros H; [reflexivity|].
  cbn in H. apply andb_true_iff in H. destruct H as [H1 H2].
  apply negb_true_iff in H1. cbn [split]. now rewrite H1, (IH H2).
Qed.

Lemma filter_no_cr s :
  forallb (fun ch => negb (char_eqb ch CR)) s = true ->
  filter (fun ch => negb (char_eqb ch CR)) s = s.
Proof.
  induction s as [|ch s IH]; intros H; [reflexivity|].
  cbn in H. apply andb_true_iff in H. destruct H as [H1 H2].
  cbn [filter]. now rewrite H1, (IH H2).
Qed.

Lemma trimStart_fixed s :
  is_js_whitespace (hd 32%N s) = false -> trimStart s = s.
Proof. destruct s as [|ch s]; [reflexivity|]. cbn. now intros ->. Qed.

Lemma hd_rev (s : jsstring) d : hd d (rev s) = last s d.
Proof. rewrite <- (rev_involutive s) at 2. now rewrite last_rev. Qed.

Lemma trimEnd_fixed s :
  is_js_whitespace (last s 32%N) = false -> trimEnd s = s.
Proof.
  intros H. unfold trimEnd. rewrite trimStart_fixed by now rewrite hd_rev.
  apply rev_involutive.
Qed.

Lemma framable_parts p :
  framable p = true ->
  forallb (fun ch => negb (char_eqb ch LF)) p = true
  /\ forallb (fun ch => negb (char_eqb ch CR)) p = true
  /\ is_js_whitespace (hd 32%N p) = false
  /\ is_js_whitespace (last p 32%N) = false
  /\ p <> [].
Proof.
  unfold framable. intros H.
  apply andb_true_iff in H. destruct H as [H H3].
  apply andb_true_iff in H. destruct H as [H1 H2].
  apply negb_true_iff in H2. apply negb_true_iff in H3.
  assert (A: forall q,
            forallb (fun ch => negb (char_eqb ch LF) && negb (char_eqb ch CR)) q
            = true ->
            forallb (fun ch => negb (char_eqb ch LF)) q = true
            /\ forallb (fun ch => negb (char_eqb ch CR)) q = true).
  { induction q as [|ch q IH]; cbn; [auto|]. intros G.
    apply andb_true_iff in G. destruct G as [G1 G2].
    apply andb_true_iff in G1. destruct G1 as [G0 G1].
    destruct (IH G2) as [I1 I2]. now rewrite G0, G1, I1, I2. }
  destruct (A p H1) as [A1 A2].
  repeat split; auto. intros ->. cbn in H2. discriminate.
Qed.

Lemma last_cons_nonempty (a : char) (p : jsstring) d :
  p <> [] -> last (a :: p) d = last p d.
Proof. destruct p; [congruence|reflexivity]. Qed.

Lemma last_app_nonempty (s p : jsstring) d :
  p <> [] -> last (s ++ p) d = last p d.
Proof.
  intros H. induction s as [|a s IH]; [reflexivity|].
  cbn [app]. rewrite last_cons_nonempty; [exact IH|].
  destruct s; cbn; [exact H|discriminate].
Qed.

(** A frame is one raw event, and its payload is what was framed. *)
Lemma handle_frame c p :
  framable p = true -> handle c (js "data: " ++ p) = dispatch parse onEvent c p.
Proof.
  intros F. destruct (framable_parts p F) as (N & _ & H & L & E).
  unfold processRawEvent.
  assert (S: split LF (js "data: " ++ p) = [js "data: " ++ p]).
  { apply split_line. rewrite forallb_app, N. reflexivity. }
  assert (T: trim (js "data: " ++ p) = js "data: " ++ p).
  { unfold trim. rewrite trimStart_fixed by reflexivity.
    apply trimEnd_fixed. now rewrite last_app_nonempty. }
  rewrite S. cbn [map]. rewrite T.
  assert (P: prefixb (js "data:") (js "data: " ++ p) = true) by reflexivity.
  cbn [find]. rewrite P.
  assert (K: skipn 5 (js "data: " ++ p) = 32%N :: p) by reflexivity.
  assert (Y: truthy (js "data: " ++ p) = true) by reflexivity.
  rewrite Y, K.
  assert (Z: trim (32%N :: p) = p).
  { unfold trim. change (trimStart (32%N :: p)) with (trimStart p).
    rewrite (trimStart_fixed _ H). now apply trimEnd_fixed. }
  rewrite Z. destruct p; [congruence|reflexivity].
Qed.

Lemma process_frame p rest c :
  framable p = true ->
  process (encodeEvent p ++ rest) c =
  process rest (dispatch parse onEvent c p).
Proof.
  intros F. destruct (framable_parts p F) as (N & R & _).
  unfold encodeEvent.
  assert (E: (js "data: " ++ p ++ [LF; LF]) ++ rest =
             (js "data: " ++ p) ++ LF :: LF :: rest).
  { now rewrite <- !app_assoc. }
  rewrite E.
  assert (NL: forallb (fun ch => negb (char_eqb ch LF)) (js "data: " ++ p) = true).
  { rewrite forallb_app, N. reflexivity. }
  assert (NR: forallb (fun ch => negb (char_eqb ch CR)) (js "data: " ++ p) = true).
  { rewrite forallb_app, R. reflexivity. }
  rewrite (process_some _ _ _ (indexOf_frame _ rest NL)).
  assert (R1: rawEventOf (length (js "data: " ++ p))
                ((js "data: " ++ p) ++ LF :: LF :: rest) = js "data: " ++ p).
  { unfold rawEventOf. rewrite firstn_app, Nat.sub_diag, firstn_O, app_nil_r.
    rewrite firstn_all. now apply filter_no_cr. }
  assert (K1: skipn (length (js "data: " ++ p) + 2)
                ((js "data: " ++ p) ++ LF :: LF :: rest) = rest).
  { rewrite skipn_app.
    replace (length (js "data: " ++ p) + 2 - length (js "data: " ++ p))
      with 2 by lia.
    rewrite skipn_all2 by lia. reflexivity. }
  rewrite R1, K1. now rewrite handle_frame.
Qed.

Lemma process_frames payloads : forall tail c,
  forallb framable payloads = true ->
  indexOf [LF; LF] tail = None ->
  process (framed payloads ++ tail) c =
  (tail, fold_left (dispatch parse onEvent) payloads c).
Proof.
  induction payloads as [|p more IH]; intros tail c F T.
  - cbn. now apply process_none.
  - cbn in F. apply andb_true_iff in F. destruct F as [F1 F2].
    unfold framed. cbn [map concat fold_left]. rewrite <- app_assoc.
    rewrite (process_frame _ _ _ F1). now apply IH.
Qed.

(** X24.  [readEventStream] sees the text, not the chunks: two bodies
    whose chunks and final flush concatenate to the same text drive the
    listener through the same states and log the same failures; and the
    [while] loop of [processBuffer] always runs until no blank line is
    left in the buffer. *)
Theorem reader_sees_the_text_not_the_chunks
        chunks1 flushed1 chunks2 flushed2 st :
  concat chunks1 ++ flushed1 = concat chunks2 ++ flushed2 ->
  readEventStream parse onEvent chunks1 flushed1 st =
  readEventStream parse onEvent chunks2 flushed2 st
  /\ indexOf [LF; LF]
       (fst (readLoop parse onEvent chunks1 flushed1 [] (st, []))) = None.
Proof.
  intros H. split.
  - now rewrite !readEventStream_whole, H.
  - pose proof (readLoop_whole chunks1 flushed1 [] [] (st, [])) as W.
    rewrite (process_none [] (st, []) eq_refl) in W. cbn [snd app] in W.
    rewrite (W eq_refl).
    apply (process_leaves_no_boundary (length (concat chunks1 ++ flushed1))).
    apply le_n.
Qed.

(** X25.  What the routes frame is what the listener gets: when the body is
    the framing ([data: ], the text, a blank line) of texts that contain
    no line feed or carriage return and have no whitespace at either end,
    followed by a tail without a blank line, then for every way of
    cutting the body into chunks exactly these texts are handed to
    [JSON.parse], in order; the unterminated tail is never delivered. *)
Theorem framed_payloads_are_dispatched_in_order
        payloads tail chunks flushed st :
  forallb framable payloads = true ->
  indexOf [LF; LF] tail = None ->
  concat chunks ++ flushed = framed payloads ++ tail ->
  readEventStream parse onEvent chunks flushed st =
  fold_left (dispatch parse onEvent) payloads (st, []).
Proof.
  intros F T H.
  now rewrite readEventStream_whole, H, (process_frames _ _ _ F T).
Qed.

End ReaderFacts.

Lemma reader_sees_the_text_not_the_chunks_witness :
  let parse := fun p : jsstring => Some p in
  let onEvent := fun (st : list jsstring) (e : jsstring) => (st ++ [e], false) in
  let chunks1 := [js "data: {a}" ++ [LF]; [LF] ++ js "data: {b}" ++ [LF; LF]] in
  let chunks2 := [js "da"; js "ta: {a}" ++ [LF; LF] ++ js "data: {b}" ++ [LF]] in
  concat chunks1 ++ [] = concat chunks2 ++ [LF]
  /\ readEventStream parse onEvent chunks2 [LF] [] =
     ([js "{a}"; js "{b}"], []).
Proof.
  intros parse onEvent chunks1 chunks2.
  assert (H: concat chunks1 ++ [] = concat chunks2 ++ [LF])
    by (vm_compute; reflexivity).
  destruct (reader_sees_the_text_not_the_chunks _ _ parse onEvent
              chunks1 [] chunks2 [LF] [] H) as [G _].
  split; [exact H|]. rewrite <- G. vm_compute. reflexivity.
Defined.

Lemma framed_payloads_are_dispatched_in_order_witness :
  let parse := fun p : jsstring => Some p in
  let onEvent := fun (st : list jsstring) (e : jsstring) => (st ++ [e], false) in
  let chunks := [js "data: {a}" ++ [LF]; [LF] ++ js "data: {b}" ++ [LF; LF];
                 js "data: {c}" ++ [LF]] in
  forallb framable [js "{a}"; js "{b}"] = true
  /\ indexOf [LF; LF] (js "data: {c}" ++ [LF]) = None
  /\ readEventStream parse onEvent chunks [] [] = ([js "{a}"; js "{b}"], []).
Proof.
  intros parse onEvent chunks.
  assert (F: forallb framable [js "{a}"; js "{b}"] = true)
    by (vm_compute; reflexivity).
  assert (T: indexOf [LF; LF] (js "data: {c}" ++ [LF]) = None)
    by (vm_compute; reflexivity).
  assert (H: concat chunks ++ [] =
             framed [js "{a}"; js "{b}"] ++ js "data: {c}" ++ [LF])
    by (vm_compute; reflexivity).
  split; [exact F|]. split; [exact T|].
  rewrite (framed_payloads_are_dispatched_in_order _ _ parse onEvent
             [js "{a}"; js "{b}"] _ chunks [] [] F T H).
  reflexivity.
Defined.

(** ** The listener of [handleGenerate] *)

Lemma truthy_false (s : jsstring) : truthy s = false -> s = [].
Proof. destruct s; [reflexivity|discriminate]. Qed.

(** A delta appends its text to the field it names. *)
Lemma listener_delta prev field text :
  let next := fst (generateListener prev (parsed (DeltaEvent field text))) in
  snd (generateListener prev (parsed (DeltaEvent field text))) = false
  /\ shownCommand next =
     shownCommand prev ++ textOf (js "command") [DeltaEvent field text]
  /\ shownExplanation next =
     shownExplanation prev
     ++ textOf (js "explanation") [DeltaEvent field text].
Proof.
  cbv zeta. cbn [parsed generateListener textOf].
  destruct (truthy field) eqn:TF; cbn [negb orb].
  - destruct (truthy text) eqn:TT; cbn [negb].
    + destruct (jsstring_eqb field (js "command")) eqn:EC.
      * apply jsstring_eqb_eq in EC. subst field.
        change (jsstring_eqb (js "command") (js "explanation")) with false.
        cbn [fst snd]. rewrite !app_nil_r.
        destruct prev; cbn; auto.
      * destruct (jsstring_eqb field (js "explanation")) eqn:EE;
          cbn [fst snd]; rewrite !app_nil_r; destruct prev; cbn; auto.
    + apply truthy_false in TT. subst text. cbn [fst snd].
      destruct (jsstring_eqb field (js "command"));
        destruct (jsstring_eqb field (js "explanation"));
        cbn; now rewrite !app_nil_r.
  - apply truthy_false in TF. subst field. cbn [fst snd].
    change (jsstring_eqb [] (js "command")) with false.
    change (jsstring_eqb [] (js "explanation")) with false.
    now rewrite !app_nil_r.
Qed.

Lemma listenAll_deltas es : forall prev,
  Forall is_delta es ->
  shownCommand (listenAll prev es) =
    shownCommand prev ++ textOf (js "command") es
  /\ shownExplanation (listenAll prev es) =
       shownExplanation prev ++ textOf (js "explanation") es.
Proof.
  induction es as [|e es IH]; intros prev F.
  - cbn. now rewrite !app_nil_r.
  - inversion F as [|e' es' D F']. subst.
    destruct e as [field text|p| |m|]; try contradiction.
    destruct (listener_delta prev field text) as (_ & L1 & L2).
    unfold listenAll in *. cbn [fold_left].
    destruct (IH (fst (generateListener prev
                         (parsed (DeltaEvent field text)))) F') as (I1 & I2).
    rewrite I1, I2, L1, L2.
    change (DeltaEvent field text :: es) with ([DeltaEvent field text] ++ es).
    rewrite !textOf_app, !app_assoc. auto.
Qed.

(** The wire, through a faithful [JSON.stringify] and [JSON.parse]. *)
Lemma dispatch_faithful stringify parse es : forall st log,
  Forall (faithful stringify parse) es ->
  fold_left (dispatch parse generateListener) (map stringify es) (st, log) =
  (listenAll st es, log ++ map stringify (filter is_error es)).
Proof.
  induction es as [|e es IH]; intros st log F.
  - cbn. now rewrite app_nil_r.
  - inversion F as [|e' es' [_ P] F']. subst.
    cbn [map fold_left dispatch]. rewrite P.
    destruct e as [field text|p| |m|].
    + destruct (listener_delta st field text) as (T & _).
      destruct (generateListener st (parsed (DeltaEvent field text)))
        as [st' threw] eqn:G.
      cbn [snd] in T. subst threw.
      rewrite (IH st' log F'). unfold listenAll. cbn [fold_left filter is_error].
      now rewrite G.
    + cbn [parsed generateListener]. rewrite (IH _ log F'). reflexivity.
    + cbn [parsed generateListener]. rewrite (IH _ log F'). reflexivity.
    + cbn [parsed generateListener]. rewrite (IH _ _ F').
      cbn [filter is_error map]. unfold listenAll. cbn [fold_left parsed
        generateListener fst]. now rewrite <- app_assoc.
    + cbn [parsed generateListener]. rewrite (IH _ log F'). reflexivity.
Qed.

Lemma enqueuedEvents_body body :
  Forall (fun e => e <> CloseStream) body ->
  enqueuedEvents (body ++ [CloseStream]) = body.
Proof.
  induction body as [|e body IH]; intros F; [reflexivity|].
  inversion F as [|e' b' N F']. subst.
  destruct e; cbn; try (now rewrite (IH F')). congruence.
Qed.

Lemma deltas_not_close ds : Forall is_delta ds ->
  Forall (fun e => e <> CloseStream) ds.
Proof.
  intros F. eapply Forall_impl; [|exact F].
  intros e D ->. exact D.
Qed.

Lemma deltas_not_error ds : Forall is_delta ds -> filter is_error ds = [].
Proof.
  induction 1 as [|e ds D F IH]; [reflexivity|].
  destruct e; try contradiction. exact IH.
Qed.

Lemma filter_error_app a b :
  filter is_error (a ++ b) = filter is_error a ++ filter is_error b.
Proof. apply filter_app. Qed.

Lemma listenAll_app prev a b :
  listenAll prev (a ++ b) = listenAll (listenAll prev a) b.
Proof. unfold listenAll. apply fold_left_app. Qed.

Lemma framed_whole (Event State : Type) (parse : jsstring -> option Event)
      (onEvent : State -> Event -> State * bool) payloads pieces flushed st :
  forallb framable payloads = true ->
  concat pieces ++ flushed = framed payloads ->
  readEventStream parse onEvent pieces flushed st =
  fold_left (dispatch parse onEvent) payloads (st, []).
Proof.
  intros F H.
  rewrite readEventStream_whole, H, <- (app_nil_r (framed payloads)).
  now rewrite (process_frames _ _ parse onEvent payloads [] (st, []) F eq_refl).
Qed.

Lemma faithful_framable stringify parse es :
  Forall (faithful stringify parse) es ->
  forallb framable (map stringify es) = true.
Proof.
  induction 1 as [|e es [F _] _ IH]; [reflexivity|].
  cbn. now rewrite F, IH.
Qed.

(** The panel after a stream whose events went through a faithful
    [JSON.stringify] and [JSON.parse]. *)
Lemma handleGenerate_wire stringify parse es pieces flushed :
  Forall (faithful stringify parse) es ->
  concat pieces ++ flushed = framed (map stringify es) ->
  handleGenerate parse pieces flushed =
  (listenAll None es, map stringify (filter is_error es)).
Proof.
  intros F H. unfold handleGenerate.
  rewrite (framed_whole
             _ _ parse generateListener (map stringify es) pieces flushed None
             (faithful_framable _ _ _ F) H).
  now rewrite (dispatch_faithful _ _ _ None [] F).
Qed.

(** X26.  The suggestion panel ends with the result: when the history read
    succeeds and the producer returns, and [JSON.parse] gives back what
    [JSON.stringify] was given for the events of the run, then for every
    way the body is cut into chunks [handleGenerate] ends with the command
    and the explanation of the result event (for each field the decoded
    value, or the structured one when nothing was decoded), and nothing
    is logged. *)
Theorem suggestion_panel_ends_with_the_result
        stringify parse r result pieces flushed :
  historyRejects r = None ->
  outcome r = inl result ->
  Forall (faithful stringify parse) (enqueuedEvents (start r)) ->
  concat pieces ++ flushed =
    framed (map stringify (enqueuedEvents (start r))) ->
  handleGenerate parse pieces flushed =
  (Some (mkSuggestion
           (or_else (value (fst (feed (newDecoder (js "command")) (chunks r))))
                    (command (output result)))
           (or_else (value (fst (feed (newDecoder (js "explanation"))
                                      (chunks r))))
                    (explanation (output result)))),
   []).
Proof.
  intros H O F W.
  rewrite (handleGenerate_wire _ _ _ _ _ F W).
  rewrite (start_history_ok _ H), O, finalPayload_fields.
  pose proof (onStreamChunks_deltas (chunks r) initialLocals) as D.
  set (ds := snd (onStreamChunks initialLocals (chunks r))) in *.
  set (p := mkPayload _ _ _ _ _).
  assert (E: enqueuedEvents (ds ++ [ResultEvent p; DoneEvent] ++ [CloseStream])
             = ds ++ [ResultEvent p; DoneEvent]).
  { rewrite app_assoc. apply enqueuedEvents_body.
    apply Forall_app. split; [now apply deltas_not_close|].
    repeat constructor; discriminate. }
  rewrite E, listenAll_app, filter_error_app, (deltas_not_error _ D).
  reflexivity.
Qed.

Lemma suggestion_panel_ends_with_the_result_witness :
  let result := mkResult (mkOutput (js "w") (js "shows who is logged on")) 3 4 5 in
  let r := mkRun None [jsq "{'command':'w'}"] (inl result) in
  let pieces := [jsq "data: {'kind':'delta','data':{'field':'comm";
                 jsq "and','text':'w'}}" ++ [LF; LF]
                 ++ jsq "data: {'kind':'result'}" ++ [LF];
                 [LF] ++ jsq "data: {'kind':'done'}" ++ [LF; LF]] in
  Forall (faithful sampleStringify sampleParse) (enqueuedEvents (start r))
  /\ handleGenerate sampleParse pieces [] =
     (Some (mkSuggestion (js "w") (js "shows who is logged on")), []).
Proof.
  intros result r pieces.
  assert (E: enqueuedEvents (start r) =
             [DeltaEvent (js "command") (js "w");
              ResultEvent sampleResult; DoneEvent])
    by (vm_compute; reflexivity).
  assert (F: Forall (faithful sampleStringify sampleParse)
                    (enqueuedEvents (start r))).
  { rewrite E. repeat constructor; vm_compute; reflexivity. }
  assert (W: concat pieces ++ [] =
             framed (map sampleStringify (enqueuedEvents (start r))))
    by (rewrite E; vm_compute; reflexivity).
  split; [exact F|].
  rewrite (suggestion_panel_ends_with_the_result sampleStringify sampleParse
             r result pieces [] eq_refl eq_refl F W).
  vm_compute. reflexivity.
Defined.

(** X27.  An error event does not clear the panel: when the run ends with
    an error event, the exception the listener of [handleGenerate] throws
    is caught inside [processBuffer] and logged as a payload that failed
    to parse, so [readEventStream] returns normally and the panel keeps
    the texts assembled from the deltas sent before the error. *)
Theorem error_event_does_not_clear_the_panel
        stringify parse r message pieces flushed :
  failed r message ->
  Forall (faithful stringify parse) (enqueuedEvents (start r)) ->
  concat pieces ++ flushed =
    framed (map stringify (enqueuedEvents (start r))) ->
  exists shown,
    handleGenerate parse pieces flushed =
      (shown, [stringify (ErrorEvent message)])
    /\ shownCommand shown = textOf (js "command") (start r)
    /\ shownExplanation shown = textOf (js "explanation") (start r).
Proof.
  intros [H|[H O]] F W; rewrite (handleGenerate_wire _ _ _ _ _ F W).
  - unfold start. rewrite H. cbn. exists None. auto.
  - rewrite (start_history_ok _ H), O.
    pose proof (onStreamChunks_deltas (chunks r) initialLocals) as D.
    set (ds := snd (onStreamChunks initialLocals (chunks r))) in *.
    assert (E: enqueuedEvents (ds ++ [ErrorEvent message] ++ [CloseStream])
               = ds ++ [ErrorEvent message]).
    { rewrite app_assoc. apply enqueuedEvents_body.
      apply Forall_app. split; [now apply deltas_not_close|].
      repeat constructor; discriminate. }
    rewrite E, listenAll_app, filter_error_app, (deltas_not_error _ D).
    exists (listenAll None ds).
    destruct (listenAll_deltas ds None D) as (L1 & L2).
    rewrite !textOf_app. cbn [textOf app]. rewrite !app_nil_r.
    split; [reflexivity|]. split; assumption.
Qed.

Lemma error_event_does_not_clear_the_panel_witness :
  let r := mkRun None [jsq "{'command':'w"] (inr (js "quota")) in
  let pieces := [jsq "data: {'kind':'delta','data':{'field':'command','text':'w'}}"
                 ++ [LF; LF];
                 jsq "data: {'kind':'error','data':{'message':'quota'}}"
                 ++ [LF; LF]] in
  failed r (js "quota")
  /\ Forall (faithful sampleStringify sampleParse) (enqueuedEvents (start r))
  /\ handleGenerate sampleParse pieces [] =
     (Some (mkSuggestion (js "w") []),
      [jsq "{'kind':'error','data':{'message':'quota'}}"]).
Proof.
  intros r pieces.
  assert (E: enqueuedEvents (start r) =
             [DeltaEvent (js "command") (js "w"); ErrorEvent (js "quota")])
    by (vm_compute; reflexivity).
  assert (B: failed r (js "quota")) by (right; split; reflexivity).
  assert (F: Forall (faithful sampleStringify sampleParse)
                    (enqueuedEvents (start r))).
  { rewrite E. repeat constructor; vm_compute; reflexivity. }
  assert (W: concat pieces ++ [] =
             framed (map sampleStringify (enqueuedEvents (start r))))
    by (rewrite E; vm_compute; reflexivity).
  split; [exact B|]. split; [exact F|].
  destruct (error_event_does_not_clear_the_panel sampleStringify sampleParse
              r (js "quota") pieces [] B F W) as (shown & G & _).
  vm_compute. reflexivity.
Defined.

End SidebarFacts.

(** ** Command records *)

Module CommandRecordFacts.

Import GenerateDetails GenerateDetailsFacts CommandRecords.

Lemma newest_some b rows : newest (Some b) rows <> None.
Proof.
  revert b. induction rows as [|row more IH]; intros b; cbn; [discriminate|].
  destruct (c_createdAt b <? c_createdAt row)%Z; apply IH.
Qed.

Lemma newest_in rows : forall best c,
  newest best rows = Some c -> best = Some c \/ In c rows.
Proof.
  induction rows as [|row more IH]; intros best c H; cbn in H; [now left|].
  apply IH in H. destruct H as [H|H]; [|right; now right].
  destruct best as [b|].
  - destruct (c_createdAt b <? c_createdAt row)%Z; inversion H; subst.
    + right. now left.
    + now left.
  - inversion H. subst. right. now left.
Qed.

Lemma findNewest_some p rows c :
  findNewest p rows = Some c -> In c rows /\ p c = true.
Proof.
  unfold findNewest. intros H. apply newest_in in H.
  destruct H as [H|H]; [discriminate|]. now apply filter_In in H.
Qed.

Lemma findNewest_none p rows :
  findNewest p rows = None -> filter p rows = [].
Proof.
  unfold findNewest. destruct (filter p rows) as [|x l]; [reflexivity|].
  cbn. intros H. now apply newest_some in H.
Qed.

Lemma find_app_none {A : Type} (p : A -> bool) l l' :
  find p l = None -> find p (l ++ l') = find p l'.
Proof.
  induction l as [|x l IH]; cbn; [reflexivity|].
  destruct (p x); [discriminate|exact IH].
Qed.

Lemma byInput_row sessionId input newId now :
  byInput sessionId input (mkCommand newId sessionId input None now) = true.
Proof. unfold byInput. cbn. now rewrite !jsstring_eqb_refl. Qed.

Lemma byId_session commandId sessionId c :
  byId commandId sessionId c = true ->
  c_id c = commandId /\ c_sessionId c = sessionId.
Proof.
  unfold byId. intros H. apply andb_true_iff in H. destruct H as [H1 H2].
  split; now apply jsstring_eqb_eq.
Qed.

Lemma byInput_session sessionId input c :
  byInput sessionId input c = true ->
  c_sessionId c = sessionId /\ c_input c = input.
Proof.
  unfold byInput. intros H. apply andb_true_iff in H. destruct H as [H1 H2].
  split; now apply jsstring_eqb_eq.
Qed.

(** The three ways [ensureCommandRecord] ends. *)
Lemma ensureCommandRecord_cases db sessionId input commandId newId now :
  let existingById :=
    match commandId with
    | Some commandId =>
        if truthy commandId
        then find (byId commandId sessionId) (commands db) else None
    | None => None
    end in
  (exists c, existingById = Some c
             /\ ensureCommandRecord db sessionId input commandId newId now
                = (db, c))
  \/ (existingById = None
      /\ exists c, findNewest (byInput sessionId input) (commands db) = Some c
                   /\ ensureCommandRecord db sessionId input commandId newId now
                      = (db, c))
  \/ (existingById = None
      /\ filter (byInput sessionId input) (commands db) = []
      /\ ensureCommandRecord db sessionId input commandId newId now
         = createCommand db sessionId input newId now).
Proof.
  cbv zeta. unfold ensureCommandRecord, findFirst.
  destruct (match commandId with
            | Some commandId0 =>
                if truthy commandId0
                then find (byId commandId0 sessionId) (commands db) else None
            | None => None
            end) as [c|] eqn:E.
  - left. now exists c.
  - right.
    destruct (findNewest (byInput sessionId input) (commands db)) as [c|] eqn:N.
    + left. split; [reflexivity|]. now exists c.
    + right. split; [reflexivity|]. split; [|reflexivity].
      now apply findNewest_none.
Qed.

Lemma ensureCommandRecord_record db sessionId input commandId newId now :
  let db1 := fst (ensureCommandRecord db sessionId input commandId newId now) in
  let c := snd (ensureCommandRecord db sessionId input commandId newId now) in
  In c (commands db1)
  /\ c_sessionId c = sessionId
  /\ terminalSessions db1 = terminalSessions db
  /\ (commands db1 = commands db
      \/ (commands db1 = commands db ++ [c]
          /\ c = mkCommand newId sessionId input None now
          /\ filter (byInput sessionId input) (commands db) = [])).
Proof.
  cbv zeta.
  destruct (ensureCommandRecord_cases db sessionId input commandId newId now)
    as [(c & E & ->)|[(E & c & N & ->)|(E & F & ->)]]; cbn [fst snd].
  - destruct commandId as [cid|]; [|discriminate].
    destruct (truthy cid); [|discriminate].
    apply find_some in E. destruct E as [I B].
    apply byId_session in B. destruct B as [_ B]. auto.
  - apply findNewest_some in N. destruct N as [I B].
    apply byInput_session in B. destruct B as [B _]. auto.
  - unfold createCommand. cbn [fst snd commands terminalSessions c_sessionId].
    split; [apply in_or_app; right; now left|].
    split; [reflexivity|]. split; [reflexivity|]. right. auto.
Qed.



(** X29.  [ensureCommandRecord] is idempotent and adds at most one row:
    calling it again with the same request on the table it left returns
    the same record and changes nothing, whatever id and time the
    database would generate; the first call leaves the table as it was,
    or appends exactly the record it returns, and it does so only when
    no command of the session has this input. *)
Theorem ensureCommandRecord_is_idempotent
        db sessionId input commandId newId now newId' now' :
  let db1 := fst (ensureCommandRecord db sessionId input commandId newId now) in
  let c := snd (ensureCommandRecord db sessionId input commandId newId now) in
  ensureCommandRecord db1 sessionId input commandId newId' now' = (db1, c)
  /\ (commands db1 = commands db
      \/ (commands db1 = commands db ++ [c]
          /\ c = mkCommand newId sessionId input None now
          /\ filter (byInput sessionId input) (commands db) = [])).
Proof.
  cbv zeta. split.
  2:{ now destruct (ensureCommandRecord_record db sessionId input commandId
                      newId now) as (_ & _ & _ & H). }
  destruct (ensureCommandRecord_cases db sessionId input commandId newId now)
    as [(c & E & H)|[(E & c & N & H)|(E & F & H)]]; rewrite H; cbn [fst snd].
  - destruct (ensureCommandRecord_cases db sessionId input commandId
                newId' now')
      as [(c' & E' & H')|[(E' & _)|(E' & _)]]; congruence.
  - destruct (ensureCommandRecord_cases db sessionId input commandId
                newId' now')
      as [(c' & E' & H')|[(E' & c' & N' & H')|(E' & F' & H')]];
      try congruence.
    unfold findNewest in N. rewrite F' in N. discriminate.
  - unfold createCommand. cbn [fst snd].
    set (row := mkCommand newId sessionId input None now).
    unfold ensureCommandRecord, findFirst. cbn [commands].
    assert (N: findNewest (byInput sessionId input) (commands db ++ [row])
               = Some row).
    { unfold findNewest. rewrite filter_app, F. cbn [app filter].
      unfold row. now rewrite byInput_row. }
    destruct commandId as [cid|].
    + destruct (truthy cid).
      * rewrite (find_app_none _ _ _ E). cbn [find].
        destruct (byId cid sessionId row); [reflexivity|]. now rewrite N.
      * now rewrite N.
    + now rewrite N.
Qed.

Lemma fresh_not_found db newId sessionId :
  fresh_id db newId -> find (byId newId sessionId) (commands db) = None.
Proof.
  intros F. destruct (find (byId newId sessionId) (commands db)) as [c|] eqn:E;
    [|reflexivity].
  apply find_some in E. destruct E as [I B].
  apply byId_session in B. destruct B as [B _]. now apply F in I.
Qed.

(** X30.  The record the [runCommand] mutation creates is the record the
    stream fills: when the mutation succeeds with an id that is not empty
    and not yet in the table, a stream request for the same session and
    input that names this id is served with exactly that record and
    creates no second one, also when the session holds older commands
    with the same input. *)
Theorem submitted_command_is_the_one_streamed
        db auth sessionId input newId now db1 c newId' now' :
  runCommand db auth sessionId input newId now = Some (db1, c) ->
  truthy newId = true ->
  truthy sessionId = true ->
  truthy input = true ->
  fresh_id db newId ->
  c = mkCommand newId sessionId input None now
  /\ commands db1 = commands db ++ [c]
  /\ exists session,
       streamRoute db1 auth (Some sessionId) (Some input) (Some newId)
                   newId' now' = Streaming session c db1.
Proof.
  unfold runCommand. intros H T1 T2 T3 F.
  destruct auth as [userId|]; [|discriminate].
  destruct (findFirst (ownedBy sessionId userId) (terminalSessions db))
    as [s|] eqn:S; [|discriminate].
  unfold createCommand in H. inversion H. subst. clear H.
  split; [reflexivity|]. split; [reflexivity|].
  exists s. unfold streamRoute. rewrite T2, T3. cbn [negb orb terminalSessions].
  rewrite S. unfold ensureCommandRecord, findFirst. rewrite T1.
  cbn [commands].
  rewrite (find_app_none _ _ _ (fresh_not_found _ _ sessionId F)).
  cbn [find]. unfold byId. cbn [c_id c_sessionId].
  now rewrite !jsstring_eqb_refl.
Qed.

Lemma submitted_command_is_the_one_streamed_witness :
  let mine := mkTerminalSession (js "s1") (js "alice") in
  let older := mkCommand (js "c1") (js "s1") (js "ls") (Some (js "a.txt")) 7 in
  let db := mkDatabase [mine] [older] in
  let c := mkCommand (js "c2") (js "s1") (js "ls") None 9 in
  let db1 := mkDatabase [mine] [older; c] in
  runCommand db (Some (js "alice")) (js "s1") (js "ls") (js "c2") 9 =
    Some (db1, c)
  /\ fresh_id db (js "c2")
  /\ streamRoute db1 (Some (js "alice")) (Some (js "s1")) (Some (js "ls"))
                 (Some (js "c2")) (js "c3") 10 = Streaming mine c db1.
Proof.
  intros mine older db c db1.
  assert (H: runCommand db (Some (js "alice")) (js "s1") (js "ls") (js "c2") 9
             = Some (db1, c)) by (vm_compute; reflexivity).
  assert (F: fresh_id db (js "c2")).
  { intros x [<-|[]]. discriminate. }
  destruct (submitted_command_is_the_one_streamed db (Some (js "alice"))
              (js "s1") (js "ls") (js "c2") 9 db1 c (js "c3") 10
              H eq_refl eq_refl eq_refl F) as (_ & _ & s & G).
  split; [exact H|]. split; [exact F|].
  vm_compute. reflexivity.
Defined.

End CommandRecordFacts.
